(** * pico-state: a shallow embedding of the store and its notifier

    The development follows [src/store.ts] (classes [Store] and [PubSub])
    and [src/utils/helpers.ts] ([cloneObject], [isObject], [isString],
    [isEqual]).

    JavaScript objects are mutable and shared by reference, and several
    properties of the store are about exactly that, so values live in an
    explicit heap: a value is a primitive or a reference to a heap cell,
    and every operation of the program is a function of the heap (and of
    the rest of the world: the table of store instances, the registry,
    pending timers, the browser storage and the console).

    Conventions of the model:
    - numbers are integers ([Z]); floating point is out of scope;
    - an object is the list of its own enumerable properties in
      enumeration order; keys that look like array indices, which the
      language enumerates first, get no special treatment;
    - the text produced by [JSON.stringify] is represented by its syntax
      tree ([json]): the printer emits no insignificant white space and one
      fixed spelling for every character, so two texts are equal exactly
      when their trees are;
    - values are [undefined], [null], booleans, integers, strings,
      functions, arrays and plain objects: there are no symbols and no
      [BigInt]s, and [JSON.stringify] is modelled for objects without a
      method [toJSON]; the statements about copies that depend on it say
      so ([toJSON_free]);
    - a text kept in [localStorage] is a JSON text, given by its tree, the
      empty text, or a text that is not JSON; what [JSON.parse] makes of a
      text that repeats a key is not modelled, and the statements that
      read a foreign text back exclude it ([plain_text]);
    - the selectors and callbacks of subscribers belong to the host
      program: a [Host] gives, for each of them, what it does to the heap
      and whether it returns or throws; a subscriber that calls back into
      the store while it is being notified is not modelled;
    - the message of [new Error(e)] is [String(e)], which depends on the
      engine's wording of [e], and is kept as [StringOf e];
    - places where the model does not follow the language (exotic
      receivers that only a foreign persisted blob can produce) complete
      with [Gap Unmodelled], never with an invented result. *)

From Stdlib Require Import ZArith Lia.
From stdpp Require Import base option list strings gmap.

Local Open Scope string_scope.
Local Open Scope list_scope.

(** ** Values, heap cells and JSON trees *)

Module JS.

Abbreviation loc := nat (only parsing).

(** Function values are opaque; only their identity is observed.
    [Builtin] names a member of [Object.prototype]. *)
Inductive fn :=
| Builtin (name : string)
| Closure (id : nat).

Inductive val :=
| VUndefined
| VNull
| VBool (b : bool)
| VNum (n : Z)
| VStr (s : string)
| VFun (f : fn)
| VRef (l : loc).

Inductive cell :=
| CObj (props : list (string * val))
| CArr (elems : list val).

#[local] Unset Elimination Schemes.
Inductive json :=
| JNull
| JBool (b : bool)
| JNum (n : Z)
| JStr (s : string)
| JArr (elems : list json)
| JObj (props : list (string * json)).
#[local] Set Elimination Schemes.

(** Induction on JSON trees: the hypotheses for an array and for an object
    cover their members. *)

Section JsonInduction.

Variable P : json -> Prop.
Hypothesis HNull : P JNull.
Hypothesis HBool : forall b, P (JBool b).
Hypothesis HNum : forall n, P (JNum n).
Hypothesis HStr : forall s, P (JStr s).
Hypothesis HArr : forall js, Forall P js -> P (JArr js).
Hypothesis HObj : forall ps, Forall (fun p => P (snd p)) ps -> P (JObj ps).

Fixpoint json_tree_ind (j : json) : P j :=
  match j with
  | JNull => HNull
  | JBool b => HBool b
  | JNum n => HNum n
  | JStr s => HStr s
  | JArr js =>
      HArr js
        ((fix go (js : list json) : Forall P js :=
            match js with
            | [] => @List.Forall_nil _ P
            | j :: js' => @List.Forall_cons _ P j js' (json_tree_ind j) (go js')
            end) js)
  | JObj ps =>
      HObj ps
        ((fix go (ps : list (string * json)) : Forall (fun p => P (snd p)) ps :=
            match ps with
            | [] => @List.Forall_nil _ (fun p => P (snd p))
            | (k, j) :: ps' =>
                @List.Forall_cons _ (fun p => P (snd p)) (k, j) ps'
                                  (json_tree_ind j) (go ps')
            end) ps)
  end.

End JsonInduction.

(** JavaScript exceptions. The message of an [Error] is a text of the
    program or, for [new Error(e)], the text [String(e)] of the exception
    [e]: this depends on the engine's wording of [e], so it is kept as
    that, not spelled out. *)
Inductive exn :=
| Error (msg : message)
| TypeError
| SyntaxError
| QuotaExceededError
with message :=
| Text (s : string)
| StringOf (e : exn).

Coercion Text : string >-> message.

(** Completions that are not behaviours of the program but limits of the
    model. *)
Inductive gap :=
| OutOfFuel
| Dangling
| Unmodelled.

Inductive res (A : Type) :=
| Ok (a : A)
| Throw (e : exn)
| Gap (g : gap).
Arguments Ok {A} a.
Arguments Throw {A} e.
Arguments Gap {A} g.

Definition res_map {A B} (f : A -> B) (r : res A) : res B :=
  match r with
  | Ok a => Ok (f a)
  | Throw e => Throw e
  | Gap g => Gap g
  end.

#[global] Instance fn_eq_dec : EqDecision fn.
Proof. solve_decision. Defined.

#[global] Instance val_eq_dec : EqDecision val.
Proof. solve_decision. Defined.

(** Equality of JSON trees: the comparison of two serialized texts. *)
Fixpoint all2 {A} (f : A -> A -> bool) (xs ys : list A) : bool :=
  match xs, ys with
  | [], [] => true
  | x :: xs', y :: ys' => f x y && all2 f xs' ys'
  | _, _ => false
  end.

Fixpoint json_eqb (a b : json) {struct a} : bool :=
  match a, b with
  | JNull, JNull => true
  | JBool x, JBool y => bool_decide (x = y)
  | JNum x, JNum y => bool_decide (x = y)
  | JStr x, JStr y => bool_decide (x = y)
  | JArr xs, JArr ys => all2 json_eqb xs ys
  | JObj ps, JObj qs =>
      all2 (fun p q => bool_decide (fst p = fst q) && json_eqb (snd p) (snd q))
           ps qs
  | _, _ => false
  end.

Definition text_eqb (a b : option json) : bool :=
  match a, b with
  | None, None => true
  | Some x, Some y => json_eqb x y
  | _, _ => false
  end.

(** *** Own properties *)

Fixpoint obj_get (ps : list (string * val)) (k : string) : option val :=
  match ps with
  | [] => None
  | (k', v) :: ps' => if bool_decide (k' = k) then Some v else obj_get ps' k
  end.

(** Defining a property keeps the position of an existing key and
    appends a new one. *)
Fixpoint obj_set (ps : list (string * val)) (k : string) (v : val)
  : list (string * val) :=
  match ps with
  | [] => [(k, v)]
  | (k', v') :: ps' =>
      if bool_decide (k' = k) then (k, v) :: ps'
      else (k', v') :: obj_set ps' k v
  end.

Definition obj_assign (target source : list (string * val))
  : list (string * val) :=
  fold_left (fun acc kv => obj_set acc (fst kv) (snd kv)) source target.

Fixpoint json_get (ps : list (string * json)) (k : string) : option json :=
  match ps with
  | [] => None
  | (k', j) :: ps' => if bool_decide (k' = k) then Some j else json_get ps' k
  end.

(** Names every ordinary object inherits from [Object.prototype]. *)
Definition Object_prototype_methods : list string :=
  [ "constructor"; "hasOwnProperty"; "isPrototypeOf";
    "propertyIsEnumerable"; "toLocaleString"; "toString"; "valueOf";
    "__defineGetter__"; "__defineSetter__";
    "__lookupGetter__"; "__lookupSetter__" ].

(** [target[k]]. *)
Definition js_get (h : list cell) (target : val) (k : string) : res val :=
  match target with
  | VUndefined | VNull => Throw TypeError
  | VRef l =>
      match h !! l with
      | None => Gap Dangling
      | Some (CObj ps) =>
          match obj_get ps k with
          | Some v => Ok v
          | None =>
              if bool_decide (k = "__proto__") then Gap Unmodelled
              else if bool_decide (k ∈ Object_prototype_methods)
                   then Ok (VFun (Builtin k))
                   else Ok VUndefined
          end
      | Some (CArr _) => Gap Unmodelled
      end
  | VBool _ | VNum _ | VStr _ | VFun _ => Gap Unmodelled
  end.

(** [target[k] = v] in strict code. *)
Definition js_set (h : list cell) (target : val) (k : string) (v : val)
  : res (list cell) :=
  match target with
  | VRef l =>
      match h !! l with
      | None => Gap Dangling
      | Some (CObj ps) =>
          match obj_get ps k with
          | None =>
              if bool_decide (k = "__proto__") then Gap Unmodelled
              else Ok (<[l := CObj (obj_set ps k v)]> h)
          | Some _ => Ok (<[l := CObj (obj_set ps k v)]> h)
          end
      | Some (CArr _) => Gap Unmodelled
      end
  | VUndefined | VNull | VBool _ | VNum _ | VStr _ => Throw TypeError
  | VFun _ => Gap Unmodelled
  end.

(** The own enumerable properties a spread or [Object.assign] copies
    from [source]. *)
Definition own_enumerable (h : list cell) (source : val)
  : res (list (string * val)) :=
  match source with
  | VUndefined | VNull | VBool _ | VNum _ | VFun _ => Ok []
  | VStr s => if bool_decide (s = "") then Ok [] else Gap Unmodelled
  | VRef l =>
      match h !! l with
      | None => Gap Dangling
      | Some (CObj ps) => Ok ps
      | Some (CArr []) => Ok []
      | Some (CArr _) => Gap Unmodelled
      end
  end.

(** [Object.assign(target, source)]: the properties of [source] are set
    on [target], which is returned. A [null] or [undefined] target is a
    [TypeError]; a number or boolean target is boxed and the box is
    returned to nobody; the characters of a string target are read-only,
    so a source that has an index the string also has is a [TypeError]. *)
Definition Object_assign (h : list cell) (target source : val)
  : res (val * list cell) :=
  match target with
  | VUndefined | VNull => Throw TypeError
  | VBool _ | VNum _ => Ok (target, h)
  | VFun _ => Gap Unmodelled
  | VStr t =>
      match source with
      | VUndefined | VNull | VBool _ | VNum _ | VFun _ => Ok (target, h)
      | VStr s =>
          if bool_decide (t = "") || bool_decide (s = "") then Ok (target, h)
          else Throw TypeError
      | VRef l =>
          match h !! l with
          | None => Gap Dangling
          | Some (CObj []) | Some (CArr []) => Ok (target, h)
          | Some (CArr (_ :: _)) =>
              if bool_decide (t = "") then Ok (target, h) else Throw TypeError
          | Some (CObj (_ :: _)) => Gap Unmodelled
          end
      end
  | VRef l =>
      match h !! l with
      | None => Gap Dangling
      | Some (CObj ps) =>
          match own_enumerable h source with
          | Ok qs => Ok (target, <[l := CObj (obj_assign ps qs)]> h)
          | Throw e => Throw e
          | Gap g => Gap g
          end
      | Some (CArr es) =>
          match source with
          | VUndefined | VNull | VBool _ | VNum _ | VFun _ => Ok (target, h)
          | VStr s => if bool_decide (s = "") then Ok (target, h) else Gap Unmodelled
          | VRef l' =>
              match h !! l' with
              | None => Gap Dangling
              | Some (CArr es') =>
                  Ok (target, <[l := CArr (es' ++ drop (length es') es)]> h)
              | Some (CObj []) => Ok (target, h)
              | Some (CObj (_ :: _)) => Gap Unmodelled
              end
          end
      end
  end.

(** *** JSON.stringify

    [ser fuel h stack v] walks the value [v] in heap [h]; [stack] holds
    the objects being serialized, and meeting one of them again is the
    [TypeError] of a cyclic structure. A property whose value is
    [undefined] or a function is left out of an object and printed as
    [null] in an array; at the top the result is then [undefined]
    ([None]). *)

Fixpoint ser_props (f : val -> res (option json)) (ps : list (string * val))
  : res (list (string * json)) :=
  match ps with
  | [] => Ok []
  | (k, v) :: ps' =>
      match f v with
      | Ok oj =>
          match ser_props f ps' with
          | Ok js => Ok (match oj with Some j => (k, j) :: js | None => js end)
          | Throw e => Throw e
          | Gap g => Gap g
          end
      | Throw e => Throw e
      | Gap g => Gap g
      end
  end.

Fixpoint ser_elems (f : val -> res (option json)) (vs : list val)
  : res (list json) :=
  match vs with
  | [] => Ok []
  | v :: vs' =>
      match f v with
      | Ok oj =>
          match ser_elems f vs' with
          | Ok js => Ok (default JNull oj :: js)
          | Throw e => Throw e
          | Gap g => Gap g
          end
      | Throw e => Throw e
      | Gap g => Gap g
      end
  end.

Fixpoint ser (fuel : nat) (h : list cell) (stack : list loc) (v : val)
  : res (option json) :=
  match fuel with
  | O => Gap OutOfFuel
  | S fuel' =>
      match v with
      | VUndefined | VFun _ => Ok None
      | VNull => Ok (Some JNull)
      | VBool b => Ok (Some (JBool b))
      | VNum n => Ok (Some (JNum n))
      | VStr s => Ok (Some (JStr s))
      | VRef l =>
          if bool_decide (l ∈ stack) then Throw TypeError
          else
            match h !! l with
            | None => Gap Dangling
            | Some (CObj ps) =>
                res_map (fun js => Some (JObj js))
                        (ser_props (ser fuel' h (l :: stack)) ps)
            | Some (CArr vs) =>
                res_map (fun js => Some (JArr js))
                        (ser_elems (ser fuel' h (l :: stack)) vs)
            end
      end
  end.

(** A chain of nested objects never repeats one, so it is no longer than
    the heap: this much fuel is never used up. *)
Definition JSON_stringify (h : list cell) (v : val) : res (option json) :=
  ser (S (length h)) h [] v.

(** *** JSON.parse

    Parsing builds fresh cells for every object and array of the text,
    children before their parent. *)
Fixpoint parse_elems (f : json -> list cell -> val * list cell)
  (js : list json) (h : list cell) : list val * list cell :=
  match js with
  | [] => ([], h)
  | j :: js' =>
      let '(v, h1) := f j h in
      let '(vs, h2) := parse_elems f js' h1 in
      (v :: vs, h2)
  end.

Fixpoint parse_props (f : json -> list cell -> val * list cell)
  (ps : list (string * json)) (h : list cell)
  : list (string * val) * list cell :=
  match ps with
  | [] => ([], h)
  | (k, j) :: ps' =>
      let '(v, h1) := f j h in
      let '(qs, h2) := parse_props f ps' h1 in
      ((k, v) :: qs, h2)
  end.

Fixpoint JSON_parse (j : json) (h : list cell) {struct j} : val * list cell :=
  match j with
  | JNull => (VNull, h)
  | JBool b => (VBool b, h)
  | JNum n => (VNum n, h)
  | JStr s => (VStr s, h)
  | JArr js =>
      let '(vs, h') := parse_elems JSON_parse js h in
      (VRef (length h'), h' ++ [CArr vs])
  | JObj ps =>
      let '(qs, h') := parse_props JSON_parse ps h in
      (VRef (length h'), h' ++ [CObj qs])
  end.

End JS.

(** ** [src/utils/helpers.ts] *)

Module Helpers.
Import JS.

Definition typeof (v : val) : string :=
  match v with
  | VUndefined => "undefined"
  | VNull => "object"
  | VBool _ => "boolean"
  | VNum _ => "number"
  | VStr _ => "string"
  | VFun _ => "function"
  | VRef _ => "object"
  end.

Definition Array_isArray (h : list cell) (v : val) : bool :=
  match v with
  | VRef l => match h !! l with Some (CArr _) => true | _ => false end
  | _ => false
  end.

(** [JSON.parse(JSON.stringify(obj))]; [JSON.parse(undefined)] is a
    [SyntaxError]. *)
Definition cloneObject (h : list cell) (obj : val) : res (val * list cell) :=
  match JSON_stringify h obj with
  | Ok (Some j) => Ok (JSON_parse j h)
  | Ok None => Throw SyntaxError
  | Throw e => Throw e
  | Gap g => Gap g
  end.

Definition isObject (h : list cell) (v : val) : bool :=
  negb (bool_decide (v = VNull))
  && bool_decide (typeof v = "object")
  && bool_decide (Array_isArray h v = false).

Definition isString (v : val) : bool :=
  negb (bool_decide (v = VNull)) && bool_decide (typeof v = "string").

Definition isEqual (h : list cell) (a b : val) : res bool :=
  match JSON_stringify h a with
  | Ok x =>
      match JSON_stringify h b with
      | Ok y => Ok (text_eqb x y)
      | Throw e => Throw e
      | Gap g => Gap g
      end
  | Throw e => Throw e
  | Gap g => Gap g
  end.

End Helpers.

(** ** The world the program runs in *)

Module Runtime.
Import JS.

Record CallbackListItem := { callback : fn; config : fn }.

(** class [PubSub] *)
Record PubSub := { _callbackList : list CallbackListItem }.

(** class [Store]; instances are referred to by their index in the table
    of instances. *)
Record Store := {
  _storeName : string;
  _internalState : val;
  _pubSub : PubSub
}.

(** The text stored under a key of [localStorage]: a JSON text (given by
    its tree), the empty text, or some other text that is not JSON, such
    as [undefined]. *)
Inductive text :=
| TJson (j : json)
| TEmpty
| TInvalid.

Record Storage := {
  items : gmap string text;
  quota_exceeded : bool      (* [setItem] throws *)
}.

Record world := {
  heap : list cell;
  stores : list Store;
  storeRegistry : gmap string nat;     (* static [Store.storeRegistry] *)
  timers : list nat;                   (* pending [setTimeout] callbacks, by the store they captured *)
  window : option Storage;             (* [window.localStorage], where there is one *)
  console : list string;
  calls : list (fn * val)              (* subscriber callbacks invoked so far, with their argument *)
}.

Definition set_heap (h : list cell) (w : world) : world :=
  {| heap := h; stores := stores w; storeRegistry := storeRegistry w;
     timers := timers w; window := window w; console := console w;
     calls := calls w |}.

Definition set_stores (ss : list Store) (w : world) : world :=
  {| heap := heap w; stores := ss; storeRegistry := storeRegistry w;
     timers := timers w; window := window w; console := console w;
     calls := calls w |}.

Definition set_storeRegistry (r : gmap string nat) (w : world) : world :=
  {| heap := heap w; stores := stores w; storeRegistry := r;
     timers := timers w; window := window w; console := console w;
     calls := calls w |}.

Definition set_timers (ts : list nat) (w : world) : world :=
  {| heap := heap w; stores := stores w; storeRegistry := storeRegistry w;
     timers := ts; window := window w; console := console w;
     calls := calls w |}.

Definition set_window (s : option Storage) (w : world) : world :=
  {| heap := heap w; stores := stores w; storeRegistry := storeRegistry w;
     timers := timers w; window := s; console := console w;
     calls := calls w |}.

Definition set_console (c : list string) (w : world) : world :=
  {| heap := heap w; stores := stores w; storeRegistry := storeRegistry w;
     timers := timers w; window := window w; console := c;
     calls := calls w |}.

Definition set_calls (c : list (fn * val)) (w : world) : world :=
  {| heap := heap w; stores := stores w; storeRegistry := storeRegistry w;
     timers := timers w; window := window w; console := console w;
     calls := c |}.

(** Computations: a completion and the world they leave. A throw keeps
    the effects made before it. *)
Definition M (A : Type) : Type := world -> res A * world.

Definition ret {A} (a : A) : M A := fun w => (Ok a, w).

Definition bind {A B} (c : M A) (k : A -> M B) : M B :=
  fun w =>
    match c w with
    | (Ok a, w') => k a w'
    | (Throw e, w') => (Throw e, w')
    | (Gap g, w') => (Gap g, w')
    end.

Definition throw {A} (e : exn) : M A := fun w => (Throw e, w).

(** [try { c } catch (error) { handler(error) }] *)
Definition try_catch {A} (c : M A) (handler : exn -> M A) : M A :=
  fun w =>
    match c w with
    | (Throw e, w') => handler e w'
    | r => r
    end.

(** A promise nobody awaits: its rejection is lost. *)
Definition detach {A} (c : M A) : M unit :=
  fun w =>
    match c w with
    | (Gap g, w') => (Gap g, w')
    | (_, w') => (Ok tt, w')
    end.

Definition get : M world := fun w => (Ok w, w).

Definition modify (f : world -> world) : M unit := fun w => (Ok tt, f w).

(** A heap operation that allocates or writes. *)
Definition on_heap {A} (f : list cell -> res (A * list cell)) : M A :=
  fun w =>
    match f (heap w) with
    | Ok (a, h') => (Ok a, set_heap h' w)
    | Throw e => (Throw e, w)
    | Gap g => (Gap g, w)
    end.

(** A heap operation that only reads. *)
Definition read_heap {A} (f : list cell -> res A) : M A :=
  fun w =>
    match f (heap w) with
    | Ok a => (Ok a, w)
    | Throw e => (Throw e, w)
    | Gap g => (Gap g, w)
    end.

Definition alloc (c : cell) : M val :=
  fun w => (Ok (VRef (length (heap w))), set_heap (heap w ++ [c]) w).

Definition get_store (this : nat) : M Store :=
  fun w =>
    match stores w !! this with
    | Some s => (Ok s, w)
    | None => (Gap Dangling, w)
    end.

Definition set_internalState (this : nat) (v : val) : M unit :=
  fun w =>
    match stores w !! this with
    | Some s =>
        (Ok tt,
         set_stores (<[this := {| _storeName := _storeName s;
                                  _internalState := v;
                                  _pubSub := _pubSub s |}]> (stores w)) w)
    | None => (Gap Dangling, w)
    end.

Definition set_pubSub (this : nat) (p : PubSub) : M unit :=
  fun w =>
    match stores w !! this with
    | Some s =>
        (Ok tt,
         set_stores (<[this := {| _storeName := _storeName s;
                                  _internalState := _internalState s;
                                  _pubSub := p |}]> (stores w)) w)
    | None => (Gap Dangling, w)
    end.

Definition console_log (msg : string) : M unit :=
  modify (fun w => set_console (console w ++ [msg]) w).

(** A call of a function of the host program: it runs on the heap, may
    read, write and allocate there, and returns or throws; what it wrote
    before it threw stays written. *)
Definition call_host {A} (f : list cell -> res A * list cell) : M A :=
  fun w => ((f (heap w)).1, set_heap (f (heap w)).2 w).

(** The functions of the host program that the notifier calls: what the
    function [f] does when called as a selector on a state, or as a
    callback on a selected value, in a given heap. A host function that
    calls back into the store is not described. *)
Record Host := {
  config_body : fn -> list cell -> val -> res val * list cell;
  callback_body : fn -> list cell -> val -> res unit * list cell
}.

End Runtime.

Declare Scope js_scope.
Delimit Scope js_scope with js.
Notation "x <- c1 ;; c2" := (Runtime.bind c1 (fun x => c2))
  (at level 100, c1 at next level, right associativity) : js_scope.
Notation "c1 ;; c2" := (Runtime.bind c1 (fun _ => c2))
  (at level 100, right associativity) : js_scope.

(** ** class [PubSub] *)

Module PubSub.
Import JS Helpers Runtime.
Local Open Scope js_scope.

(** [new PubSub()] *)
Definition new : PubSub := {| _callbackList := [] |}.

Definition as_function (v : val) : option fn :=
  match v with
  | VFun f => Some f
  | _ => None
  end.

(** The function [subscribe] returns: it captured [callback] and acts on
    the notifier it was made for. *)
Definition unsubscribe (callback : fn) (this : PubSub) : PubSub :=
  {| _callbackList :=
       filter (fun item => Runtime.callback item ≠ callback) (_callbackList this) |}.

Definition subscribe (this : PubSub) (callback config : val)
  : res (PubSub * (PubSub -> PubSub)) :=
  match as_function callback with
  | None => Throw (Error "callback should be a function")
  | Some cb =>
      match as_function config with
      | None => Throw (Error "config should be a function")
      | Some cf =>
          Ok ({| _callbackList :=
                   _callbackList this ++ [ {| callback := cb; config := cf |} ] |},
              unsubscribe cb)
      end
  end.

Fixpoint forEach (items : list CallbackListItem) (body : CallbackListItem -> M unit)
  : M unit :=
  match items with
  | [] => ret tt
  | item :: rest => body item ;; forEach rest body
  end.

Section WithHost.

Variable host : Host.

(** [item.config(state)] *)
Definition call_config (f : fn) (state : val) : M val :=
  call_host (fun h => config_body host f h state).

(** [item.callback(value)]: the call is recorded, then the callback
    runs. *)
Definition invoke (callback : fn) (arg : val) : M unit :=
  modify (fun w => set_calls (calls w ++ [(callback, arg)]) w) ;;
  call_host (fun h => callback_body host callback h arg).

(** The function given to [forEach]. *)
Definition notify (currentState nextState : val) (item : CallbackListItem) : M unit :=
  currentValue <- call_config (config item) currentState ;;
  nextValue <- call_config (config item) nextState ;;
  equal <- read_heap (fun h => isEqual h currentValue nextValue) ;;
  if negb equal then invoke (callback item) nextValue else ret tt.

Definition publish (this : PubSub) (currentState nextState : val) : M unit :=
  w <- get ;;
  if negb (isObject (heap w) currentState)
  then throw (Error "currentState should be and object")
  else if negb (isObject (heap w) nextState)
  then throw (Error "nextState should be and object")
  else forEach (_callbackList this) (notify currentState nextState).

End WithHost.

(** Two kinds of host functions: selectors that are functions of the heap
    and of the state they are given and write nothing, and callbacks that
    return without writing. *)
Definition reads (select : fn -> list cell -> val -> val)
  : fn -> list cell -> val -> res val * list cell :=
  fun f h state => (Ok (select f h state), h).

Definition returns : fn -> list cell -> val -> res unit * list cell :=
  fun _ h _ => (Ok tt, h).

Definition inert (select : fn -> list cell -> val -> val) : Host :=
  {| config_body := reads select; callback_body := returns |}.

End PubSub.

(** ** class [Store] *)

Module StoreProps.
Import JS.
Record t := {
  storeName : option string;
  replace : option bool;
  initialState : val
}.
End StoreProps.

Module SetStateProps.
Import JS.
Record t := {
  slice : option string;
  value : val;
  replace : option bool
}.
End SetStateProps.

Module CreateSliceProps.
Import JS.
Record t := {
  name : val;
  initialState : val
}.
End CreateSliceProps.

Module Store.
Import JS Helpers Runtime.
Local Open Scope js_scope.

(** Truthiness of an optional string: [undefined] and the empty string
    are falsy. *)
Definition truthy (s : option string) : bool :=
  match s with
  | Some s => negb (bool_decide (s = ""))
  | None => false
  end.

Definition clone (v : val) : M val := on_heap (fun h => cloneObject h v).

(** [get state()] *)
Definition state (this : nat) : M val :=
  s <- get_store this ;;
  clone (_internalState s).

Definition localStorage_setItem (key : string) (stateToSave : option json) : M unit :=
  fun w =>
    match window w with
    | None => (Gap Unmodelled, w)
    | Some ls =>
        if quota_exceeded ls then (Throw QuotaExceededError, w)
        else
          let t := match stateToSave with
                   | Some j => TJson j
                   | None => TInvalid
                   end in
          (Ok tt, set_window (Some {| items := <[key := t]> (items ls);
                                      quota_exceeded := quota_exceeded ls |}) w)
    end.

Definition saveStateToLocalStorage (this : nat) : M unit :=
  w <- get ;;
  match window w with
  | None => ret tt
  | Some _ =>
      try_catch
        (snapshot <- state this ;;
         stateToSave <- read_heap (fun h => JSON_stringify h snapshot) ;;
         console_log "Saving state to local storage..." ;;
         s <- get_store this ;;
         localStorage_setItem (_storeName s) stateToSave)
        (fun error =>
           console_log "Error saving state to local storage:" ;;
           throw (Error (StringOf error)))
  end.

(** [JSON.parse] of a stored text. *)
Definition parse_text (t : text) : M val :=
  match t with
  | TJson j => on_heap (fun h => Ok (JSON_parse j h))
  | TEmpty | TInvalid => throw SyntaxError
  end.

Definition text_truthy (t : option text) : bool :=
  match t with
  | None => false
  | Some TEmpty => false
  | Some (TJson _ | TInvalid) => true
  end.

Definition loadStateFromLocalStorage (this : nat) : M unit :=
  w <- get ;;
  match window w with
  | None => ret tt
  | Some ls =>
      try_catch
        (s <- get_store this ;;
         let savedState := items ls !! _storeName s in
         console_log "Loading state from local storage..." ;;
         if text_truthy savedState then
           match savedState with
           | Some t => parsed <- parse_text t ;; set_internalState this parsed
           | None => ret tt
           end
         else ret tt)
        (fun error =>
           console_log "Error loading state from local storage:" ;;
           console_log "Setting state to default value..." ;;
           empty <- alloc (CObj []) ;;
           set_internalState this empty ;;
           console_log "Default value set: {}")
  end.

(** [setTimeout(() => { this._pubSub.publish(this.state, this.state) }, 0)] *)
Definition setTimeout (this : nat) : M unit :=
  modify (fun w => set_timers (timers w ++ [this]) w).

(** [async setState(props)]: a throw is the rejection of the promise the
    call returns. *)
Definition setState (this : nat) (props : SetStateProps.t) : M val :=
  let slice := SetStateProps.slice props in
  let value := SetStateProps.value props in
  let replace := SetStateProps.replace props in
  w <- get ;;
  if negb (truthy slice) && negb (isObject (heap w) value)
  then throw (Error "non-slice value must be an object")
  else
    (if truthy slice then
       let key := default "" slice in
       s <- get_store this ;;
       copy <- clone (_internalState s) ;;
       currentState <- read_heap (fun h => js_get h copy key) ;;
       target <- clone currentState ;;
       source <- clone value ;;
       nextState <- on_heap (fun h => Object_assign h target source) ;;
       s <- get_store this ;;
       fresh <- clone value ;;
       on_heap (fun h => res_map (fun h' => (tt, h'))
                                 (js_set h (_internalState s) key fresh))
     else if negb (truthy slice) && bool_decide (replace = Some true) then
       set_internalState this value
     else
       s <- get_store this ;;
       ps <- read_heap (fun h => own_enumerable h (_internalState s)) ;;
       qs <- read_heap (fun h => own_enumerable h value) ;;
       merged <- alloc (CObj (obj_assign (obj_assign [] ps) qs)) ;;
       set_internalState this merged) ;;
    setTimeout this ;;
    saveStateToLocalStorage this ;;
    state this.

Section WithHost.

Variable host : Host.

(** The callback [setState] hands to [setTimeout]. *)
Definition timer_callback (this : nat) : M unit :=
  s <- get_store this ;;
  currentState <- state this ;;
  nextState <- state this ;;
  PubSub.publish host (_pubSub s) currentState nextState.

(** One turn of the event loop: the oldest pending timer fires; what it
    throws reaches nobody. *)
Definition run_timer : M unit :=
  w <- get ;;
  match timers w with
  | [] => ret tt
  | this :: rest =>
      modify (set_timers rest) ;;
      detach (timer_callback this)
  end.

Definition createSlice (this : nat) (slice : CreateSliceProps.t) : M val :=
  let name := CreateSliceProps.name slice in
  let initialState := CreateSliceProps.initialState slice in
  if negb (isString name) then throw (Error "name must be a string")
  else
    match name with
    | VStr key =>
        s <- get_store this ;;
        v <- match initialState with
             | VUndefined | VNull => alloc (CObj [])
             | _ => ret initialState
             end ;;
        on_heap (fun h => res_map (fun h' => (tt, h'))
                                  (js_set h (_internalState s) key v)) ;;
        s <- get_store this ;;
        currentState <- state this ;;
        nextState <- state this ;;
        PubSub.publish host (_pubSub s) currentState nextState ;;
        saveStateToLocalStorage this ;;
        state this
    | _ => throw (Error "name must be a string")
    end.

End WithHost.

(** [Store.storeRegistry[name]]: an own entry, or what the registry, an
    ordinary object, inherits under that name. *)
Inductive registered :=
| Instance (this : nat)
| Inherited
| Absent.

Definition storeRegistry_get (name : string) : M registered :=
  fun w =>
    match storeRegistry w !! name with
    | Some this => (Ok (Instance this), w)
    | None =>
        if bool_decide (name = "__proto__")
           || bool_decide (name ∈ Object_prototype_methods)
        then (Ok Inherited, w)
        else (Ok Absent, w)
    end.

(** The instance under construction is held in locals; it enters the
    table of instances when the constructor keeps it. *)
Definition register (s : Store) : M nat :=
  fun w =>
    let this := length (stores w) in
    (Ok this,
     set_storeRegistry (<[_storeName s := this]> (storeRegistry w))
                       (set_stores (stores w ++ [s]) w)).

Definition default_props : M StoreProps.t :=
  empty <- alloc (CObj []) ;;
  ret {| StoreProps.storeName := Some "appState";
         StoreProps.initialState := empty;
         StoreProps.replace := Some false |}.

Definition constructor (props : option StoreProps.t) : M nat :=
  props <- match props with
           | Some p => ret p
           | None => default_props
           end ;;
  let storeName := StoreProps.storeName props in
  let initialState := StoreProps.initialState props in
  let replace := StoreProps.replace props in
  w <- get ;;
  if negb (isObject (heap w) initialState)
  then throw (Error "initial state must be an object")
  else
    let _storeName := default "appState" storeName in
    existingStore <- storeRegistry_get _storeName ;;
    let _pubSub := PubSub.new in
    _internalState <- clone initialState ;;
    match existingStore with
    | Instance existing =>
        detach (setState existing
                  {| SetStateProps.slice := None;
                     SetStateProps.value := initialState;
                     SetStateProps.replace := replace |}) ;;
        ret existing
    | Inherited => throw TypeError
    | Absent =>
        this <- register {| Runtime._storeName := _storeName;
                            Runtime._internalState := _internalState;
                            Runtime._pubSub := _pubSub |} ;;
        loadStateFromLocalStorage this ;;
        ret this
    end.

(** [private subscribe(callback, config)] *)
Definition subscribe (this : nat) (callback config : val) : M (M unit) :=
  s <- get_store this ;;
  match PubSub.subscribe (_pubSub s) callback config with
  | Ok (p, unsubscribe) =>
      set_pubSub this p ;;
      ret (s' <- get_store this ;; set_pubSub this (unsubscribe (_pubSub s')))
  | Throw e => throw e
  | Gap g => fun w => (Gap g, w)
  end.

End Store.

(** * Vocabulary of the statements *)

Module Obs.
Import JS Helpers Runtime.

(** Nesting depth of a JSON tree. *)
Fixpoint jdepth (j : json) : nat :=
  match j with
  | JArr js => S (list_max (map jdepth js))
  | JObj ps => S (list_max (map (fun p => jdepth (snd p)) ps))
  | _ => 0
  end.

(** [H] has every cell of [h], unchanged. *)
Definition extends (h H : list cell) : Prop :=
  forall l c, h !! l = Some c -> H !! l = Some c.

(** What parsing the text [j] promises: it only appends cells, at least as
    many as [j] is deep, and the value it returns serializes back to [j]
    in every heap that kept them, under any stack of older or younger
    cells. *)
Definition parse_ok (j : json) : Prop :=
  forall h v h',
    JSON_parse j h = (v, h') ->
    (exists new, h' = h ++ new) /\
    length h + jdepth j <= length h' /\
    (forall n H st,
        jdepth j < n ->
        extends h' H ->
        (forall l, l ∈ st -> l < length h \/ length h' <= l) ->
        ser n H st v = Ok (Some j)).

(** [JSON.stringify] completes normally on [v]. *)
Definition serializable (h : list cell) (v : val) : Prop :=
  exists t, JSON_stringify h v = Ok t.

(** [c] throws nothing but exceptions in [P]. *)
Definition throws_only {A} (P : exn -> Prop) (c : M A) : Prop :=
  forall w e w', c w = (Throw e, w') -> P e.

(** [c] takes every world to one related to it by [R]. *)
Definition frame {A} (R : world -> world -> Prop) (c : M A) : Prop :=
  forall w, R w (snd (c w)).

(** The instances are the same and so are their names in the registry;
    their fields may differ. *)
Definition same_instances (w w' : world) : Prop :=
  storeRegistry w' = storeRegistry w /\ length (stores w') = length (stores w).

(** The heap only grew and no instance changed. *)
Definition only_allocates (w w' : world) : Prop :=
  extends (heap w) (heap w') /\ stores w' = stores w.

(** No subscriber was called. *)
Definition same_calls (w w' : world) : Prop := calls w' = calls w.

Definition not_Error (e : exn) : Prop :=
  match e with
  | Error _ => False
  | _ => True
  end.

(** [timers] are as they were. *)
Definition same_timers (w w' : world) : Prop := timers w' = timers w.

(** The three update policies of [setState], as one block. *)
Definition mutation (this : nat) (props : SetStateProps.t) : M unit :=
  let slice := SetStateProps.slice props in
  let value := SetStateProps.value props in
  let replace := SetStateProps.replace props in
  (if Store.truthy slice then
     let key := default "" slice in
     s <- get_store this ;;
     copy <- Store.clone (_internalState s) ;;
     currentState <- read_heap (fun h => js_get h copy key) ;;
     target <- Store.clone currentState ;;
     source <- Store.clone value ;;
     nextState <- on_heap (fun h => Object_assign h target source) ;;
     s <- get_store this ;;
     fresh <- Store.clone value ;;
     on_heap (fun h => res_map (fun h' => (tt, h'))
                               (js_set h (_internalState s) key fresh))
   else if negb (Store.truthy slice) && bool_decide (replace = Some true) then
     set_internalState this value
   else
     s <- get_store this ;;
     ps <- read_heap (fun h => own_enumerable h (_internalState s)) ;;
     qs <- read_heap (fun h => own_enumerable h value) ;;
     merged <- alloc (CObj (obj_assign (obj_assign [] ps) qs)) ;;
     set_internalState this merged)%js.

(** What [setState] does after the update: schedule the notification,
    persist, return a copy of the state. *)
Definition after_mutation (this : nat) : M val :=
  (Store.setTimeout this ;;
   Store.saveStateToLocalStorage this ;;
   Store.state this)%js.

Section Selected.

Variable select : fn -> list cell -> val -> val.

(** What the selector of [item] picks in [current] and in [next] is not
    equal for [isEqual]. *)
Definition changed (h : list cell) (current next : val)
  (item : CallbackListItem) : bool :=
  match isEqual h (select (config item) h current)
                  (select (config item) h next) with
  | Ok equal => negb equal
  | _ => false
  end.

(** The calls one [publish] makes, in order. *)
Definition notified (h : list cell) (current next : val)
  (items : list CallbackListItem) : list (fn * val) :=
  map (fun item => (callback item, select (config item) h next))
      (filter (fun item => changed h current next item = true) items).

(** On the subscription [item], in the heap [h], the host does what
    [select] says and no more: its selector returns the selected value of
    either snapshot and writes nothing, the two values can be compared,
    and its callback, where it is called, returns and writes nothing. *)
Definition quiet_on (host : Host) (h : list cell) (current next : val)
  (item : CallbackListItem) : Prop :=
  config_body host (config item) h current
  = (Ok (select (config item) h current), h) /\
  config_body host (config item) h next
  = (Ok (select (config item) h next), h) /\
  serializable h (select (config item) h current) /\
  serializable h (select (config item) h next) /\
  (changed h current next item = true ->
   callback_body host (callback item) h (select (config item) h next)
   = (Ok tt, h)).

(** The selectors are functions of the state they are given: on two
    copies of one state, made one after the other, a selector picks
    values with the same text. *)
Definition deterministic : Prop :=
  forall f j h a h1 b h2,
    JSON_parse j h = (a, h1) ->
    JSON_parse j h1 = (b, h2) ->
    JSON_stringify h2 (select f h2 a) = JSON_stringify h2 (select f h2 b).

End Selected.

(** [JSON.stringify(store.state)] *)
Definition state_text (this : nat) (w : world) : res (option json) :=
  match Store.state this w with
  | (Ok snapshot, w') => JSON_stringify (heap w') snapshot
  | (Throw e, _) => Throw e
  | (Gap g, _) => Gap g
  end.

(** [JSON.stringify(store.state[key])] *)
Definition slice_text (this : nat) (key : string) (w : world) : res (option json) :=
  match Store.state this w with
  | (Ok snapshot, w') =>
      match js_get (heap w') snapshot key with
      | Ok x => JSON_stringify (heap w') x
      | Throw e => Throw e
      | Gap g => Gap g
      end
  | (Throw e, _) => Throw e
  | (Gap g, _) => Gap g
  end.

(** [H] has every cell of [h] from location [n] on, unchanged. *)
Definition keeps_from (n : nat) (h H : list cell) : Prop :=
  forall l c, n <= l -> h !! l = Some c -> H !! l = Some c.

(** [JSON.stringify] leaves the value out of an object: it is [undefined]
    or a function. *)
Definition left_out (v : val) : Prop :=
  v = VUndefined \/ exists f, v = VFun f.

(** No object of the heap has a method [toJSON]: [JSON.stringify] would
    call it and serialize what it returns instead of the object. The
    values here are [undefined], [null], booleans, integers, strings,
    functions, arrays and plain objects; there are no symbols and no
    [BigInt]s. *)
Definition toJSON_free (h : list cell) : bool :=
  forallb (fun c =>
             match c with
             | CObj ps =>
                 match obj_get ps "toJSON" with
                 | Some (VFun _) => false
                 | _ => true
                 end
             | CArr _ => true
             end) h.

(** What parsing the text [j] promises about sharing: the value it returns
    serializes back to [j] in every heap that kept the cells the call
    added, whatever became of the older ones. *)
Definition parse_fresh (j : json) : Prop :=
  forall h v h',
    JSON_parse j h = (v, h') ->
    forall n H st,
      jdepth j < n ->
      keeps_from (length h) h' H ->
      (forall l, l ∈ st -> l < length h \/ length h' <= l) ->
      ser n H st v = Ok (Some j).

(** The cell at [l] holds a reference to the cell at [l']. *)
Definition child (h : list cell) (l l' : nat) : Prop :=
  match h !! l with
  | Some (CObj ps) => exists k, (k, VRef l') ∈ ps
  | Some (CArr vs) => VRef l' ∈ vs
  | None => False
  end.

(** From the cell at [l] one reaches a cell that contains itself, directly or
    through others. *)
Definition cyclic (h : list cell) (l : nat) : Prop :=
  exists l', rtc (child h) l l' /\ tc (child h) l' l'.

(** A reference in [v] is to a cell of [h]. *)
Definition bound (h : list cell) (v : val) : Prop :=
  match v with
  | VRef l => l < length h
  | _ => True
  end.

(** No cell of [h] refers to a cell that is not there. *)
Definition closed (h : list cell) : Prop :=
  forall l c,
    h !! l = Some c ->
    match c with
    | CObj ps => Forall (fun p => bound h (snd p)) ps
    | CArr vs => Forall (bound h) vs
    end.

(** The part [field] of the world is as it was. *)
Definition unchanged {A} (field : world -> A) (w w' : world) : Prop :=
  field w' = field w.

(** The names of the instances, in the order of their creation. *)
Definition names (w : world) : list string := map _storeName (stores w).

(** The instances are the same, under the same names and with the same
    subscriptions; their states may differ. *)
Definition same_identity (w w' : world) : Prop :=
  names w' = names w /\
  map _pubSub (stores w') = map _pubSub (stores w) /\
  storeRegistry w' = storeRegistry w.

(** The outcome of [Object.assign(target, source)] on fresh copies of the
    texts [jx] and [jv]: it returns, it throws (a [null] target; a string
    target whose characters the source would overwrite), or it is a case
    [Object_assign] does not model. *)
Definition Object_assign_text (jx jv : json) : res unit :=
  match jx with
  | JNull => Throw TypeError
  | JBool _ | JNum _ => Ok tt
  | JStr t =>
      match jv with
      | JNull | JBool _ | JNum _ | JObj [] | JArr [] => Ok tt
      | JStr s =>
          if bool_decide (t = "") || bool_decide (s = "") then Ok tt
          else Throw TypeError
      | JArr (_ :: _) => if bool_decide (t = "") then Ok tt else Throw TypeError
      | JObj (_ :: _) => Gap Unmodelled
      end
  | JObj _ =>
      match jv with
      | JStr s => if bool_decide (s = "") then Ok tt else Gap Unmodelled
      | JArr (_ :: _) => Gap Unmodelled
      | _ => Ok tt
      end
  | JArr _ =>
      match jv with
      | JStr s => if bool_decide (s = "") then Ok tt else Gap Unmodelled
      | JObj (_ :: _) => Gap Unmodelled
      | _ => Ok tt
      end
  end.

(** The heap only grew, no instance changed and no notification was
    scheduled. *)
Definition quiet (w w' : world) : Prop :=
  only_allocates w w' /\ timers w' = timers w.

(** The functions of the host program write to no cell that exists when
    they are called: they may read, allocate and throw. *)
Definition allocates_only (host : Host) : Prop :=
  (forall f h state, extends h (config_body host f h state).2) /\
  (forall f h arg, extends h (callback_body host f h arg).2).

(** Every exception of a function of the host program is one of [P]. *)
Definition host_throws_only (P : exn -> Prop) (host : Host) : Prop :=
  (forall f h state e, (config_body host f h state).1 = Throw e -> P e) /\
  (forall f h arg e, (callback_body host f h arg).1 = Throw e -> P e).

(** The name is written with digits only: an object enumerates such
    properties first, in numeric order, whenever they were added. *)
Fixpoint digits (k : string) : bool :=
  match k with
  | EmptyString => true
  | String c k' =>
      Nat.leb 48 (Ascii.nat_of_ascii c) && Nat.leb (Ascii.nat_of_ascii c) 57
      && digits k'
  end.

Definition index_like (k : string) : bool :=
  negb (bool_decide (k = "")) && digits k.

(** A JSON text that reads back as it is written. [JSON.parse] keeps the
    last of two properties of one name, moves properties whose names are
    index-like to the front, and rounds integers beyond [2^53]; a plain
    text has none of these. *)
Fixpoint plain_text (j : json) : bool :=
  match j with
  | JNum n => bool_decide (Z.abs n <= 2 ^ 53)%Z
  | JArr js => forallb plain_text js
  | JObj ps =>
      bool_decide (NoDup (map fst ps))
      && forallb (fun p => negb (index_like (fst p)) && plain_text (snd p)) ps
  | _ => true
  end.

(** What [localStorage.getItem(name)] gives, where there is a
    [localStorage]. *)
Definition stored (name : string) (w : world) : option text :=
  match window w with
  | Some ls => items ls !! name
  | None => None
  end.

(** Every instance of [w] is an instance of [w'], under the same name and
    with the same subscriptions. *)
Definition keeps_instances (w w' : world) : Prop :=
  forall i s,
    stores w !! i = Some s ->
    exists s', stores w' !! i = Some s' /\
               _storeName s' = _storeName s /\
               _pubSub s' = _pubSub s.

(** The name is one every object inherits a value for: as a key of the
    registry it finds that value although no store was registered. *)
Definition inherited (name : string) : Prop :=
  name = "__proto__" \/ name ∈ Object_prototype_methods.

(** Every entry of the registry leads to an instance of that name. *)
Definition registry_wf (w : world) : Prop :=
  forall name this,
    storeRegistry w !! name = Some this -> names w !! this = Some name.

(** The properties [qs] of a parsed object against the properties [ps] of
    its text: same keys, in the same order, and each value serializes to
    its text in every heap that has the cells of [h]. *)
Definition aligned (h : list cell) (qs : list (string * val))
  (ps : list (string * json)) : Prop :=
  Forall2 (fun q p =>
             fst q = fst p /\
             forall H, extends h H -> JSON_stringify H (snd q) = Ok (Some (snd p)))
          qs ps.

End Obs.

(** * A small host program, for examples *)

Module Demo.
Import JS Helpers Runtime.
Local Open Scope js_scope.

(** Three selectors: [s => s], [s => s.a], and a constant. *)
Definition select (f : fn) (h : list cell) (s : val) : val :=
  match f with
  | Closure 0 => s
  | Closure 1 =>
      match s with
      | VRef l =>
          match h !! l with
          | Some (CObj ps) => default VUndefined (obj_get ps "a")
          | _ => VUndefined
          end
      | _ => VUndefined
      end
  | _ => VNull
  end.

Definition store0 (state : val) (subscribers : list CallbackListItem) : Store :=
  {| _storeName := "appState";
     _internalState := state;
     _pubSub := {| _callbackList := subscribers |} |}.

Definition subscribers : list CallbackListItem :=
  [ {| callback := Closure 10; config := Closure 0 |};
    {| callback := Closure 11; config := Closure 1 |} ].

(** One store, "appState", whose state is [{b:2}]; the caller holds the
    object [{a:1}] (cell 1). *)
Definition world_b : world :=
  {| heap := [ CObj [("b", VNum 2)]; CObj [("a", VNum 1)] ];
     stores := [ store0 (VRef 0) subscribers ];
     storeRegistry := {[ "appState" := 0 ]};
     timers := [];
     window := None;
     console := [];
     calls := [] |}.

(** One store whose state is [{x:{a:1}}]; the caller holds [{b:2}]
    (cell 2). *)
Definition world_x : world :=
  {| heap := [ CObj [("a", VNum 1)]; CObj [("x", VRef 0)]; CObj [("b", VNum 2)] ];
     stores := [ store0 (VRef 1) subscribers ];
     storeRegistry := {[ "appState" := 0 ]};
     timers := [];
     window := None;
     console := [];
     calls := [] |}.

(** One store whose state is [{b:2}]; the caller holds [{user:{a:1}}]
    (cell 2) and the inner object (cell 1). *)
Definition world_nested : world :=
  {| heap := [ CObj [("b", VNum 2)]; CObj [("a", VNum 1)]; CObj [("user", VRef 1)] ];
     stores := [ store0 (VRef 0) subscribers ];
     storeRegistry := {[ "appState" := 0 ]};
     timers := [];
     window := None;
     console := [];
     calls := [] |}.

(** One store whose state has a slice with the empty name, [{"":{a:1}}];
    the caller holds [{b:2}] (cell 2). *)
Definition world_empty_name : world :=
  {| heap := [ CObj [("a", VNum 1)]; CObj [("", VRef 0)]; CObj [("b", VNum 2)] ];
     stores := [ store0 (VRef 1) subscribers ];
     storeRegistry := {[ "appState" := 0 ]};
     timers := [];
     window := None;
     console := [];
     calls := [] |}.

(** Two snapshots [{a:1,n:1}] and [{a:1,n:2}] (cells 0 and 1). *)
Definition world_snapshots : world :=
  {| heap := [ CObj [("a", VNum 1); ("n", VNum 1)];
               CObj [("a", VNum 1); ("n", VNum 2)] ];
     stores := [];
     storeRegistry := ∅;
     timers := [];
     window := None;
     console := [];
     calls := [] |}.

(** One store whose state is [{b:2}]; the caller holds an object that
    contains itself (cell 1). *)
Definition world_cycle : world :=
  {| heap := [ CObj [("b", VNum 2)]; CObj [("self", VRef 1)] ];
     stores := [ store0 (VRef 0) subscribers ];
     storeRegistry := {[ "appState" := 0 ]};
     timers := [];
     window := None;
     console := [];
     calls := [] |}.

(** [world_b] in a browser: there is a [localStorage], empty or full. *)
Definition world_storage (full : bool) : world :=
  {| heap := [ CObj [("b", VNum 2)]; CObj [("a", VNum 1)] ];
     stores := [ store0 (VRef 0) subscribers ];
     storeRegistry := {[ "appState" := 0 ]};
     timers := [];
     window := Some {| items := ∅; quota_exceeded := full |};
     console := [];
     calls := [] |}.

(** A page just loaded: no store yet, the caller holds [{a:1}] (cell 0),
    and [localStorage] is as [storage] has it. *)
Definition world_reload (storage : option Storage) : world :=
  {| heap := [ CObj [("a", VNum 1)] ];
     stores := [];
     storeRegistry := ∅;
     timers := [];
     window := storage;
     console := [];
     calls := [] |}.

(** One store whose state is [{count:0, gone:null, todos:["x"]}]; the
    caller holds [{a:1}] (cell 2). *)
Definition world_count : world :=
  {| heap := [ CObj [("count", VNum 0); ("gone", VNull); ("todos", VRef 1)];
               CArr [VStr "x"];
               CObj [("a", VNum 1)] ];
     stores := [ store0 (VRef 0) subscribers ];
     storeRegistry := {[ "appState" := 0 ]};
     timers := [];
     window := None;
     console := [];
     calls := [] |}.

(** Three subscriptions: a constant selector, the identity, [s => s.a]. *)
Definition three_subscribers : list CallbackListItem :=
  [ {| callback := Closure 12; config := Closure 2 |};
    {| callback := Closure 10; config := Closure 0 |};
    {| callback := Closure 11; config := Closure 1 |} ].

(** Two snapshots that contain themselves, [{a:1, self}] and
    [{a:2, self}] (cells 0 and 1). *)
Definition world_self : world :=
  {| heap := [ CObj [("a", VNum 1); ("self", VRef 0)];
               CObj [("a", VNum 2); ("self", VRef 1)] ];
     stores := [];
     storeRegistry := ∅;
     timers := [];
     window := None;
     console := [];
     calls := [] |}.

(** Three subscriptions: [s => s.a], the identity, [s => s.a]. *)
Definition watchers_of_a : list CallbackListItem :=
  [ {| callback := Closure 11; config := Closure 1 |};
    {| callback := Closure 10; config := Closure 0 |};
    {| callback := Closure 12; config := Closure 1 |} ].

(** Two subscriptions on the whole state. *)
Definition two_watchers : list CallbackListItem :=
  [ {| callback := Closure 10; config := Closure 0 |};
    {| callback := Closure 11; config := Closure 0 |} ].

(** A host program whose callback [Closure 10] throws; its other
    callbacks return, its selectors are those of [select]. *)
Definition throwing : Host :=
  {| config_body := PubSub.reads select;
     callback_body := fun f h _ =>
       match f with
       | Closure 10 => (Throw (Error "boom"), h)
       | _ => (Ok tt, h)
       end |}.

(** The caller's own statement [target[key] = v]. *)
Definition caller_writes (target : val) (key : string) (v : val) : M unit :=
  on_heap (fun h => res_map (fun h' => (tt, h')) (js_set h target key v)).

Definition replace_with (v : val) : SetStateProps.t :=
  {| SetStateProps.slice := None;
     SetStateProps.value := v;
     SetStateProps.replace := Some true |}.

Definition merge_with (v : val) : SetStateProps.t :=
  {| SetStateProps.slice := None;
     SetStateProps.value := v;
     SetStateProps.replace := None |}.

Definition set_slice (key : string) (v : val) : SetStateProps.t :=
  {| SetStateProps.slice := Some key;
     SetStateProps.value := v;
     SetStateProps.replace := None |}.

(** [await store.setState(props); target.a = 99] *)
Definition setState_then_write (props : SetStateProps.t) (target : val) : M unit :=
  Store.setState 0 props ;;
  caller_writes target "a" (VNum 99).

(** [store.createSlice({ name: "cart", initialState: v }); target.a = 99] *)
Definition createSlice_then_write (v target : val) : M unit :=
  Store.createSlice (PubSub.inert select) 0
    {| CreateSliceProps.name := VStr "cart";
       CreateSliceProps.initialState := v |} ;;
  caller_writes target "a" (VNum 99).

(** [const snapshot = store.state; snapshot.b = 99] *)
Definition read_then_write : M unit :=
  snapshot <- Store.state 0 ;;
  caller_writes snapshot "b" (VNum 99).

End Demo.

(** * Facts about the language layer *)

Module JSFacts.
Import JS Obs.

Lemma all2_eq {A} (f : A -> A -> bool) (xs : list A) :
  Forall (fun x => forall y, f x y = true <-> x = y) xs ->
  forall ys, all2 f xs ys = true <-> xs = ys.
Proof.
  induction 1 as [|x xs Hx _ IH]; intros [|y ys]; simpl; try (split; congruence).
  rewrite andb_true_iff, Hx, IH. split; [intros [-> ->]; done | intros [= -> ->]; done].
Qed.

Lemma json_eqb_eq (a b : json) : json_eqb a b = true <-> a = b.
Proof.
  revert b. induction a as [| | | |js IH|ps IH] using json_tree_ind;
    intros [| | | |js'|ps']; simpl; try (split; congruence);
    try (rewrite bool_decide_eq_true; split; congruence).
  - rewrite (all2_eq _ _ IH). split; congruence.
  - rewrite all2_eq; [split; congruence|].
    eapply Forall_impl; [exact IH|]. intros [k j] Hj [k' j']; simpl in *.
    rewrite andb_true_iff, bool_decide_eq_true, Hj. split; [intros [-> ->]; done | intros [= -> ->]; done].
Qed.

Lemma json_eqb_refl (a : json) : json_eqb a a = true.
Proof. by apply json_eqb_eq. Qed.

Lemma text_eqb_eq (a b : option json) : text_eqb a b = true <-> a = b.
Proof.
  destruct a, b; simpl; try (split; congruence).
  rewrite json_eqb_eq. split; congruence.
Qed.

Lemma text_eqb_refl (a : option json) : text_eqb a a = true.
Proof. by apply text_eqb_eq. Qed.

Lemma text_eqb_neq (a b : option json) : text_eqb a b = false <-> a <> b.
Proof.
  rewrite <- text_eqb_eq. destruct (text_eqb a b); split; congruence.
Qed.

(** ** Serialization is stable

    A successful serialization visits only cells off the stack; it is
    unchanged by more fuel, by a smaller stack, and by any change of the
    heap that leaves the cells off the stack as they were. *)

Lemma ser_props_impl (f g : val -> res (option json)) ps js :
  (forall v oj, f v = Ok oj -> g v = Ok oj) ->
  ser_props f ps = Ok js -> ser_props g ps = Ok js.
Proof.
  intros Hfg. revert js. induction ps as [|[k v] ps IH]; intros js; simpl; [done|].
  destruct (f v) as [oj| |] eqn:Hf; try done.
  rewrite (Hfg _ _ Hf).
  destruct (ser_props f ps) as [js'| |]; try done.
  intros [= <-]. by rewrite (IH js').
Qed.

Lemma ser_elems_impl (f g : val -> res (option json)) vs js :
  (forall v oj, f v = Ok oj -> g v = Ok oj) ->
  ser_elems f vs = Ok js -> ser_elems g vs = Ok js.
Proof.
  intros Hfg. revert js. induction vs as [|v vs IH]; intros js; simpl; [done|].
  destruct (f v) as [oj| |] eqn:Hf; try done.
  rewrite (Hfg _ _ Hf).
  destruct (ser_elems f vs) as [js'| |]; try done.
  intros [= <-]. by rewrite (IH js').
Qed.

Lemma res_map_Ok {A B} (f : A -> B) (r : res A) b :
  res_map f r = Ok b -> exists a, r = Ok a /\ b = f a.
Proof. destruct r; simpl; intros [=]; eauto. Qed.

Lemma res_map_Gap {A B} (f : A -> B) (r : res A) g :
  res_map f r = Gap g -> r = Gap g.
Proof. destruct r; simpl; intros [=]; by subst. Qed.

Lemma ser_stable n h st v oj :
  ser n h st v = Ok oj ->
  forall m H st',
    n <= m ->
    (forall l, l ∈ st' -> l ∈ st) ->
    (forall l c, l ∉ st -> h !! l = Some c -> H !! l = Some c) ->
    ser m H st' v = Ok oj.
Proof.
  revert st v oj. induction n as [|n IH]; intros st v oj Hs m H st' Hm Hst Hh; [done|].
  destruct m as [|m]; [lia|].
  destruct v; simpl in *; try done.
  case_bool_decide as Hin; [done|].
  rewrite bool_decide_eq_false_2 by (intros ?; apply Hin; auto).
  destruct (h !! l) as [[ps|vs]|] eqn:Hl; [| |done].
  - rewrite (Hh _ _ Hin Hl).
    apply res_map_Ok in Hs as (js & Hs & ->).
    erewrite ser_props_impl; [done| |exact Hs].
    intros v oj Hv. eapply IH; [exact Hv|lia| |].
    + intros l' [->|?]%elem_of_cons; [left|right; auto].
    + intros l' c Hn. apply Hh. intros ?; apply Hn; by right.
  - rewrite (Hh _ _ Hin Hl).
    apply res_map_Ok in Hs as (js & Hs & ->).
    erewrite ser_elems_impl; [done| |exact Hs].
    intros v oj Hv. eapply IH; [exact Hv|lia| |].
    + intros l' [->|?]%elem_of_cons; [left|right; auto].
    + intros l' c Hn. apply Hh. intros ?; apply Hn; by right.
Qed.

Lemma extends_refl h : extends h h.
Proof. by intros l c. Qed.

Lemma extends_trans h1 h2 h3 : extends h1 h2 -> extends h2 h3 -> extends h1 h3.
Proof. intros H1 H2 l c ?. auto. Qed.

Lemma extends_app h new : extends h (h ++ new).
Proof. intros l c Hl. by apply lookup_app_l_Some. Qed.

Lemma extends_length h H : extends h H -> length h <= length H.
Proof.
  intros He. destruct (decide (length h <= length H)) as [|Hn]; [done|].
  destruct (lookup_lt_is_Some_2 h (length H)) as [c Hc]; [lia|].
  apply He, lookup_lt_Some in Hc. lia.
Qed.

Lemma extends_insert_fresh h H l c :
  extends h H -> length h <= l -> extends h (<[l := c]> H).
Proof.
  intros He Hl l' c' Hl'.
  assert (l' < length h) by by eapply lookup_lt_Some.
  rewrite list_lookup_insert_ne by lia. auto.
Qed.

Lemma JSON_stringify_extends h H v oj :
  JSON_stringify h v = Ok oj -> extends h H -> JSON_stringify H v = Ok oj.
Proof.
  unfold JSON_stringify. intros Hs He.
  eapply ser_stable; [exact Hs| | |].
  - apply extends_length in He. lia.
  - done.
  - intros l c _. apply He.
Qed.

(** ** The only exception of [JSON.stringify] is the [TypeError] of a
    cyclic structure *)

Lemma ser_props_throw (f : val -> res (option json)) ps e :
  (forall v e, f v = Throw e -> e = TypeError) ->
  ser_props f ps = Throw e -> e = TypeError.
Proof.
  intros Hf. induction ps as [|[k v] ps IH]; simpl; [done|].
  destruct (f v) as [oj|e1|g] eqn:E; [|intros [= <-]; eauto|done].
  destruct (ser_props f ps) as [js|e1|g]; [done| |done].
  intros [= <-]. by apply IH.
Qed.

Lemma ser_elems_throw (f : val -> res (option json)) vs e :
  (forall v e, f v = Throw e -> e = TypeError) ->
  ser_elems f vs = Throw e -> e = TypeError.
Proof.
  intros Hf. induction vs as [|v vs IH]; simpl; [done|].
  destruct (f v) as [oj|e1|g] eqn:E; [|intros [= <-]; eauto|done].
  destruct (ser_elems f vs) as [js|e1|g]; [done| |done].
  intros [= <-]. by apply IH.
Qed.

Lemma ser_throw n h st v e : ser n h st v = Throw e -> e = TypeError.
Proof.
  revert st v e. induction n as [|n IH]; intros st v e; [done|].
  destruct v; simpl; try done.
  case_bool_decide; [congruence|].
  destruct (h !! l) as [[ps|vs]|]; [| |done].
  - destruct (ser_props _ ps) as [js|e1|g] eqn:E; simpl; [done| |done].
    intros [= <-]. eapply ser_props_throw; [|exact E]. intros v' e'. apply IH.
  - destruct (ser_elems _ vs) as [js|e1|g] eqn:E; simpl; [done| |done].
    intros [= <-]. eapply ser_elems_throw; [|exact E]. intros v' e'. apply IH.
Qed.

Lemma JSON_stringify_throw h v e : JSON_stringify h v = Throw e -> e = TypeError.
Proof. apply ser_throw. Qed.

Lemma js_get_throw h v k e : js_get h v k = Throw e -> e = TypeError.
Proof.
  unfold js_get. repeat case_match; congruence.
Qed.

Lemma js_set_throw h t k v e : js_set h t k v = Throw e -> e = TypeError.
Proof.
  unfold js_set. repeat case_match; congruence.
Qed.

Lemma own_enumerable_throw h v e : own_enumerable h v = Throw e -> False.
Proof.
  unfold own_enumerable. repeat case_match; congruence.
Qed.

Lemma Object_assign_throw h t s e : Object_assign h t s = Throw e -> e = TypeError.
Proof.
  unfold Object_assign. repeat case_match; try congruence.
  all: intros _; exfalso; eauto using own_enumerable_throw.
Qed.

(** ** The fuel of [JSON.stringify] is never used up

    The objects on the stack are distinct cells of the heap, so the stack
    is no longer than the heap. *)

Lemma ser_props_fuel (f : val -> res (option json)) ps :
  (forall v, f v <> Gap OutOfFuel) -> ser_props f ps <> Gap OutOfFuel.
Proof.
  intros Hf. induction ps as [|[k v] ps IH]; simpl; [done|].
  specialize (Hf v). destruct (f v) as [oj|e|g]; [|done|congruence].
  destruct (ser_props f ps) as [js|e|g]; [done|done|congruence].
Qed.

Lemma ser_elems_fuel (f : val -> res (option json)) vs :
  (forall v, f v <> Gap OutOfFuel) -> ser_elems f vs <> Gap OutOfFuel.
Proof.
  intros Hf. induction vs as [|v vs IH]; simpl; [done|].
  specialize (Hf v). destruct (f v) as [oj|e|g]; [|done|congruence].
  destruct (ser_elems f vs) as [js|e|g]; [done|done|congruence].
Qed.

Lemma stack_bound (st : list nat) (n : nat) :
  NoDup st -> (forall l, l ∈ st -> l < n) -> length st <= n.
Proof.
  intros Hnd Hb. trans (length (seq 0 n)); [|by rewrite length_seq].
  apply submseteq_length, NoDup_submseteq; [done|].
  intros l Hl. apply elem_of_seq. specialize (Hb l Hl). lia.
Qed.

Lemma ser_fuel n h st v :
  NoDup st -> (forall l, l ∈ st -> l < length h) ->
  length h < n + length st ->
  ser n h st v <> Gap OutOfFuel.
Proof.
  revert st v. induction n as [|n IH]; intros st v Hnd Hb Hn.
  - pose proof (stack_bound st (length h) Hnd Hb). simpl in Hn. lia.
  - destruct v; simpl; try done.
    case_bool_decide as Hin; [done|].
    destruct (h !! l) as [[ps|vs]|] eqn:Hl; [| |done].
    + intros Hs%res_map_Gap.
      revert Hs. apply ser_props_fuel. intros v. apply IH.
      * by constructor.
      * intros l' [->|?]%elem_of_cons; [by eapply lookup_lt_Some|auto].
      * simpl. lia.
    + intros Hs%res_map_Gap.
      revert Hs. apply ser_elems_fuel. intros v. apply IH.
      * by constructor.
      * intros l' [->|?]%elem_of_cons; [by eapply lookup_lt_Some|auto].
      * simpl. lia.
Qed.

Theorem JSON_stringify_fuel h v : JSON_stringify h v <> Gap OutOfFuel.
Proof.
  apply ser_fuel; [constructor|by intros l ?%elem_of_nil|simpl; lia].
Qed.

(** ** Parsing builds a fresh copy

    [JSON.parse] only appends cells, and what it returns serializes back
    to the text it was given, in every later heap that kept those cells. *)

Lemma parse_props_spec ps :
  Forall (fun p => parse_ok (snd p)) ps ->
  forall h qs h',
    parse_props JSON_parse ps h = (qs, h') ->
    (exists new, h' = h ++ new) /\
    (ps <> [] -> length h + list_max (map (fun p => jdepth (snd p)) ps) <= length h') /\
    map fst qs = map fst ps /\
    (forall n H st,
        list_max (map (fun p => jdepth (snd p)) ps) < n ->
        extends h' H ->
        (forall l, l ∈ st -> l < length h \/ length h' <= l) ->
        ser_props (ser n H st) qs = Ok ps).
Proof.
  induction 1 as [|[k j] ps Hj _ IH]; intros h qs h' Hp; simpl in *.
  - injection Hp as <- <-. split; [exists []; by rewrite app_nil_r|].
    split; [done|]. split; done.
  - destruct (JSON_parse j h) as [v h1] eqn:Ej.
    destruct (parse_props JSON_parse ps h1) as [qs' h2] eqn:Eps.
    injection Hp as <- <-.
    destruct (Hj _ _ _ Ej) as ([new1 ->] & Hd1 & Hs1).
    destruct (IH _ _ _ Eps) as ([new2 ->] & Hd2 & Hk & Hs2).
    split; [exists (new1 ++ new2); by rewrite app_assoc|].
    split; [|split].
    + intros _. rewrite ?length_app in *.
      destruct ps as [|p ps]; [simpl in *; lia|].
      specialize (Hd2 ltac:(done)). rewrite ?length_app in Hd2. simpl in *. lia.
    + simpl. by rewrite Hk.
    + intros n H st Hn He Hst. simpl.
      rewrite (Hs1 n H st).
      * rewrite (Hs2 n H st); [done|lia|done|].
        intros l Hl. destruct (Hst l Hl); rewrite ?length_app in *; lia.
      * lia.
      * eapply extends_trans; [apply extends_app|exact He].
      * intros l Hl. destruct (Hst l Hl); rewrite ?length_app in *; lia.
Qed.

Lemma parse_elems_spec js :
  Forall parse_ok js ->
  forall h vs h',
    parse_elems JSON_parse js h = (vs, h') ->
    (exists new, h' = h ++ new) /\
    (js <> [] -> length h + list_max (map jdepth js) <= length h') /\
    (forall n H st,
        list_max (map jdepth js) < n ->
        extends h' H ->
        (forall l, l ∈ st -> l < length h \/ length h' <= l) ->
        ser_elems (ser n H st) vs = Ok js).
Proof.
  induction 1 as [|j js Hj _ IH]; intros h vs h' Hp; simpl in *.
  - injection Hp as <- <-. split; [exists []; by rewrite app_nil_r|].
    split; done.
  - destruct (JSON_parse j h) as [v h1] eqn:Ej.
    destruct (parse_elems JSON_parse js h1) as [vs' h2] eqn:Ejs.
    injection Hp as <- <-.
    destruct (Hj _ _ _ Ej) as ([new1 ->] & Hd1 & Hs1).
    destruct (IH _ _ _ Ejs) as ([new2 ->] & Hd2 & Hs2).
    split; [exists (new1 ++ new2); by rewrite app_assoc|].
    split.
    + intros _. rewrite ?length_app in *.
      destruct js as [|p js]; [simpl in *; lia|].
      specialize (Hd2 ltac:(done)). rewrite ?length_app in Hd2. simpl in *. lia.
    + intros n H st Hn He Hst. simpl.
      rewrite (Hs1 n H st).
      * rewrite (Hs2 n H st); [done|lia|done|].
        intros l Hl. destruct (Hst l Hl); rewrite ?length_app in *; lia.
      * lia.
      * eapply extends_trans; [apply extends_app|exact He].
      * intros l Hl. destruct (Hst l Hl); rewrite ?length_app in *; lia.
Qed.

Lemma JSON_parse_spec (j : json) : parse_ok j.
Proof.
  induction j as [| | | |js IH|ps IH] using json_tree_ind;
    intros h v h' Hp; simpl in Hp.
  1-4: injection Hp as <- <-; (split; [exists []; by rewrite app_nil_r|]);
       (split; [simpl; lia|]); intros [|fuel] H st Hn _ _; [simpl in Hn; lia|done].
  - destruct (parse_elems JSON_parse js h) as [vs h1] eqn:E.
    injection Hp as <- <-.
    destruct (parse_elems_spec js IH _ _ _ E) as ([new ->] & Hd & Hs).
    split; [exists (new ++ [CArr vs]); by rewrite app_assoc|].
    split.
    { simpl. rewrite ?length_app in *. simpl.
      destruct js as [|j0 js]; [simpl; lia|]. specialize (Hd ltac:(done)).
      rewrite ?length_app in Hd. simpl in *. lia. }
    intros [|fuel] H st Hn He Hst; [lia|]. simpl in Hn |- *.
    rewrite bool_decide_eq_false_2.
    2:{ intros Hin. destruct (Hst _ Hin); rewrite ?length_app in *; simpl in *; lia. }
    assert (H !! length (h ++ new) = Some (CArr vs)) as ->.
    { apply He. rewrite lookup_app_r by lia. by rewrite Nat.sub_diag. }
    rewrite (Hs fuel H); [done|lia| |].
    + eapply extends_trans; [apply extends_app|exact He].
    + intros l [->|Hl]%elem_of_cons; [lia|].
      destruct (Hst l Hl); rewrite ?length_app in *; simpl in *; lia.
  - destruct (parse_props JSON_parse ps h) as [qs h1] eqn:E.
    injection Hp as <- <-.
    destruct (parse_props_spec ps IH _ _ _ E) as ([new ->] & Hd & _ & Hs).
    split; [exists (new ++ [CObj qs]); by rewrite app_assoc|].
    split.
    { simpl. rewrite ?length_app in *. simpl.
      destruct ps as [|p0 ps]; [simpl; lia|]. specialize (Hd ltac:(done)).
      rewrite ?length_app in Hd. simpl in *. lia. }
    intros [|fuel] H st Hn He Hst; [lia|]. simpl in Hn |- *.
    rewrite bool_decide_eq_false_2.
    2:{ intros Hin. destruct (Hst _ Hin); rewrite ?length_app in *; simpl in *; lia. }
    assert (H !! length (h ++ new) = Some (CObj qs)) as ->.
    { apply He. rewrite lookup_app_r by lia. by rewrite Nat.sub_diag. }
    rewrite (Hs fuel H); [done|lia| |].
    + eapply extends_trans; [apply extends_app|exact He].
    + intros l [->|Hl]%elem_of_cons; [lia|].
      destruct (Hst l Hl); rewrite ?length_app in *; simpl in *; lia.
Qed.

Lemma JSON_parse_extends j h v h' :
  JSON_parse j h = (v, h') -> extends h h'.
Proof.
  intros Hp. destruct (JSON_parse_spec j _ _ _ Hp) as ([new ->] & _).
  apply extends_app.
Qed.

Lemma JSON_parse_stringify j h v h' H :
  JSON_parse j h = (v, h') -> extends h' H ->
  JSON_stringify H v = Ok (Some j).
Proof.
  intros Hp He. destruct (JSON_parse_spec j _ _ _ Hp) as (_ & Hd & Hs).
  apply Hs; [|done|intros l Hl; by apply elem_of_nil in Hl].
  apply extends_length in He. lia.
Qed.

Lemma parse_props_aligned ps : forall h qs h',
  parse_props JSON_parse ps h = (qs, h') -> aligned h' qs ps.
Proof.
  induction ps as [|[k j] ps IH]; intros h qs h' Hp; simpl in Hp.
  - injection Hp as <- <-. constructor.
  - destruct (JSON_parse j h) as [v h1] eqn:Ej.
    destruct (parse_props JSON_parse ps h1) as [qs' h2] eqn:Eps.
    injection Hp as <- <-. constructor; [|by eapply IH].
    split; [done|]. simpl. intros H He.
    eapply JSON_parse_stringify; [exact Ej|].
    eapply extends_trans; [|exact He].
    destruct (parse_props_spec ps) with (h := h1) (qs := qs') (h' := h2)
      as ([new ->] & _); [|done|apply extends_app].
    apply Forall_forall. intros p _. apply JSON_parse_spec.
Qed.

(** The value parsed from the text of an object is a fresh object, whose
    properties are aligned with the text. *)
Lemma JSON_parse_obj ps h v h' :
  JSON_parse (JObj ps) h = (v, h') ->
  exists l qs,
    v = VRef l /\ length h <= l /\ h' !! l = Some (CObj qs) /\ aligned h' qs ps.
Proof.
  simpl. destruct (parse_props JSON_parse ps h) as [qs h1] eqn:E.
  intros [= <- <-]. exists (length h1), qs.
  destruct (parse_props_spec ps) with (h := h) (qs := qs) (h' := h1)
    as ([new ->] & _); [|done|].
  { apply Forall_forall. intros p _. apply JSON_parse_spec. }
  split; [done|]. split; [rewrite length_app; lia|].
  split; [rewrite lookup_app_r by lia; by rewrite Nat.sub_diag|].
  apply parse_props_aligned in E.
  eapply Forall2_impl; [exact E|]. intros q p [Hk Hq]. split; [done|].
  intros H' He. apply Hq. eapply extends_trans; [apply extends_app|exact He].
Qed.

Lemma aligned_get h qs ps k j :
  aligned h qs ps -> json_get ps k = Some j ->
  exists x, obj_get qs k = Some x /\
            forall H, extends h H -> JSON_stringify H x = Ok (Some j).
Proof.
  induction 1 as [|[k1 x1] [k2 j2] qs ps [Hk Hx] _ IH]; simpl; [done|].
  simpl in Hk. subst k2. case_bool_decide; [|done].
  intros [= <-]. eauto.
Qed.

Lemma aligned_get_None h qs ps k :
  aligned h qs ps -> json_get ps k = None -> obj_get qs k = None.
Proof.
  induction 1 as [|[k1 x1] [k2 j2] qs ps [Hk Hx] _ IH]; simpl; [done|].
  simpl in Hk. subst k2. by case_bool_decide.
Qed.

Lemma JSON_parse_arr js h v h' :
  JSON_parse (JArr js) h = (v, h') ->
  exists l vs, v = VRef l /\ h' !! l = Some (CArr vs).
Proof.
  simpl. destruct (parse_elems JSON_parse js h) as [vs h1] eqn:E.
  intros [= <- <-]. exists (length h1), vs. split; [done|].
  rewrite lookup_app_r by lia. by rewrite Nat.sub_diag.
Qed.

(** ** Properties and their texts *)

Lemma ser_props_get (f : val -> res (option json)) ps js k x j :
  ser_props f ps = Ok js -> obj_get ps k = Some x -> f x = Ok (Some j) ->
  json_get js k = Some j.
Proof.
  revert js. induction ps as [|[k0 v0] ps IH]; intros js; simpl; [done|].
  destruct (f v0) as [oj| |] eqn:E0; [|done..].
  destruct (ser_props f ps) as [js0| |]; [|done..].
  intros [= <-]. case_bool_decide as Hk.
  - intros [= ->] Hf. rewrite Hf in E0. injection E0 as <-. simpl.
    by rewrite bool_decide_eq_true_2.
  - intros Hg Hf. specialize (IH _ eq_refl Hg Hf).
    destruct oj; [|done]. simpl. by rewrite bool_decide_eq_false_2.
Qed.

Lemma ser_props_get_None (f : val -> res (option json)) ps js k :
  ser_props f ps = Ok js -> obj_get ps k = None -> json_get js k = None.
Proof.
  revert js. induction ps as [|[k0 v0] ps IH]; intros js; simpl.
  - by intros [= <-].
  - destruct (f v0) as [oj| |] eqn:E0; [|done..].
    destruct (ser_props f ps) as [js0| |]; [|done..].
    intros [= <-]. case_bool_decide as Hk; [done|].
    intros Hg. specialize (IH _ eq_refl Hg).
    destruct oj; [|done]. simpl. by rewrite bool_decide_eq_false_2.
Qed.

Lemma ser_props_obj_set (f : val -> res (option json)) ps js k x j :
  ser_props f ps = Ok js -> f x = Ok (Some j) ->
  exists js',
    ser_props f (obj_set ps k x) = Ok js' /\
    json_get js' k = Some j /\
    forall k', k' <> k -> json_get js' k' = json_get js k'.
Proof.
  intros Hs Hx. revert js Hs.
  induction ps as [|[k0 v0] ps IH]; intros js; simpl.
  - intros [= <-]. rewrite Hx. eexists. split; [done|]. simpl.
    rewrite bool_decide_eq_true_2 by done. split; [done|].
    intros k' Hk. by rewrite bool_decide_eq_false_2.
  - destruct (f v0) as [oj| |] eqn:E0; [|done..].
    destruct (ser_props f ps) as [js0| |] eqn:E1; [|done..].
    intros [= <-]. case_bool_decide as Hk.
    + subst k0. simpl. rewrite Hx, E1. eexists. split; [done|]. simpl.
      rewrite bool_decide_eq_true_2 by done. split; [done|].
      intros k' Hk'. rewrite bool_decide_eq_false_2 by done.
      destruct oj; [|done]. simpl. by rewrite bool_decide_eq_false_2.
    + destruct (IH _ eq_refl) as (js' & Hs' & Hg & Ho).
      simpl. rewrite E0, Hs'. eexists. split; [done|].
      destruct oj as [j0|]; simpl; [|done].
      rewrite bool_decide_eq_false_2 by done. split; [done|].
      intros k' Hk'. case_bool_decide; [done|]. by apply Ho.
Qed.

Lemma obj_get_set ps k v k' :
  obj_get (obj_set ps k v) k' = if bool_decide (k = k') then Some v else obj_get ps k'.
Proof.
  induction ps as [|[k0 v0] ps IH]; simpl.
  - done.
  - destruct (bool_decide (k0 = k)) eqn:E0; simpl.
    + apply bool_decide_eq_true in E0 as ->. by destruct (bool_decide (k = k')).
    + apply bool_decide_eq_false in E0.
      destruct (bool_decide (k0 = k')) eqn:E1; [|done].
      apply bool_decide_eq_true in E1 as ->.
      by rewrite bool_decide_eq_false_2 by done.
Qed.

Lemma obj_get_absent ps k : k ∉ map fst ps -> obj_get ps k = None.
Proof.
  induction ps as [|[k0 v0] ps IH]; simpl; [done|].
  intros Hn. rewrite bool_decide_eq_false_2.
  - apply IH. intros ?. apply Hn. by right.
  - intros ->. apply Hn. by left.
Qed.

(** Copying the properties of [source] onto [target]: the keys of
    [source] win, the other keys of [target] stay. *)
Lemma obj_get_assign source : forall target k,
  NoDup (map fst source) ->
  obj_get (obj_assign target source) k
  = match obj_get source k with
    | Some x => Some x
    | None => obj_get target k
    end.
Proof.
  unfold obj_assign.
  induction source as [|[k0 v0] source IH]; intros target k Hnd; simpl; [done|].
  apply NoDup_cons in Hnd as [Hk0 Hnd]. rewrite IH by done.
  rewrite obj_get_set. simpl.
  case_bool_decide as Hk; [|done].
  subst k0. by rewrite obj_get_absent.
Qed.

Lemma ser_props_value (f : val -> res (option json)) ps js k x :
  ser_props f ps = Ok js -> obj_get ps k = Some x -> exists oj, f x = Ok oj.
Proof.
  revert js. induction ps as [|[k0 v0] ps IH]; intros js; simpl; [done|].
  destruct (f v0) as [oj| |] eqn:E0; [|done..].
  destruct (ser_props f ps) as [js0| |]; [|done..].
  intros _. case_bool_decide; [intros [= <-]; eauto|]. by eapply IH.
Qed.

(** A reference that serializes and is not an array serializes to an
    object. *)
Lemma ser_ref_obj n h st l oj :
  ser n h st (VRef l) = Ok oj ->
  (forall vs, h !! l <> Some (CArr vs)) ->
  exists js, oj = Some (JObj js).
Proof.
  destruct n as [|n]; [done|]. simpl. case_bool_decide; [done|].
  destruct (h !! l) as [[ps|vs]|]; [|by intros _ Hn; destruct (Hn vs)|done].
  intros (js & _ & ->)%res_map_Ok _. eauto.
Qed.

(** The text of a plain mapping is an object, given by the texts of its
    properties while the mapping is on the stack. *)
Lemma JSON_stringify_obj h l ps t :
  h !! l = Some (CObj ps) ->
  JSON_stringify h (VRef l) = Ok t <->
  exists js, t = Some (JObj js) /\ ser_props (ser (length h) h [l]) ps = Ok js.
Proof.
  intros Hl. unfold JSON_stringify. simpl.
  rewrite Hl.
  split.
  - intros (js & Hs & ->)%res_map_Ok. eauto.
  - intros (js & -> & ->). done.
Qed.

End JSFacts.

(** * Facts about computations *)

Module RuntimeFacts.
Import JS Helpers Runtime Obs.
Local Open Scope js_scope.

Lemma bind_Ok {A B} (c : M A) (k : A -> M B) w a w' :
  c w = (Ok a, w') -> bind c k w = k a w'.
Proof. unfold bind. by intros ->. Qed.

Lemma bind_Throw {A B} (c : M A) (k : A -> M B) w e w' :
  c w = (Throw e, w') -> bind c k w = (Throw e, w').
Proof. unfold bind. by intros ->. Qed.

Lemma bind_Gap {A B} (c : M A) (k : A -> M B) w g w' :
  c w = (Gap g, w') -> bind c k w = (Gap g, w').
Proof. unfold bind. by intros ->. Qed.

Lemma set_calls_id w : set_calls (calls w) w = w.
Proof. by destruct w. Qed.

Lemma set_heap_id w : set_heap (heap w) w = w.
Proof. by destruct w. Qed.

(** ** What a computation can throw *)

Section ThrowsOnly.

Context {P : exn -> Prop}.

Lemma throws_only_ret {A} (a : A) : throws_only P (ret a).
Proof. by intros w e w'. Qed.

Lemma throws_only_throw {A} e : P e -> throws_only P (@throw A e).
Proof. intros He w e' w' [= <- _]. done. Qed.

Lemma throws_only_bind {A B} (c : M A) (k : A -> M B) :
  throws_only P c -> (forall a, throws_only P (k a)) -> throws_only P (bind c k).
Proof.
  intros Hc Hk w e w'. unfold bind.
  destruct (c w) as [[a|e1|g] w1] eqn:E.
  - apply Hk.
  - intros [= <- _]. by eapply Hc.
  - done.
Qed.

Lemma throws_only_try_catch {A} (c : M A) handler :
  (forall e, throws_only P (handler e)) -> throws_only P (try_catch c handler).
Proof.
  intros Hh w e w'. unfold try_catch.
  destruct (c w) as [[a|e1|g] w1]; [done| |done]. apply Hh.
Qed.

Lemma throws_only_detach {A} (c : M A) : throws_only P (detach c).
Proof.
  intros w e w'. unfold detach. by destruct (c w) as [[a|e1|g] w1].
Qed.

Lemma throws_only_get : throws_only P get.
Proof. by intros w e w'. Qed.

Lemma throws_only_modify f : throws_only P (modify f).
Proof. by intros w e w'. Qed.

Lemma throws_only_alloc c : throws_only P (alloc c).
Proof. by intros w e w'. Qed.

Lemma throws_only_get_store this : throws_only P (get_store this).
Proof. intros w e w'. unfold get_store. by destruct (stores w !! this). Qed.

Lemma throws_only_set_internalState this v :
  throws_only P (set_internalState this v).
Proof. intros w e w'. unfold set_internalState. by destruct (stores w !! this). Qed.

Lemma throws_only_set_pubSub this p : throws_only P (set_pubSub this p).
Proof. intros w e w'. unfold set_pubSub. by destruct (stores w !! this). Qed.

Lemma throws_only_console_log msg : throws_only P (console_log msg).
Proof. apply throws_only_modify. Qed.

Lemma throws_only_on_heap {A} (f : list cell -> res (A * list cell)) :
  (forall h e, f h = Throw e -> P e) -> throws_only P (on_heap f).
Proof.
  intros Hf w e w'. unfold on_heap.
  destruct (f (heap w)) as [[a h']|e1|g] eqn:E; [done| |done].
  intros [= <- _]. by eapply Hf.
Qed.

Lemma throws_only_read_heap {A} (f : list cell -> res A) :
  (forall h e, f h = Throw e -> P e) -> throws_only P (read_heap f).
Proof.
  intros Hf w e w'. unfold read_heap.
  destruct (f (heap w)) as [a|e1|g] eqn:E; [done| |done].
  intros [= <- _]. by eapply Hf.
Qed.

End ThrowsOnly.

Create HintDb throws discriminated.
#[export] Hint Resolve throws_only_ret throws_only_get throws_only_modify
  throws_only_alloc throws_only_get_store throws_only_set_internalState
  throws_only_set_pubSub throws_only_console_log throws_only_detach
  throws_only_throw : throws.
#[export] Hint Extern 1 (not_Error _) => exact I : throws.

(** One step through a computation: a known leaf, or the head
    combinator. *)
Ltac throws_step :=
  first
    [ solve [eauto 3 with throws nocore]
    | apply throws_only_bind; [|intros ?]
    | apply throws_only_try_catch; intros ? ].

(** ** What a computation leaves alone *)

Section Frame.

Context {R : world -> world -> Prop} `{!PreOrder R}.

Lemma frame_ret {A} (a : A) : frame R (ret a).
Proof. intros w. simpl. reflexivity. Qed.

Lemma frame_throw {A} e : frame R (@throw A e).
Proof. intros w. simpl. reflexivity. Qed.

Lemma frame_get : frame R get.
Proof. intros w. simpl. reflexivity. Qed.

Lemma frame_bind {A B} (c : M A) (k : A -> M B) :
  frame R c -> (forall a, frame R (k a)) -> frame R (bind c k).
Proof.
  intros Hc Hk w. unfold bind. specialize (Hc w).
  destruct (c w) as [[a|e|g] w1]; simpl in *; [|done|done].
  etrans; [exact Hc|apply Hk].
Qed.

Lemma frame_try_catch {A} (c : M A) handler :
  frame R c -> (forall e, frame R (handler e)) -> frame R (try_catch c handler).
Proof.
  intros Hc Hh w. unfold try_catch. specialize (Hc w).
  destruct (c w) as [[a|e|g] w1]; simpl in *; [done| |done].
  etrans; [exact Hc|apply Hh].
Qed.

Lemma frame_detach {A} (c : M A) : frame R c -> frame R (detach c).
Proof.
  intros Hc w. unfold detach. specialize (Hc w).
  by destruct (c w) as [[a|e|g] w1].
Qed.

Lemma frame_modify f : (forall w, R w (f w)) -> frame R (modify f).
Proof. intros Hf w. apply Hf. Qed.

Lemma frame_get_store this : frame R (get_store this).
Proof.
  intros w. unfold get_store. destruct (stores w !! this); simpl; reflexivity.
Qed.

Lemma frame_read_heap {A} (f : list cell -> res A) : frame R (read_heap f).
Proof.
  intros w. unfold read_heap. destruct (f (heap w)); simpl; reflexivity.
Qed.

Lemma frame_on_heap {A} (f : list cell -> res (A * list cell)) :
  (forall w a h', f (heap w) = Ok (a, h') -> R w (set_heap h' w)) ->
  frame R (on_heap f).
Proof.
  intros Hf w. unfold on_heap.
  destruct (f (heap w)) as [[a h']| |] eqn:E; simpl; [by eapply Hf| |]; reflexivity.
Qed.

End Frame.

Create HintDb frames discriminated.
#[export] Hint Resolve frame_ret frame_throw frame_get frame_get_store
  frame_read_heap : frames.

Ltac frame_step :=
  first
    [ solve [eauto 3 with frames nocore]
    | apply frame_bind; [|intros ?]
    | apply frame_try_catch; [|intros ?]
    | apply frame_detach ].

#[global] Instance same_instances_preorder : PreOrder same_instances.
Proof.
  split; [by intros w|].
  intros w1 w2 w3 [H1 H2] [H3 H4]. split; congruence.
Qed.

#[global] Instance only_allocates_preorder : PreOrder only_allocates.
Proof.
  split; [intros w; split; [apply JSFacts.extends_refl|done]|].
  intros w1 w2 w3 [H1 H2] [H3 H4].
  split; [by eapply JSFacts.extends_trans|congruence].
Qed.

#[global] Instance same_timers_preorder : PreOrder same_timers.
Proof.
  split; [by intros w|]. intros w1 w2 w3 H1 H2. unfold same_timers in *. congruence.
Qed.

#[global] Instance same_calls_preorder : PreOrder same_calls.
Proof.
  split; [by intros w|]. intros w1 w2 w3 H1 H2. unfold same_calls in *. congruence.
Qed.

#[export] Hint Resolve same_instances_preorder only_allocates_preorder
  same_calls_preorder same_timers_preorder : frames.

End RuntimeFacts.

(** * The notifier *)

Module PubSubFacts.
Import JS Helpers Runtime Obs JSFacts RuntimeFacts.
Local Open Scope js_scope.

Lemma isEqual_Ok h a b x y :
  JSON_stringify h a = Ok x -> JSON_stringify h b = Ok y ->
  isEqual h a b = Ok (text_eqb x y).
Proof. unfold isEqual. by intros -> ->. Qed.

Lemma set_heap_set_calls c w : set_heap (heap w) (set_calls c w) = set_calls c w.
Proof. by destruct w. Qed.

Lemma set_heap_set_heap h h' w : set_heap h' (set_heap h w) = set_heap h' w.
Proof. done. Qed.

Section WithHost.

Variable host : Host.

(** ** Calls of host functions *)

Lemma invoke_eq cb arg w :
  PubSub.invoke host cb arg w
  = ((callback_body host cb (heap w) arg).1,
     set_heap (callback_body host cb (heap w) arg).2
       (set_calls (calls w ++ [(cb, arg)]) w)).
Proof. done. Qed.

Lemma invoke_Ok cb arg w :
  callback_body host cb (heap w) arg = (Ok tt, heap w) ->
  PubSub.invoke host cb arg w = (Ok tt, set_calls (calls w ++ [(cb, arg)]) w).
Proof. intros Hf. rewrite invoke_eq, Hf. simpl. by rewrite set_heap_set_calls. Qed.

(** The record of calls after one call of a callback, however it ends. *)
Lemma invoke_calls cb arg w :
  calls (snd (PubSub.invoke host cb arg w)) = calls w ++ [(cb, arg)].
Proof. by rewrite invoke_eq. Qed.

(** ** One subscription *)

(** The function given to [forEach], step by step. *)
Lemma notify_eq current next item w :
  PubSub.notify host current next item w
  = let c := config_body host (config item) (heap w) current in
    match c.1 with
    | Ok cv =>
        let n := config_body host (config item) c.2 next in
        match n.1 with
        | Ok nv =>
            match isEqual n.2 cv nv with
            | Ok true => (Ok tt, set_heap n.2 w)
            | Ok false => PubSub.invoke host (callback item) nv (set_heap n.2 w)
            | Throw e => (Throw e, set_heap n.2 w)
            | Gap g => (Gap g, set_heap n.2 w)
            end
        | Throw e => (Throw e, set_heap n.2 w)
        | Gap g => (Gap g, set_heap n.2 w)
        end
    | Throw e => (Throw e, set_heap c.2 w)
    | Gap g => (Gap g, set_heap c.2 w)
    end.
Proof.
  unfold PubSub.notify, PubSub.call_config, call_host, bind, read_heap.
  cbn zeta. cbn [fst snd heap set_heap].
  destruct (config_body host (config item) (heap w) current) as [[cv| |] h1];
    cbn [fst snd]; [|done..].
  rewrite set_heap_set_heap. cbn [heap set_heap].
  destruct (config_body host (config item) h1 next) as [[nv| |] h2];
    cbn [fst snd]; [|done..].
  by destruct (isEqual h2 cv nv) as [[|]| |].
Qed.

(** Where the two selector calls and the comparison complete, the
    callback is called exactly when the comparison says "different". *)
Lemma notify_compared current next item w cv h1 nv h2 equal :
  config_body host (config item) (heap w) current = (Ok cv, h1) ->
  config_body host (config item) h1 next = (Ok nv, h2) ->
  isEqual h2 cv nv = Ok equal ->
  PubSub.notify host current next item w
  = if equal then (Ok tt, set_heap h2 w)
    else PubSub.invoke host (callback item) nv (set_heap h2 w).
Proof.
  intros Hc Hn He. rewrite notify_eq. cbn zeta. rewrite Hc. cbn [fst snd].
  rewrite Hn. cbn [fst snd]. by rewrite He.
Qed.

(** The callbacks one subscription calls: its own, at most once. *)
Lemma notify_calls current next item w :
  calls (snd (PubSub.notify host current next item w)) = calls w \/
  exists arg,
    calls (snd (PubSub.notify host current next item w))
    = calls w ++ [(callback item, arg)].
Proof.
  rewrite notify_eq. cbn zeta.
  destruct (config_body host (config item) (heap w) current) as [[cv| |] h1];
    cbn [fst snd]; [|by left..].
  destruct (config_body host (config item) h1 next) as [[nv| |] h2];
    cbn [fst snd]; [|by left..].
  destruct (isEqual h2 cv nv) as [[|]| |]; [by left| |by left..].
  right. exists nv. by rewrite invoke_calls.
Qed.

(** ** The walk through the list *)

Lemma forEach_app before after (body : CallbackListItem -> M unit) w :
  PubSub.forEach (before ++ after) body w
  = (PubSub.forEach before body ;; PubSub.forEach after body) w.
Proof.
  revert w. induction before as [|item before IH]; intros w; simpl; [done|].
  unfold bind. destruct (body item w) as [[[]| |] w1]; [|done..].
  rewrite IH. done.
Qed.

(** The subscriptions are processed one after the other. *)
Lemma forEach_then before after (body : CallbackListItem -> M unit) w w1 :
  PubSub.forEach before body w = (Ok tt, w1) ->
  PubSub.forEach (before ++ after) body w = PubSub.forEach after body w1.
Proof. intros Hb. rewrite forEach_app. by rewrite (bind_Ok _ _ _ _ _ Hb). Qed.

(** The first exception ends the walk. *)
Lemma forEach_stops before item after (body : CallbackListItem -> M unit)
  w w1 e w2 :
  PubSub.forEach before body w = (Ok tt, w1) ->
  body item w1 = (Throw e, w2) ->
  PubSub.forEach (before ++ item :: after) body w = (Throw e, w2).
Proof.
  intros Hb Hi. rewrite (forEach_then _ _ _ _ _ Hb). simpl.
  by rewrite (bind_Throw _ _ _ _ _ Hi).
Qed.

Section Quiet.

Variable select : fn -> list cell -> val -> val.

Lemma forEach_publish items current next : forall w,
  Forall (quiet_on select host (heap w) current next) items ->
  PubSub.forEach items (PubSub.notify host current next) w
  = (Ok tt, set_calls (calls w ++ notified select (heap w) current next items) w).
Proof.
  induction items as [|item items IH]; intros w Hq; simpl.
  - unfold ret, notified. simpl. by rewrite app_nil_r, set_calls_id.
  - apply Forall_cons in Hq as [(Hc & Hn & [x Hx] & [y Hy] & Hcb) Hq].
    assert (Hch : changed select (heap w) current next item = negb (text_eqb x y)).
    { unfold changed. by rewrite (isEqual_Ok _ _ _ _ _ Hx Hy). }
    unfold bind at 1.
    rewrite (notify_compared _ _ _ _ _ _ _ _ _ Hc Hn (isEqual_Ok _ _ _ _ _ Hx Hy)).
    rewrite set_heap_id. unfold notified.
    destruct (text_eqb x y); simpl in Hch.
    + rewrite filter_cons_False by (by rewrite Hch). by apply IH.
    + rewrite filter_cons_True by done.
      rewrite (invoke_Ok _ _ _ (Hcb Hch)).
      rewrite IH by done. simpl. unfold notified.
      by rewrite <- app_assoc.
Qed.

End Quiet.

(** C6. [publish(current, next)] throws an [Error] on an argument that is
    not a plain mapping and calls nobody. Otherwise it walks the
    subscriptions in subscription order. For one subscription it calls
    the selector on [current], then on [next], compares the two texts, and
    calls [callback(selector(next))] exactly when they differ. The first
    exception, of a selector, of the comparison or of a callback, leaves
    [publish] at once: the subscriptions after it are not processed,
    changed or not. Where nothing throws and the host functions write
    nothing, the callbacks called are exactly those of the subscriptions
    whose two selected values have different texts, in subscription
    order. *)
Theorem C6_publish_calls_changed_in_order_until_a_throw
  (this : PubSub) (current next : val) (w : world) :
  (isObject (heap w) current = false ->
   PubSub.publish host this current next w
   = (Throw (Error "currentState should be and object"), w)) /\
  (isObject (heap w) current = true -> isObject (heap w) next = false ->
   PubSub.publish host this current next w
   = (Throw (Error "nextState should be and object"), w)) /\
  (isObject (heap w) current = true -> isObject (heap w) next = true ->
   (* one subscription *)
   (forall item w0 cv h1 nv h2 equal,
       config_body host (config item) (heap w0) current = (Ok cv, h1) ->
       config_body host (config item) h1 next = (Ok nv, h2) ->
       isEqual h2 cv nv = Ok equal ->
       (equal = false <-> JSON_stringify h2 cv <> JSON_stringify h2 nv) /\
       calls (snd (PubSub.notify host current next item w0))
       = if equal then calls w0 else calls w0 ++ [(callback item, nv)]) /\
   (* in order *)
   (forall before after w1,
       _callbackList this = before ++ after ->
       PubSub.forEach before (PubSub.notify host current next) w = (Ok tt, w1) ->
       PubSub.publish host this current next w
       = PubSub.forEach after (PubSub.notify host current next) w1) /\
   (* until a throw *)
   (forall before item after w1 e w2,
       _callbackList this = before ++ item :: after ->
       PubSub.forEach before (PubSub.notify host current next) w = (Ok tt, w1) ->
       PubSub.notify host current next item w1 = (Throw e, w2) ->
       PubSub.publish host this current next w = (Throw e, w2)) /\
   (* exactly the changed ones, where nothing throws or writes *)
   (forall select,
       Forall (quiet_on select host (heap w) current next) (_callbackList this) ->
       PubSub.publish host this current next w
       = (Ok tt,
          set_calls
            (calls w ++
             map (fun item => (callback item, select (config item) (heap w) next))
                 (filter (fun item => changed select (heap w) current next item = true)
                         (_callbackList this))) w)
       /\ Forall (fun item =>
                    changed select (heap w) current next item = true <->
                    JSON_stringify (heap w) (select (config item) (heap w) current)
                    <> JSON_stringify (heap w) (select (config item) (heap w) next))
                 (_callbackList this))).
Proof.
  unfold PubSub.publish. split; [|split].
  - intros Hc. unfold bind, get. by rewrite Hc.
  - intros Hc Hn. unfold bind, get. by rewrite Hc, Hn.
  - intros Hc Hn. unfold bind at 1 2 3. unfold get at 1 2 3. rewrite Hc, Hn.
    cbn [negb]. split; [|split; [|split]].
    + intros item w0 cv h1 nv h2 equal Hcv Hnv He. split.
      * revert He. unfold isEqual.
        destruct (JSON_stringify h2 cv) as [x| |] eqn:Ex; [|done..].
        destruct (JSON_stringify h2 nv) as [y| |] eqn:Ey; [|done..].
        intros [= <-]. rewrite text_eqb_neq. split; congruence.
      * rewrite (notify_compared _ _ _ _ _ _ _ _ _ Hcv Hnv He).
        destruct equal; [done|]. by rewrite invoke_calls.
    + intros before after w1 -> Hb. by apply forEach_then.
    + intros before item after w1 e w2 -> Hb Hi. by eapply forEach_stops.
    + intros select Hq. split; [by rewrite (forEach_publish select)|].
      eapply Forall_impl; [exact Hq|].
      intros item (_ & _ & [x Hx] & [y Hy] & _).
      unfold changed, isEqual. rewrite Hx, Hy, negb_true_iff, text_eqb_neq.
      split; congruence.
Qed.

(** Whatever happens during a [publish], the callbacks it calls are
    callbacks of the list. *)
Lemma forEach_calls_from_list items current next : forall w,
  exists new,
    calls (snd (PubSub.forEach items (PubSub.notify host current next) w))
    = calls w ++ new /\
    Forall (fun e => exists item, item ∈ items /\ callback item = fst e) new.
Proof.
  induction items as [|item items IH]; intros w; simpl.
  - exists []. by rewrite app_nil_r.
  - unfold bind.
    pose proof (notify_calls current next item w) as Hn.
    destruct (PubSub.notify host current next item w) as [[[]| |] w1];
      simpl in Hn.
    + destruct (IH w1) as (new & Hc & Hnew).
      assert (Hright : Forall (fun e => exists i, i ∈ item :: items /\ callback i = fst e) new).
      { eapply Forall_impl; [exact Hnew|]. intros e (i & ? & ?).
        exists i. split; [by right|done]. }
      destruct Hn as [Hn|[arg Hn]].
      * exists new. by rewrite Hc, Hn.
      * exists ((callback item, arg) :: new).
        split; [by rewrite Hc, Hn, <- app_assoc|].
        constructor; [|done]. exists item. split; [by left|done].
    + destruct Hn as [Hn|[arg Hn]].
      * exists []. by rewrite app_nil_r.
      * exists [(callback item, arg)]. split; [done|].
        constructor; [|done]. exists item. split; [by left|done].
    + destruct Hn as [Hn|[arg Hn]].
      * exists []. by rewrite app_nil_r.
      * exists [(callback item, arg)]. split; [done|].
        constructor; [|done]. exists item. split; [by left|done].
Qed.

Lemma publish_calls_from_list (this : PubSub) current next w :
  exists new,
    calls (snd (PubSub.publish host this current next w)) = calls w ++ new /\
    Forall (fun e => exists item, item ∈ _callbackList this /\ callback item = fst e) new.
Proof.
  unfold PubSub.publish. unfold bind at 1. unfold get at 1.
  destruct (negb (isObject (heap w) current));
    [exists []; by rewrite app_nil_r|].
  destruct (negb (isObject (heap w) next));
    [exists []; by rewrite app_nil_r|].
  apply forEach_calls_from_list.
Qed.

End WithHost.

(** C7. The function [subscribe(callback, selector)] returns removes, from
    the list it finds when it is called, every entry whose callback is the
    registered one and no other entry, and keeps the order of the rest;
    the same callback registered twice with two selectors is removed twice
    by one call; no [publish] on the list so cleaned calls the callback. *)
Theorem C7_unsubscribe_removes_every_entry_of_the_callback
  (this : PubSub) (cb cf : fn) :
  exists this1 unsubscribe,
    PubSub.subscribe this (VFun cb) (VFun cf) = Ok (this1, unsubscribe) /\
    _callbackList this1
    = _callbackList this ++ [ {| callback := cb; config := cf |} ] /\
    (forall later : PubSub,
        _callbackList (unsubscribe later)
        = filter (fun item => callback item <> cb) (_callbackList later) /\
        (forall item,
            item ∈ _callbackList (unsubscribe later) <->
            item ∈ _callbackList later /\ callback item <> cb) /\
        sublist (_callbackList (unsubscribe later)) (_callbackList later) /\
        (forall host current next w,
            exists new,
              calls (snd (PubSub.publish host (unsubscribe later) current next w))
              = calls w ++ new /\
              forall arg, (cb, arg) ∉ new)) /\
    (forall cf2 : fn,
        exists this2 unsubscribe2,
          PubSub.subscribe this1 (VFun cb) (VFun cf2) = Ok (this2, unsubscribe2) /\
          _callbackList this2
          = _callbackList this ++ [ {| callback := cb; config := cf |};
                                    {| callback := cb; config := cf2 |} ] /\
          _callbackList (unsubscribe this2)
          = filter (fun item => callback item <> cb) (_callbackList this) /\
          _callbackList (unsubscribe2 this2)
          = filter (fun item => callback item <> cb) (_callbackList this)).
Proof.
  eexists _, _. split; [reflexivity|]. split; [reflexivity|]. split.
  - intros later. split; [reflexivity|]. split; [|split].
    + intros item. simpl. rewrite list_elem_of_filter. tauto.
    + apply sublist_filter.
    + intros host current next w.
      destruct (publish_calls_from_list host (PubSub.unsubscribe cb later)
                  current next w) as (new & Hc & Hnew).
      exists new. split; [done|]. intros arg Hin.
      rewrite Forall_forall in Hnew. destruct (Hnew _ Hin) as (item & Hi & Hcb).
      simpl in Hi, Hcb. apply list_elem_of_filter in Hi as [Hne _]. done.
  - intros cf2. eexists _, _. split; [reflexivity|]. simpl.
    split; [by rewrite <- app_assoc|].
    rewrite !filter_app. simpl.
    rewrite !filter_cons_False by (simpl; intros Hn; by apply Hn).
    rewrite filter_nil, !app_nil_r. done.
Qed.

End PubSubFacts.

(** * The store *)

Module StoreFacts.
Import JS Helpers Runtime Obs JSFacts RuntimeFacts.
Local Open Scope js_scope.

Lemma cloneObject_throw h v e :
  cloneObject h v = Throw e -> e = TypeError \/ e = SyntaxError.
Proof.
  unfold cloneObject. destruct (JSON_stringify h v) as [[j|]|e1|g] eqn:E; try done.
  - intros [= <-]. by right.
  - intros [= <-]. left. by eapply JSON_stringify_throw.
Qed.

Section Throws.

Context {P : exn -> Prop}.
Hypothesis PType : P TypeError.
Hypothesis PSyntax : P SyntaxError.

Lemma throws_only_clone v : throws_only P (Store.clone v).
Proof.
  apply throws_only_on_heap. intros h e [-> | ->]%cloneObject_throw; done.
Qed.

#[local] Hint Resolve throws_only_clone : throws.

Lemma throws_only_state this : throws_only P (Store.state this).
Proof. unfold Store.state. repeat throws_step. Qed.

#[local] Hint Resolve throws_only_state : throws.

Lemma throws_only_load this : throws_only P (Store.loadStateFromLocalStorage this).
Proof.
  unfold Store.loadStateFromLocalStorage. throws_step; [throws_step|].
  destruct (window a); repeat throws_step.
Qed.

#[local] Hint Resolve throws_only_load : throws.

Hypothesis PSave : forall e, P (Error (StringOf e)).

Lemma throws_only_save this : throws_only P (Store.saveStateToLocalStorage this).
Proof.
  unfold Store.saveStateToLocalStorage. throws_step; [throws_step|].
  destruct (window a); repeat throws_step.
Qed.

#[local] Hint Resolve throws_only_save : throws.

(** What [setState] does once its argument is accepted. *)
Lemma throws_only_setState_accepted this props w e w' :
  negb (Store.truthy (SetStateProps.slice props))
  && negb (isObject (heap w) (SetStateProps.value props)) = false ->
  Store.setState this props w = (Throw e, w') -> P e.
Proof.
  unfold Store.setState. unfold bind at 1. unfold get at 1. intros ->.
  match goal with
  | |- ?c _ = _ -> _ =>
      cut (throws_only P c); [intros Hth ?; by eapply Hth|]
  end.
  throws_step; [|unfold Store.setTimeout; repeat throws_step].
  destruct (Store.truthy _); simpl.
  - repeat throws_step.
    + apply throws_only_read_heap. by intros h x ->%js_get_throw.
    + apply throws_only_on_heap. by intros h x ->%Object_assign_throw.
    + apply throws_only_on_heap. intros h x.
      destruct (js_set _ _ _ _) eqn:E; simpl; try done.
      intros [= <-]. by apply js_set_throw in E as ->.
  - destruct (bool_decide _); repeat throws_step.
    all: apply throws_only_read_heap; by intros h x ?%own_enumerable_throw.
Qed.

End Throws.

#[export] Hint Resolve throws_only_clone throws_only_state throws_only_load
  throws_only_save : throws.

(** C10. When [setState] is refused (no slice, and a value that is not a
    plain mapping) nothing has happened: the world after the call is the
    world before it, so the state, the pending notifications, the storage
    and the console are untouched. The refusal is the only way [setState]
    raises this error. *)
Theorem C10_setState_refusal_is_atomic (this : nat) (props : SetStateProps.t) (w : world) :
  (Store.truthy (SetStateProps.slice props) = false ->
   isObject (heap w) (SetStateProps.value props) = false ->
   Store.setState this props w
   = (Throw (Error "non-slice value must be an object"), w)) /\
  (forall w',
      Store.setState this props w
      = (Throw (Error "non-slice value must be an object"), w') ->
      w' = w /\
      Store.truthy (SetStateProps.slice props) = false /\
      isObject (heap w) (SetStateProps.value props) = false).
Proof.
  split.
  - intros Hs Hv. unfold Store.setState. unfold bind at 1. unfold get at 1.
    by rewrite Hs, Hv.
  - intros w' Hw.
    destruct (negb (Store.truthy (SetStateProps.slice props))
              && negb (isObject (heap w) (SetStateProps.value props))) eqn:E.
    + apply andb_true_iff in E as [E1%negb_true_iff E2%negb_true_iff].
      split; [|done]. revert Hw. unfold Store.setState.
      unfold bind at 1. unfold get at 1. rewrite E1, E2. simpl.
      by intros [= <-].
    + exfalso.
      eapply (throws_only_setState_accepted
                (P := fun e => e <> Error "non-slice value must be an object"));
        [done|done| |exact E|exact Hw|done].
      intros []; simpl; done.
Qed.

(** [setState] is a check, then the update, then the rest. *)
Lemma setState_eq this props :
  Store.setState this props
  = (w <- get ;;
     if negb (Store.truthy (SetStateProps.slice props))
        && negb (isObject (heap w) (SetStateProps.value props))
     then throw (Error "non-slice value must be an object")
     else mutation this props ;; after_mutation this).
Proof. reflexivity. Qed.

Lemma bind_inv_Ok {A B} (c : M A) (k : A -> M B) w b w' :
  bind c k w = (Ok b, w') ->
  exists a w1, c w = (Ok a, w1) /\ k a w1 = (Ok b, w').
Proof.
  unfold bind. destruct (c w) as [[a| |] w1]; [|done..]. eauto.
Qed.

Lemma get_store_Ok this w s :
  stores w !! this = Some s -> get_store this w = (Ok s, w).
Proof. unfold get_store. by intros ->. Qed.

Lemma read_heap_Ok {A} (f : list cell -> res A) w a :
  f (heap w) = Ok a -> read_heap f w = (Ok a, w).
Proof. unfold read_heap. by intros ->. Qed.

Lemma on_heap_Ok {A} (f : list cell -> res (A * list cell)) w a h' :
  f (heap w) = Ok (a, h') -> on_heap f w = (Ok a, set_heap h' w).
Proof. unfold on_heap. by intros ->. Qed.

(** ** Frames of the store operations *)

Section Insensitive.

(** Relations between worlds that do not look at the heap, the console,
    the timers or the storage, nor at the fields of an instance. *)
Context {R : world -> world -> Prop} `{!PreOrder R}.
Hypothesis Hheap : forall w h, R w (set_heap h w).
Hypothesis Hconsole : forall w c, R w (set_console c w).
Hypothesis Htimers : forall w t, R w (set_timers t w).
Hypothesis Hwindow : forall w s, R w (set_window s w).
Hypothesis Hstores : forall w i s, R w (set_stores (<[i := s]> (stores w)) w).

Lemma frame_alloc c : frame R (alloc c).
Proof. intros w. apply Hheap. Qed.

Lemma frame_on_heap_any {A} (f : list cell -> res (A * list cell)) :
  frame R (on_heap f).
Proof. apply frame_on_heap. intros w a h' _. apply Hheap. Qed.

Lemma frame_clone v : frame R (Store.clone v).
Proof. apply frame_on_heap_any. Qed.

Lemma frame_console_log msg : frame R (console_log msg).
Proof. apply frame_modify. intros w. apply Hconsole. Qed.

Lemma frame_set_internalState this v : frame R (set_internalState this v).
Proof.
  intros w. unfold set_internalState.
  destruct (stores w !! this); simpl; [apply Hstores|reflexivity].
Qed.

Lemma frame_setTimeout this : frame R (Store.setTimeout this).
Proof. apply frame_modify. intros w. apply Htimers. Qed.

Lemma frame_setItem key t : frame R (Store.localStorage_setItem key t).
Proof.
  intros w. unfold Store.localStorage_setItem.
  destruct (window w) as [ls|]; simpl; [|reflexivity].
  destruct (quota_exceeded ls); simpl; [reflexivity|apply Hwindow].
Qed.

#[local] Hint Resolve frame_alloc frame_on_heap_any frame_clone
  frame_console_log frame_set_internalState frame_setTimeout
  frame_setItem : frames.

Lemma frame_state this : frame R (Store.state this).
Proof. unfold Store.state. repeat frame_step. Qed.

#[local] Hint Resolve frame_state : frames.

Lemma frame_save this : frame R (Store.saveStateToLocalStorage this).
Proof.
  unfold Store.saveStateToLocalStorage. frame_step; [frame_step|].
  destruct (window a); repeat frame_step.
Qed.

Lemma frame_load this : frame R (Store.loadStateFromLocalStorage this).
Proof.
  unfold Store.loadStateFromLocalStorage. frame_step; [frame_step|].
  destruct (window a) as [ls|]; repeat frame_step.
  destruct (Store.text_truthy _); [|frame_step].
  destruct (items ls !! _) as [[j| |]|]; repeat frame_step.
Qed.

#[local] Hint Resolve frame_save frame_load : frames.

Lemma frame_mutation this props : frame R (mutation this props).
Proof.
  unfold mutation.
  destruct (Store.truthy _); simpl; [repeat frame_step|].
  destruct (bool_decide _); repeat frame_step.
Qed.

Lemma frame_after_mutation this : frame R (after_mutation this).
Proof. unfold after_mutation. repeat frame_step. Qed.

Lemma frame_setState this props : frame R (Store.setState this props).
Proof.
  rewrite setState_eq. frame_step; [frame_step|].
  destruct (_ && _); [frame_step|].
  frame_step; [apply frame_mutation|intros; apply frame_after_mutation].
Qed.

End Insensitive.

Lemma same_calls_setState this props : frame same_calls (Store.setState this props).
Proof. by apply frame_setState. Qed.

Lemma same_calls_state this : frame same_calls (Store.state this).
Proof. by apply frame_state. Qed.

Lemma same_calls_save this : frame same_calls (Store.saveStateToLocalStorage this).
Proof. by apply frame_save. Qed.

Lemma same_timers_mutation this props : frame same_timers (mutation this props).
Proof. by apply frame_mutation. Qed.

Lemma same_timers_state this : frame same_timers (Store.state this).
Proof. by apply frame_state. Qed.

Lemma same_timers_save this : frame same_timers (Store.saveStateToLocalStorage this).
Proof. by apply frame_save. Qed.

Lemma same_instances_setState this props :
  frame same_instances (Store.setState this props).
Proof.
  apply frame_setState; try done.
  intros w i s. split; [done|]. simpl. by rewrite length_insert.
Qed.

(** ** Copies *)

Lemma clone_Ok v w j :
  JSON_stringify (heap w) v = Ok (Some j) ->
  Store.clone v w
  = (Ok (fst (JSON_parse j (heap w))), set_heap (snd (JSON_parse j (heap w))) w).
Proof.
  intros Hs. unfold Store.clone, on_heap, cloneObject. rewrite Hs.
  by destruct (JSON_parse j (heap w)).
Qed.

Lemma clone_inv v w r w' :
  Store.clone v w = (r, w') ->
  match r with
  | Ok v' =>
      exists j h', JSON_stringify (heap w) v = Ok (Some j) /\
                   JSON_parse j (heap w) = (v', h') /\
                   w' = set_heap h' w
  | _ => w' = w
  end.
Proof.
  unfold Store.clone, on_heap, cloneObject.
  destruct (JSON_stringify (heap w) v) as [[j|]|e|g]; try by intros [= <- <-].
  destruct (JSON_parse j (heap w)) as [v' h'] eqn:E.
  intros [= <- <-]. by exists j, h'.
Qed.

Lemma state_inv this w r w' :
  Store.state this w = (r, w') ->
  match r with
  | Ok v' =>
      exists s j h', stores w !! this = Some s /\
                     JSON_stringify (heap w) (_internalState s) = Ok (Some j) /\
                     JSON_parse j (heap w) = (v', h') /\
                     w' = set_heap h' w
  | _ => w' = w
  end.
Proof.
  unfold Store.state, bind, get_store.
  destruct (stores w !! this) as [s|] eqn:Es; [|by intros [= <- <-]].
  intros Hc. apply clone_inv in Hc. destruct r; [|done..].
  destruct Hc as (j & h' & ? & ? & ?). by exists s, j, h'.
Qed.

Lemma state_Ok this w s j :
  stores w !! this = Some s ->
  JSON_stringify (heap w) (_internalState s) = Ok (Some j) ->
  Store.state this w
  = (Ok (fst (JSON_parse j (heap w))), set_heap (snd (JSON_parse j (heap w))) w).
Proof.
  intros Hs Hj. unfold Store.state, bind, get_store. rewrite Hs.
  by apply clone_Ok.
Qed.

(** ** Notification after a change *)

(** A selector whose result has a text that depends only on the text of
    its argument is a function of the state it is given. *)
Lemma deterministic_of_text select :
  (forall f h a b t,
      JSON_stringify h a = Ok t -> JSON_stringify h b = Ok t ->
      JSON_stringify h (select f h a) = JSON_stringify h (select f h b)) ->
  deterministic select.
Proof.
  intros Htext f j h a h1 b h2 Ha Hb. eapply Htext.
  - eapply JSON_parse_stringify; [exact Ha|by eapply JSON_parse_extends].
  - eapply JSON_parse_stringify; [exact Hb|apply extends_refl].
Qed.

Section Notification.

Variable select : fn -> list cell -> val -> val.
Variable host : Host.
Hypothesis Hreads : config_body host = PubSub.reads select.

Lemma forEach_same_calls items a b : forall w,
  (forall f, JSON_stringify (heap w) (select f (heap w) a)
             = JSON_stringify (heap w) (select f (heap w) b)) ->
  calls (snd (PubSub.forEach items (PubSub.notify host a b) w)) = calls w.
Proof.
  induction items as [|item items IH]; intros w Heq; simpl; [done|].
  unfold bind. rewrite PubSubFacts.notify_eq. cbn zeta. rewrite Hreads.
  unfold PubSub.reads. cbn [fst snd]. rewrite set_heap_id.
  unfold isEqual. rewrite (Heq (config item)).
  destruct (JSON_stringify _ _) as [x| |]; [|done..].
  rewrite text_eqb_refl. by apply IH.
Qed.

Lemma publish_same_calls (this : PubSub) a b w :
  (forall f, JSON_stringify (heap w) (select f (heap w) a)
             = JSON_stringify (heap w) (select f (heap w) b)) ->
  calls (snd (PubSub.publish host this a b w)) = calls w.
Proof.
  intros Heq. unfold PubSub.publish. unfold bind at 1. unfold get at 1.
  destruct (negb (isObject (heap w) a)); [done|].
  destruct (negb (isObject (heap w) b)); [done|].
  by apply forEach_same_calls.
Qed.

Hypothesis Hdet : deterministic select.

(** In [publish(this.state, this.state)] the two snapshots are copies of
    one state: a selector picks values with the same text in both. *)
Lemma snapshots_same_text this w v1 w1 v2 w2 :
  Store.state this w = (Ok v1, w1) ->
  Store.state this w1 = (Ok v2, w2) ->
  calls w2 = calls w /\
  forall f, JSON_stringify (heap w2) (select f (heap w2) v1)
            = JSON_stringify (heap w2) (select f (heap w2) v2).
Proof.
  intros E1 E2. apply state_inv in E1, E2.
  destruct E1 as (s & j & h1 & Hs & Hj & Hp1 & ->).
  destruct E2 as (s' & j' & h2 & Hs' & Hj' & Hp2 & ->). simpl in *.
  split; [done|].
  assert (s' = s) as -> by congruence.
  assert (j' = j) as ->.
  { eapply JSON_stringify_extends in Hj; [|by eapply JSON_parse_extends]. congruence. }
  intros f. by eapply Hdet.
Qed.

Lemma notify_same_calls this (p : PubSub) :
  frame same_calls
    (currentState <- Store.state this ;;
     nextState <- Store.state this ;;
     PubSub.publish host p currentState nextState).
Proof.
  intros w. unfold same_calls, bind.
  destruct (Store.state this w) as [[v1| |] w1] eqn:E1;
    [|apply state_inv in E1; by subst..].
  destruct (Store.state this w1) as [[v2| |] w2] eqn:E2;
    [|apply state_inv in E2; apply state_inv in E1;
      destruct E1 as (?&?&?&?&?&?&->); by subst..].
  destruct (snapshots_same_text _ _ _ _ _ _ E1 E2) as [Hc Ht].
  by rewrite publish_same_calls.
Qed.

Lemma notify_then_same_calls {A} this (p : PubSub) (k : unit -> M A) :
  (forall u, frame same_calls (k u)) ->
  frame same_calls
    (currentState <- Store.state this ;;
     nextState <- Store.state this ;;
     PubSub.publish host p currentState nextState ;;
     k tt).
Proof.
  intros Hk w. unfold same_calls. unfold bind at 1.
  destruct (Store.state this w) as [[v1| |] w1] eqn:E1;
    [|apply state_inv in E1; by subst..].
  unfold bind at 1.
  destruct (Store.state this w1) as [[v2| |] w2] eqn:E2;
    [|apply state_inv in E2; apply state_inv in E1;
      destruct E1 as (?&?&?&?&?&?&->); by subst..].
  destruct (snapshots_same_text _ _ _ _ _ _ E1 E2) as [Hc Ht].
  pose proof (publish_same_calls p v1 v2 w2 Ht) as Hp.
  unfold bind.
  destruct (PubSub.publish host p v1 v2 w2) as [[[]| |] w3]; simpl in *;
    [|congruence..].
  rewrite (Hk tt w3). congruence.
Qed.


End Notification.

Section OnlyAllocates.

Lemma only_allocates_clone v : frame only_allocates (Store.clone v).
Proof.
  apply frame_on_heap. intros w v' h'. unfold cloneObject.
  destruct (JSON_stringify (heap w) v) as [[j|]| |]; [|done..].
  intros [= Hp]. split; [|done]. simpl. by eapply JSON_parse_extends.
Qed.

#[local] Hint Resolve only_allocates_clone : frames.

Lemma only_allocates_state this : frame only_allocates (Store.state this).
Proof. unfold Store.state. repeat frame_step. Qed.

#[local] Hint Resolve only_allocates_state : frames.

Lemma only_allocates_modify f :
  (forall w, heap (f w) = heap w /\ stores (f w) = stores w) ->
  frame only_allocates (modify f).
Proof.
  intros Hf. apply frame_modify. intros w. destruct (Hf w) as [Hh Hs].
  split; [rewrite Hh; apply extends_refl|done].
Qed.

Lemma only_allocates_save this :
  frame only_allocates (Store.saveStateToLocalStorage this).
Proof.
  unfold Store.saveStateToLocalStorage. frame_step; [frame_step|].
  destruct (window a); repeat frame_step.
  - by apply only_allocates_modify.
  - intros w. unfold Store.localStorage_setItem.
    destruct (window w) as [ls|]; simpl; [|reflexivity].
    destruct (quota_exceeded ls); simpl; [reflexivity|].
    split; [apply extends_refl|done].
  - by apply only_allocates_modify.
Qed.

Lemma only_allocates_after_mutation this :
  frame only_allocates (after_mutation this).
Proof.
  unfold after_mutation. frame_step; [by apply only_allocates_modify|].
  frame_step; [apply only_allocates_save|apply only_allocates_state].
Qed.

End OnlyAllocates.

Lemma isObject_true h v :
  isObject h v = true <-> exists l, v = VRef l /\ Array_isArray h v = false.
Proof.
  unfold isObject. rewrite !andb_true_iff, negb_true_iff, !bool_decide_eq_true,
    bool_decide_eq_false.
  split.
  - intros [[Hn Ht] Ha]. destruct v; simpl in Ht; try done. eauto.
  - intros (l & -> & Ha). done.
Qed.

(** Not a plain mapping: [null], an array, or a primitive (a function
    included). *)
Lemma isObject_false h v :
  isObject h v = false <->
  v = VNull \/ Array_isArray h v = true \/ typeof v <> "object".
Proof.
  split.
  - intros Hf. destruct v; try (right; right; simpl; congruence); [by left|].
    right; left. destruct (Array_isArray h (VRef l)) eqn:E; [done|].
    assert (isObject h (VRef l) = true) by (apply isObject_true; eauto). congruence.
  - intros [-> | [Ha | Ht]]; [done| |].
    + unfold isObject. rewrite Ha. by rewrite !andb_false_r.
    + unfold isObject. rewrite (bool_decide_eq_false_2 _ Ht). by rewrite andb_false_r.
Qed.

Lemma isObject_cell h v :
  isObject h v = true -> serializable h v ->
  exists l ps, v = VRef l /\ h !! l = Some (CObj ps).
Proof.
  intros (l & -> & Ha)%isObject_true [t Ht]. simpl in Ha.
  unfold JSON_stringify in Ht. simpl in Ht.
  destruct (h !! l) as [[ps|vs]|] eqn:E; [eauto|done..].
Qed.

Lemma isObject_of_cell h l ps : h !! l = Some (CObj ps) -> isObject h (VRef l) = true.
Proof. intros Hl. apply isObject_true. exists l. simpl. by rewrite Hl. Qed.

Lemma throws_only_constructor_accepted (p : StoreProps.t) :
  throws_only not_Error
    (existingStore <- Store.storeRegistry_get (default "appState" (StoreProps.storeName p)) ;;
     let _pubSub := PubSub.new in
     _internalState <- Store.clone (StoreProps.initialState p) ;;
     match existingStore with
     | Store.Instance existing =>
         detach (Store.setState existing
                   {| SetStateProps.slice := None;
                      SetStateProps.value := StoreProps.initialState p;
                      SetStateProps.replace := StoreProps.replace p |}) ;;
         ret existing
     | Store.Inherited => throw TypeError
     | Store.Absent =>
         this <- Store.register
                   {| Runtime._storeName := default "appState" (StoreProps.storeName p);
                      Runtime._internalState := _internalState;
                      Runtime._pubSub := _pubSub |} ;;
         Store.loadStateFromLocalStorage this ;;
         ret this
     end).
Proof.
  throws_step.
  { intros w e w'. unfold Store.storeRegistry_get. repeat case_match; done. }
  throws_step; [throws_step|].
  destruct a; repeat throws_step.
  by intros w e w'.
Qed.

Lemma constructor_accepted (p : StoreProps.t) (w : world) :
  isObject (heap w) (StoreProps.initialState p) = true ->
  forall msg w', Store.constructor (Some p) w <> (Throw (Error msg), w').
Proof.
  intros Ht msg w' Hc. revert Hc. unfold Store.constructor.
  unfold bind at 1. unfold ret at 1. unfold bind at 1. unfold get at 1.
  rewrite Ht. simpl. intros Hc.
  by apply (throws_only_constructor_accepted p) in Hc.
Qed.

Lemma constructor_default (w : world) :
  Store.constructor None w
  = Store.constructor
      (Some {| StoreProps.storeName := Some "appState";
               StoreProps.initialState := VRef (length (heap w));
               StoreProps.replace := Some false |})
      (set_heap (heap w ++ [CObj []]) w).
Proof. reflexivity. Qed.

(** C9. Constructing a store fails, at once and with the error
    "initial state must be an object", exactly when the initial state is
    not a plain mapping, that is [null], an array or a primitive; the string
    "not an object" is one. With a plain mapping, or with no properties at
    all, the constructor raises no [Error]. *)
Theorem C9_constructor_rejects_exactly_non_mappings (p : StoreProps.t) (w : world) :
  ((exists w', Store.constructor (Some p) w
               = (Throw (Error "initial state must be an object"), w'))
   <-> isObject (heap w) (StoreProps.initialState p) = false) /\
  ((exists msg w', Store.constructor (Some p) w = (Throw (Error msg), w'))
   <-> (StoreProps.initialState p = VNull
        \/ Array_isArray (heap w) (StoreProps.initialState p) = true
        \/ typeof (StoreProps.initialState p) <> "object")) /\
  Store.constructor
    (Some {| StoreProps.storeName := StoreProps.storeName p;
             StoreProps.replace := StoreProps.replace p;
             StoreProps.initialState := VStr "not an object" |}) w
  = (Throw (Error "initial state must be an object"), w) /\
  (forall msg w', Store.constructor None w <> (Throw (Error msg), w')).
Proof.
  assert (Hrej : isObject (heap w) (StoreProps.initialState p) = false ->
                 Store.constructor (Some p) w
                 = (Throw (Error "initial state must be an object"), w)).
  { intros Hf. unfold Store.constructor. unfold bind at 1. unfold ret at 1.
    unfold bind at 1. unfold get at 1. by rewrite Hf. }
  pose proof (constructor_accepted p w) as Hacc.
  split; [|split; [|split]].
  - split; [|by eauto].
    intros [w' Hc]. destruct (isObject _ _) eqn:E; [|done].
    by apply Hacc in Hc.
  - rewrite <- isObject_false. split; [|by eauto].
    intros (msg & w' & Hc). destruct (isObject _ _) eqn:E; [|done].
    by apply Hacc in Hc.
  - unfold Store.constructor. unfold bind at 1. unfold ret at 1.
    unfold bind at 1. unfold get at 1. done.
  - intros msg w'. rewrite constructor_default.
    apply constructor_accepted. apply isObject_true.
    eexists. split; [done|]. simpl.
    rewrite lookup_app_r by lia. by rewrite Nat.sub_diag.
Qed.

(** ** Reading the state *)

Lemma state_text_of this w s j :
  stores w !! this = Some s ->
  JSON_stringify (heap w) (_internalState s) = Ok (Some j) ->
  state_text this w = Ok (Some j).
Proof.
  intros Hs Hj. unfold state_text. rewrite (state_Ok _ _ _ _ Hs Hj).
  destruct (JSON_parse j (heap w)) as [v h'] eqn:Hp. simpl.
  eapply JSON_parse_stringify; [exact Hp|apply extends_refl].
Qed.

(** What the getter returns is a copy: whatever is written afterwards to
    the cells it allocated, the store reads the same. *)
Lemma state_getter_returns_a_copy this w snapshot w1 l c :
  Store.state this w = (Ok snapshot, w1) ->
  length (heap w) <= l ->
  state_text this (set_heap (<[l := c]> (heap w1)) w1) = state_text this w.
Proof.
  intros Hst Hl. apply state_inv in Hst as (s & j & h1 & Hs & Hj & Hp & ->).
  rewrite (state_text_of _ _ _ _ Hs Hj).
  eapply state_text_of; [exact Hs|]. simpl.
  eapply JSON_stringify_extends; [exact Hj|].
  apply extends_insert_fresh; [by eapply JSON_parse_extends|done].
Qed.

(** ** The update policies *)

Lemma mutation_replace this props w s :
  Store.truthy (SetStateProps.slice props) = false ->
  SetStateProps.replace props = Some true ->
  stores w !! this = Some s ->
  mutation this props w
  = (Ok tt,
     set_stores (<[this := {| _storeName := _storeName s;
                              _internalState := SetStateProps.value props;
                              _pubSub := _pubSub s |}]> (stores w)) w).
Proof.
  intros Ht Hr Hs. unfold mutation. rewrite Ht, Hr. simpl.
  unfold set_internalState. by rewrite Hs.
Qed.

Lemma mutation_merge this props w s l lv m vm :
  Store.truthy (SetStateProps.slice props) = false ->
  SetStateProps.replace props <> Some true ->
  stores w !! this = Some s ->
  _internalState s = VRef l ->
  heap w !! l = Some (CObj m) ->
  SetStateProps.value props = VRef lv ->
  heap w !! lv = Some (CObj vm) ->
  mutation this props w
  = (Ok tt,
     set_stores (<[this := {| _storeName := _storeName s;
                              _internalState := VRef (length (heap w));
                              _pubSub := _pubSub s |}]> (stores w))
       (set_heap (heap w ++ [CObj (obj_assign (obj_assign [] m) vm)]) w)).
Proof.
  intros Ht Hr Hs Hi Hl Hv Hlv. unfold mutation. rewrite Ht. simpl.
  rewrite (bool_decide_eq_false_2 _ Hr).
  unfold bind at 1. unfold get_store at 1. rewrite Hs.
  unfold bind at 1. unfold read_heap at 1. unfold own_enumerable at 1.
  rewrite Hi, Hl.
  unfold bind at 1. unfold read_heap at 1. unfold own_enumerable at 1.
  rewrite Hv, Hlv.
  unfold bind, alloc, set_internalState. simpl. by rewrite Hs.
Qed.

Lemma mutation_slice this props w s l m key xv jst jv :
  SetStateProps.slice props = Some key ->
  key <> "" ->
  stores w !! this = Some s ->
  _internalState s = VRef l ->
  heap w !! l = Some (CObj m) ->
  obj_get m key = Some xv ->
  isObject (heap w) xv = true ->
  isObject (heap w) (SetStateProps.value props) = true ->
  JSON_stringify (heap w) (VRef l) = Ok (Some jst) ->
  JSON_stringify (heap w) (SetStateProps.value props) = Ok (Some jv) ->
  exists h4 h5 fresh,
    extends (heap w) h4 /\
    JSON_parse jv h4 = (fresh, h5) /\
    mutation this props w
    = (Ok tt, set_heap (<[l := CObj (obj_set m key fresh)]> h5) w).
Proof.
  intros Hslice Hkey Hs Hi Hl Hx Hxo Hvo Hjst Hjv.
  (* the text of the state and of the slice *)
  pose proof Hjst as Hjst0.
  apply (JSON_stringify_obj _ _ _ _ Hl) in Hjst as (js & [= ->] & Hjs).
  destruct (ser_props_value _ _ _ _ _ Hjs Hx) as [ojx Hfx].
  apply isObject_true in Hxo as (lx & -> & Harr). simpl in Harr.
  destruct (ser_ref_obj _ _ _ _ _ Hfx) as [pxs ->].
  { intros vs Hvs. by rewrite Hvs in Harr. }
  pose proof (ser_props_get _ _ _ _ _ _ Hjs Hx Hfx) as Hjx.
  (* the text of the value *)
  destruct (isObject_cell _ _ Hvo) as (lv & vm & Hv & Hlv); [by eexists|].
  assert (exists jvs, jv = JObj jvs) as [jvs ->].
  { rewrite Hv in Hjv. apply (JSON_stringify_obj _ _ _ _ Hlv) in Hjv as (? & [= ->] & _). eauto. }
  (* the copy of the state *)
  destruct (JSON_parse (JObj js) (heap w)) as [copy h1] eqn:E1.
  destruct (JSON_parse_obj _ _ _ _ E1) as (lc & qs & -> & Hlc & Hcell1 & Hal1).
  pose proof (JSON_parse_extends _ _ _ _ E1) as He1.
  destruct (aligned_get _ _ _ _ _ Hal1 Hjx) as (cx & Hcx & Hcxt).
  (* the copy of the slice *)
  destruct (JSON_parse (JObj pxs) h1) as [target h2] eqn:E2.
  destruct (JSON_parse_obj _ _ _ _ E2) as (lt & tq & -> & Hlt & Hcell2 & _).
  pose proof (JSON_parse_extends _ _ _ _ E2) as He2.
  (* the first copy of the value *)
  destruct (JSON_parse (JObj jvs) h2) as [source h3] eqn:E3.
  destruct (JSON_parse_obj _ _ _ _ E3) as (lsrc & sq & -> & Hlsrc & Hcell3 & _).
  pose proof (JSON_parse_extends _ _ _ _ E3) as He3.
  (* the merged candidate *)
  set (h4 := <[lt := CObj (obj_assign tq sq)]> h3).
  assert (He4 : extends (heap w) h4).
  { apply extends_insert_fresh.
    - eapply extends_trans; [exact He1|]. by eapply extends_trans.
    - apply extends_length in He1. lia. }
  (* the second copy of the value *)
  destruct (JSON_parse (JObj jvs) h4) as [fresh h5] eqn:E5.
  pose proof (JSON_parse_extends _ _ _ _ E5) as He5.
  exists h4, h5, fresh. split; [done|]. split; [done|].
  unfold mutation. rewrite Hslice. simpl.
  rewrite (bool_decide_eq_false_2 _ Hkey). simpl.
  rewrite (bind_Ok _ _ _ _ _ (get_store_Ok _ _ _ Hs)).
  rewrite Hi.
  rewrite (bind_Ok _ _ _ _ _ (clone_Ok _ _ _ Hjst0)), E1.
  cbn [fst snd].
  erewrite bind_Ok; [|apply read_heap_Ok; cbn [heap set_heap]; unfold js_get;
                      by rewrite Hcell1, Hcx].
  erewrite bind_Ok;
    [|rewrite clone_Ok with (j := JObj pxs);
      [cbn [heap set_heap]; by rewrite E2
      |cbn [heap set_heap]; apply Hcxt, extends_refl]].
  cbn [fst snd].
  erewrite bind_Ok;
    [|rewrite clone_Ok with (j := JObj jvs);
      [cbn [heap set_heap]; by rewrite E3
      |cbn [heap set_heap]; eapply JSON_stringify_extends;
       [exact Hjv|exact (extends_trans _ _ _ He1 He2)]]].
  cbn [fst snd].
  erewrite bind_Ok;
    [|apply on_heap_Ok; cbn [heap set_heap]; unfold Object_assign, own_enumerable;
      by rewrite (He3 _ _ Hcell2), Hcell3].
  erewrite bind_Ok; [|by apply get_store_Ok].
  rewrite Hi.
  erewrite bind_Ok;
    [|rewrite clone_Ok with (j := JObj jvs);
      [cbn [heap set_heap]; fold h4; by rewrite E5
      |cbn [heap set_heap]; fold h4; by eapply JSON_stringify_extends]].
  cbn [fst snd].
  erewrite on_heap_Ok; [done|]. cbn [heap set_heap]. unfold js_set.
  rewrite (He5 _ _ (He4 _ _ Hl)), Hx. done.
Qed.

(** After an update that succeeded, [setState] only allocates. *)
Lemma setState_after this props w w1 :
  negb (Store.truthy (SetStateProps.slice props))
  && negb (isObject (heap w) (SetStateProps.value props)) = false ->
  mutation this props w = (Ok tt, w1) ->
  Store.setState this props w = after_mutation this w1 /\
  only_allocates w1 (snd (Store.setState this props w)).
Proof.
  intros Hc Hm.
  assert (Store.setState this props w = after_mutation this w1) as ->.
  { rewrite setState_eq. unfold bind at 1. unfold get at 1. rewrite Hc.
    unfold bind. by rewrite Hm. }
  split; [done|]. apply only_allocates_after_mutation.
Qed.

(** C4. [setState({ value: v })], with no slice and [replace] not [true],
    makes the internal state the shallow union of the state [m] it had and
    of [v]: a key of [v] maps to the value [v] gives it, any other key to
    the value it had in [m]. *)
Theorem C4_setState_merges_the_whole_state
  (this : nat) (props : SetStateProps.t) (w : world)
  (s : Store) (l lv : nat) (m vm : list (string * val)) :
  Store.truthy (SetStateProps.slice props) = false ->
  SetStateProps.replace props <> Some true ->
  stores w !! this = Some s ->
  _internalState s = VRef l ->
  heap w !! l = Some (CObj m) ->
  SetStateProps.value props = VRef lv ->
  heap w !! lv = Some (CObj vm) ->
  NoDup (map fst m) ->
  NoDup (map fst vm) ->
  exists s' l' m',
    stores (snd (Store.setState this props w)) !! this = Some s' /\
    _internalState s' = VRef l' /\
    heap (snd (Store.setState this props w)) !! l' = Some (CObj m') /\
    (forall k x, obj_get vm k = Some x -> obj_get m' k = Some x) /\
    (forall k, obj_get vm k = None -> obj_get m' k = obj_get m k).
Proof.
  intros Ht Hr Hs Hi Hl Hv Hlv Hm Hvm.
  pose proof (mutation_merge _ _ _ _ _ _ _ _ Ht Hr Hs Hi Hl Hv Hlv) as Hmut.
  edestruct (setState_after this props w) as [_ [He Hst]]; [|exact Hmut|].
  { rewrite Hv, (isObject_of_cell _ _ _ Hlv). by rewrite andb_false_r. }
  exists {| _storeName := _storeName s;
            _internalState := VRef (length (heap w));
            _pubSub := _pubSub s |},
    (length (heap w)), (obj_assign (obj_assign [] m) vm).
  split; [|split; [reflexivity|split; [|split]]].
  - rewrite Hst. simpl. apply list_lookup_insert_eq. by eapply lookup_lt_Some.
  - apply He. simpl. rewrite lookup_app_r by lia. by rewrite Nat.sub_diag.
  - intros k x Hk. by rewrite obj_get_assign, Hk.
  - intros k Hk. rewrite obj_get_assign, Hk by done.
    rewrite obj_get_assign by done. simpl. by destruct (obj_get m k).
Qed.

(** C5. [setState({ value: v, replace: true })], with no slice, makes [v]
    the internal state: the state then reads as [v] does, and a key that
    [v] does not have is not in it. *)
Theorem C5_setState_replaces_the_whole_state
  (this : nat) (props : SetStateProps.t) (w : world) (s : Store) (jv : json) :
  Store.truthy (SetStateProps.slice props) = false ->
  SetStateProps.replace props = Some true ->
  stores w !! this = Some s ->
  isObject (heap w) (SetStateProps.value props) = true ->
  JSON_stringify (heap w) (SetStateProps.value props) = Ok (Some jv) ->
  (exists s',
      stores (snd (Store.setState this props w)) !! this = Some s' /\
      _internalState s' = SetStateProps.value props) /\
  state_text this (snd (Store.setState this props w)) = Ok (Some jv) /\
  (exists l vm js,
      SetStateProps.value props = VRef l /\ heap w !! l = Some (CObj vm) /\
      jv = JObj js /\
      forall k, obj_get vm k = None -> json_get js k = None).
Proof.
  intros Ht Hr Hs Ho Hj.
  pose proof (mutation_replace _ _ _ _ Ht Hr Hs) as Hmut.
  edestruct (setState_after this props w) as [_ [He Hst]]; [|exact Hmut|].
  { rewrite Ho. by rewrite andb_false_r. }
  assert (Hs' : stores (snd (Store.setState this props w)) !! this
                = Some {| _storeName := _storeName s;
                          _internalState := SetStateProps.value props;
                          _pubSub := _pubSub s |}).
  { rewrite Hst. simpl. apply list_lookup_insert_eq. by eapply lookup_lt_Some. }
  split; [eauto|]. split.
  - eapply state_text_of; [exact Hs'|]. simpl.
    eapply JSON_stringify_extends; [exact Hj|exact He].
  - destruct (isObject_cell _ _ Ho) as (l & vm & Hv & Hl); [by eexists|].
    rewrite Hv in Hj. apply (JSON_stringify_obj _ _ _ _ Hl) in Hj as (js & [= ->] & Hjs).
    exists l, vm, js. repeat split; try done.
    intros k Hk. by eapply ser_props_get_None.
Qed.

(** C1. For a slice name [x] that is not the empty string,
    [setState({ slice: x, value: v })] on a store whose slice [x] is a
    mapping replaces that slice by a copy of the mapping [v]: afterwards
    [state.x] reads as [v] did when the call was made, whatever the slice
    held before, and the [replace] flag changes nothing. *)
Theorem C1_setState_replaces_the_slice
  (this : nat) (key : string) (v : val) (replace : option bool) (w : world)
  (s : Store) (l : nat) (m : list (string * val)) (xv : val) (jst jv : json) :
  key <> "" ->
  stores w !! this = Some s ->
  _internalState s = VRef l ->
  heap w !! l = Some (CObj m) ->
  obj_get m key = Some xv ->
  isObject (heap w) xv = true ->
  isObject (heap w) v = true ->
  JSON_stringify (heap w) (VRef l) = Ok (Some jst) ->
  JSON_stringify (heap w) v = Ok (Some jv) ->
  slice_text this key
    (snd (Store.setState this
            {| SetStateProps.slice := Some key;
               SetStateProps.value := v;
               SetStateProps.replace := replace |} w))
  = Ok (Some jv) /\
  forall replace',
    Store.setState this
      {| SetStateProps.slice := Some key;
         SetStateProps.value := v;
         SetStateProps.replace := replace' |} w
    = Store.setState this
        {| SetStateProps.slice := Some key;
           SetStateProps.value := v;
           SetStateProps.replace := replace |} w.
Proof.
  intros Hkey Hs Hi Hl Hx Hxo Hvo Hjst Hjv.
  split.
  2:{ intros replace'. rewrite !setState_eq. unfold mutation. simpl.
      by rewrite (bool_decide_eq_false_2 _ Hkey). }
  set (props := {| SetStateProps.slice := Some key;
                   SetStateProps.value := v;
                   SetStateProps.replace := replace |}).
  destruct (mutation_slice this props w s l m key xv jst jv)
    as (h4 & h5 & fresh & He4 & E5 & Hmut); try done.
  edestruct (setState_after this props w) as [_ [He Hst]]; [|exact Hmut|].
  { simpl. by rewrite (bool_decide_eq_false_2 _ Hkey). }
  set (w' := snd (Store.setState this props w)) in *.
  cbn [heap stores set_heap] in He, Hst.
  pose proof (JSON_parse_extends _ _ _ _ E5) as He5.
  destruct (JSON_parse_spec jv _ _ _ E5) as (_ & Hd5 & Hser5).
  assert (Hlt : l < length (heap w)) by by eapply lookup_lt_Some.
  pose proof (extends_length _ _ He4) as Hlen4.
  pose proof (extends_length _ _ He5) as Hlen5.
  pose proof (extends_length _ _ He) as Hlen.
  rewrite length_insert in Hlen.
  (* the state after the call *)
  assert (Hcell : heap w' !! l = Some (CObj (obj_set m key fresh))).
  { apply He. apply list_lookup_insert_eq. lia. }
  assert (Hoff : forall h0, extends h0 h5 ->
                 forall l' c, l' ∉ [l] -> h0 !! l' = Some c -> heap w' !! l' = Some c).
  { intros h0 He0 l' c Hn Hc. apply He.
    rewrite list_lookup_insert_ne; [by apply He0|].
    intros ->. apply Hn. by left. }
  apply (JSON_stringify_obj _ _ _ _ Hl) in Hjst as (js & _ & Hjs).
  destruct (ser_props_obj_set (ser (length (heap w')) (heap w') [l])
              m js key fresh jv) as (js' & Hjs' & Hget & _).
  { eapply ser_props_impl; [|exact Hjs]. intros x oj Hxs.
    eapply ser_stable; [exact Hxs|lia|done|].
    apply Hoff. by eapply extends_trans. }
  { eapply ser_stable with (n := length (heap w')) (h := h5) (st := [l]);
      [|lia|done|by apply Hoff, extends_refl].
    apply Hser5; [lia|apply extends_refl|].
    intros l' ->%list_elem_of_singleton. lia. }
  assert (Htext : JSON_stringify (heap w') (VRef l) = Ok (Some (JObj js'))).
  { apply (JSON_stringify_obj _ _ _ _ Hcell). eauto. }
  (* reading it *)
  unfold slice_text.
  erewrite state_Ok; [|by rewrite Hst|by rewrite Hi].
  destruct (JSON_parse (JObj js') (heap w')) as [snapshot h8] eqn:E8.
  destruct (JSON_parse_obj _ _ _ _ E8) as (ls & qs & -> & _ & Hcell8 & Hal8).
  destruct (aligned_get _ _ _ _ _ Hal8 Hget) as (x & Hxg & Hxt).
  cbn [fst snd heap set_heap]. unfold js_get. rewrite Hcell8, Hxg.
  apply Hxt, extends_refl.
Qed.

(** C2. Constructing a store under a name the registry already has makes
    no second instance: the constructor copies the initial state (and drops
    the copy), calls [setState({ value: initialState, replace })] on the
    registered instance and returns that instance, so the world after the
    construction is the world after that [setState], seen through the first
    reference. *)
Theorem C2_constructor_returns_the_registered_instance
  (p : StoreProps.t) (existing : nat) (j : json) (w : world) :
  storeRegistry w !! default "appState" (StoreProps.storeName p) = Some existing ->
  isObject (heap w) (StoreProps.initialState p) = true ->
  JSON_stringify (heap w) (StoreProps.initialState p) = Ok (Some j) ->
  let after :=
    Store.setState existing
      {| SetStateProps.slice := None;
         SetStateProps.value := StoreProps.initialState p;
         SetStateProps.replace := StoreProps.replace p |}
      (set_heap (snd (JSON_parse j (heap w))) w) in
  Store.constructor (Some p) w
  = (match fst after with Gap g => Gap g | _ => Ok existing end, snd after) /\
  storeRegistry (snd after) = storeRegistry w /\
  length (stores (snd after)) = length (stores w) /\
  state_text existing (snd (Store.constructor (Some p) w))
  = state_text existing (snd after).
Proof.
  intros Hreg Ho Hj after.
  assert (Hc : Store.constructor (Some p) w
               = (match fst after with Gap g => Gap g | _ => Ok existing end,
                  snd after)).
  { unfold Store.constructor. unfold bind at 1. unfold ret at 1.
    unfold bind at 1. unfold get at 1. rewrite Ho. simpl.
    unfold bind at 1. unfold Store.storeRegistry_get at 1. rewrite Hreg.
    unfold bind at 1. rewrite (clone_Ok _ _ _ Hj).
    unfold bind, detach. fold after.
    by destruct after as [[v|e|g] w']. }
  split; [exact Hc|].
  destruct (same_instances_setState existing
              {| SetStateProps.slice := None;
                 SetStateProps.value := StoreProps.initialState p;
                 SetStateProps.replace := StoreProps.replace p |}
              (set_heap (snd (JSON_parse j (heap w))) w)) as [Hr Hl].
  split; [exact Hr|]. split; [exact Hl|]. by rewrite Hc.
Qed.

End StoreFacts.

(** * The example program *)

Module DemoFacts.
Import JS Helpers Runtime Obs JSFacts RuntimeFacts.

(** The selectors of the example are functions of the state they are
    given. *)
Lemma select_deterministic : deterministic Demo.select.
Proof.
  intros f j h a h1 b h2 Ha Hb.
  pose proof (JSON_parse_extends _ _ _ _ Hb) as He.
  destruct f as [name|[|[|n]]]; simpl; [done| | |done].
  - rewrite (JSON_parse_stringify _ _ _ _ _ Ha He).
    by rewrite (JSON_parse_stringify _ _ _ _ _ Hb (extends_refl _)).
  - destruct j as [|x|x|x|js|ps].
    1-4: simpl in Ha, Hb; by injection Ha as <- _; injection Hb as <- _.
    + destruct (JSON_parse_arr _ _ _ _ Ha) as (la & va & -> & Hla).
      destruct (JSON_parse_arr _ _ _ _ Hb) as (lb & vb & -> & Hlb).
      by rewrite (He _ _ Hla), Hlb.
    + destruct (JSON_parse_obj _ _ _ _ Ha) as (la & qa & -> & _ & Hla & Hqa).
      destruct (JSON_parse_obj _ _ _ _ Hb) as (lb & qb & -> & _ & Hlb & Hqb).
      rewrite (He _ _ Hla), Hlb.
      destruct (json_get ps "a") as [jx|] eqn:Eg.
      * destruct (aligned_get _ _ _ _ _ Hqa Eg) as (xa & -> & Hxa).
        destruct (aligned_get _ _ _ _ _ Hqb Eg) as (xb & -> & Hxb).
        simpl. by rewrite (Hxa _ He), (Hxb _ (extends_refl _)).
      * by rewrite (aligned_get_None _ _ _ _ Hqa Eg),
                   (aligned_get_None _ _ _ _ Hqb Eg).
Qed.

(** C8. The clone boundary is not everywhere. [setState] with
    [replace: true] stores the caller's object itself; [createSlice] stores
    the caller's [initialState] itself; the whole-state merge copies one
    level and shares what is below. A write the caller makes to its own
    object afterwards shows in the state of the store. (The getter and the
    slice update do copy: there the caller's write changes nothing.) *)
Theorem C8_the_store_keeps_the_callers_object :
  (* setState({ value: v, replace: true }); v.a = 99 *)
  state_text 0 (snd (Store.setState 0 (Demo.replace_with (VRef 1)) Demo.world_b))
  = Ok (Some (JObj [("a", JNum 1)])) /\
  state_text 0 (snd (Demo.setState_then_write (Demo.replace_with (VRef 1)) (VRef 1)
                       Demo.world_b))
  = Ok (Some (JObj [("a", JNum 99)])) /\
  (* createSlice({ name: "cart", initialState: v }); v.a = 99 *)
  state_text 0 (snd (Demo.createSlice_then_write (VRef 1) (VRef 1) Demo.world_b))
  = Ok (Some (JObj [("b", JNum 2); ("cart", JObj [("a", JNum 99)])])) /\
  (* setState({ value: { user: u } }); u.a = 99 *)
  state_text 0 (snd (Demo.setState_then_write (Demo.merge_with (VRef 2)) (VRef 1)
                       Demo.world_nested))
  = Ok (Some (JObj [("b", JNum 2); ("user", JObj [("a", JNum 99)])])) /\
  (* setState({ slice: "x", value: v }); v.a = 99 *)
  state_text 0 (snd (Demo.setState_then_write (Demo.set_slice "x" (VRef 2)) (VRef 2)
                       Demo.world_x))
  = Ok (Some (JObj [("x", JObj [("b", JNum 2)])])) /\
  (* const snapshot = store.state; snapshot.b = 99 *)
  state_text 0 (snd (Demo.read_then_write Demo.world_b))
  = Ok (Some (JObj [("b", JNum 2)])).
Proof. repeat split; vm_compute; reflexivity. Qed.

End DemoFacts.

(** * The statements at concrete inputs *)

Module Witnesses.
Import JS Helpers Runtime Obs.

Lemma C1_witness :
  slice_text 0 "x"
    (snd (Store.setState 0 (Demo.set_slice "x" (VRef 2)) Demo.world_x))
  = Ok (Some (JObj [("b", JNum 2)])).
Proof.
  apply (StoreFacts.C1_setState_replaces_the_slice
           0 "x" (VRef 2) None Demo.world_x
           (Demo.store0 (VRef 1) Demo.subscribers) 1 [("x", VRef 0)] (VRef 0)
           (JObj [("x", JObj [("a", JNum 1)])]) (JObj [("b", JNum 2)]));
    try (vm_compute; reflexivity).
  discriminate.
Defined.

(** C1, as stated, at the empty slice name: [setState({ slice: "", value:
    {b:2} })] on the state [{"":{a:1}}] takes the whole-state path, the
    slice keeps its value and [b] becomes a slice. *)
Lemma C1_counterexample_empty_slice_name :
  JSON_stringify (heap Demo.world_empty_name) (VRef 2)
  = Ok (Some (JObj [("b", JNum 2)])) /\
  slice_text 0 ""
    (snd (Store.setState 0 (Demo.set_slice "" (VRef 2)) Demo.world_empty_name))
  = Ok (Some (JObj [("a", JNum 1)])) /\
  state_text 0
    (snd (Store.setState 0 (Demo.set_slice "" (VRef 2)) Demo.world_empty_name))
  = Ok (Some (JObj [("", JObj [("a", JNum 1)]); ("b", JNum 2)])) /\
  slice_text 0 ""
    (snd (Store.setState 0 (Demo.set_slice "" (VRef 2)) Demo.world_empty_name))
  <> JSON_stringify (heap Demo.world_empty_name) (VRef 2).
Proof. repeat split; vm_compute; (reflexivity || discriminate). Qed.

Lemma C2_witness :
  fst (Store.constructor
         (Some {| StoreProps.storeName := None;
                  StoreProps.replace := None;
                  StoreProps.initialState := VRef 1 |}) Demo.world_b)
  = Ok 0 /\
  length (stores (snd (Store.constructor
         (Some {| StoreProps.storeName := None;
                  StoreProps.replace := None;
                  StoreProps.initialState := VRef 1 |}) Demo.world_b))) = 1 /\
  state_text 0
    (snd (Store.constructor
            (Some {| StoreProps.storeName := None;
                     StoreProps.replace := None;
                     StoreProps.initialState := VRef 1 |}) Demo.world_b))
  = Ok (Some (JObj [("b", JNum 2); ("a", JNum 1)])).
Proof.
  destruct (StoreFacts.C2_constructor_returns_the_registered_instance
              {| StoreProps.storeName := None;
                 StoreProps.replace := None;
                 StoreProps.initialState := VRef 1 |}
              0 (JObj [("a", JNum 1)]) Demo.world_b)
    as (Hc & _ & Hl & Ht); try (vm_compute; reflexivity).
  rewrite Hc. split; [|split].
  - vm_compute; reflexivity.
  - exact Hl.
  - vm_compute; reflexivity.
Defined.


Lemma C4_witness :
  exists s' l' m',
    stores (snd (Store.setState 0 (Demo.merge_with (VRef 1)) Demo.world_b)) !! 0
    = Some s' /\
    _internalState s' = VRef l' /\
    heap (snd (Store.setState 0 (Demo.merge_with (VRef 1)) Demo.world_b)) !! l'
    = Some (CObj m') /\
    obj_get m' "a" = Some (VNum 1) /\
    obj_get m' "b" = Some (VNum 2).
Proof.
  destruct (StoreFacts.C4_setState_merges_the_whole_state
              0 (Demo.merge_with (VRef 1)) Demo.world_b
              (Demo.store0 (VRef 0) Demo.subscribers) 0 1
              [("b", VNum 2)] [("a", VNum 1)])
    as (s' & l' & m' & Hs & Hi & Hm & Hv & Ho);
    try (vm_compute; reflexivity); try apply NoDup_singleton.
  { discriminate. }
  exists s', l', m'. repeat split; try done.
  - by apply Hv.
  - by rewrite Ho.
Defined.

Lemma C5_witness :
  state_text 0 (snd (Store.setState 0 (Demo.replace_with (VRef 1)) Demo.world_b))
  = Ok (Some (JObj [("a", JNum 1)])).
Proof.
  apply (StoreFacts.C5_setState_replaces_the_whole_state
           0 (Demo.replace_with (VRef 1)) Demo.world_b
           (Demo.store0 (VRef 0) Demo.subscribers) (JObj [("a", JNum 1)]));
    vm_compute; reflexivity.
Defined.

Lemma C6_witness :
  PubSub.publish (PubSub.inert Demo.select) {| _callbackList := Demo.subscribers |}
    (VRef 0) (VRef 1) Demo.world_snapshots
  = (Ok tt, set_calls [(Closure 10, VRef 1)] Demo.world_snapshots).
Proof.
  destruct (PubSubFacts.C6_publish_calls_changed_in_order_until_a_throw
              (PubSub.inert Demo.select) {| _callbackList := Demo.subscribers |}
              (VRef 0) (VRef 1) Demo.world_snapshots) as (_ & _ & Hp).
  destruct (Hp eq_refl eq_refl) as (_ & _ & _ & Hq).
  unshelve epose proof (Hq Demo.select _) as [Hpub _].
  { repeat constructor; try (eexists; vm_compute; reflexivity). }
  etrans; [exact Hpub|]. vm_compute. reflexivity.
Defined.

(** C6, as stated, with a callback that throws: both subscriptions select
    the whole state, whose two snapshots have different texts, so both
    callbacks are due; the first one throws, [publish] throws with it, and
    the second callback is not called. *)
Lemma C6_counterexample_a_throw_skips_the_later_subscribers :
  isObject (heap Demo.world_snapshots) (VRef 0) = true /\
  isObject (heap Demo.world_snapshots) (VRef 1) = true /\
  Forall (fun item =>
            JSON_stringify (heap Demo.world_snapshots)
              (Demo.select (config item) (heap Demo.world_snapshots) (VRef 0))
            <> JSON_stringify (heap Demo.world_snapshots)
                 (Demo.select (config item) (heap Demo.world_snapshots) (VRef 1)))
         Demo.two_watchers /\
  PubSub.publish Demo.throwing {| _callbackList := Demo.two_watchers |}
    (VRef 0) (VRef 1) Demo.world_snapshots
  = (Throw (Error "boom"), set_calls [(Closure 10, VRef 1)] Demo.world_snapshots) /\
  forall arg,
    (Closure 11, arg)
    ∉ calls (snd (PubSub.publish Demo.throwing {| _callbackList := Demo.two_watchers |}
                    (VRef 0) (VRef 1) Demo.world_snapshots)).
Proof.
  split; [reflexivity|]. split; [reflexivity|]. split.
  { repeat constructor; vm_compute; discriminate. }
  split; [vm_compute; reflexivity|].
  intros arg Hin. vm_compute in Hin.
  apply list_elem_of_singleton in Hin. discriminate.
Qed.

Lemma C7_witness :
  exists this1 unsubscribe,
    PubSub.subscribe {| _callbackList := Demo.subscribers |}
      (VFun (Closure 10)) (VFun (Closure 1)) = Ok (this1, unsubscribe) /\
    _callbackList (unsubscribe this1)
    = [ {| callback := Closure 11; config := Closure 1 |} ].
Proof.
  destruct (PubSubFacts.C7_unsubscribe_removes_every_entry_of_the_callback
              {| _callbackList := Demo.subscribers |} (Closure 10) (Closure 1))
    as (this1 & unsubscribe & Hs & Hl & Hu & _).
  exists this1, unsubscribe. split; [exact Hs|].
  destruct (Hu this1) as [-> _]. rewrite Hl. vm_compute. reflexivity.
Defined.

Lemma C9_witness :
  exists w',
    Store.constructor
      (Some {| StoreProps.storeName := None;
               StoreProps.replace := None;
               StoreProps.initialState := VStr "not an object" |}) Demo.world_b
    = (Throw (Error "initial state must be an object"), w').
Proof.
  apply (StoreFacts.C9_constructor_rejects_exactly_non_mappings
           {| StoreProps.storeName := None;
              StoreProps.replace := None;
              StoreProps.initialState := VStr "not an object" |} Demo.world_b).
  reflexivity.
Defined.

Lemma C10_witness :
  Store.setState 0
    {| SetStateProps.slice := None;
       SetStateProps.value := VNum 5;
       SetStateProps.replace := None |} Demo.world_b
  = (Throw (Error "non-slice value must be an object"), Demo.world_b).
Proof.
  apply (StoreFacts.C10_setState_refusal_is_atomic 0
           {| SetStateProps.slice := None;
              SetStateProps.value := VNum 5;
              SetStateProps.replace := None |} Demo.world_b); reflexivity.
Defined.

End Witnesses.

(** * More about copies *)

Module CloneFacts.
Import JS Helpers Runtime Obs JSFacts.

Lemma ser_None n h st v : ser n h st v = Ok None -> left_out v.
Proof.
  destruct n as [|n]; [done|]. destruct v; simpl; try done.
  - intros _. by left.
  - intros _. right. eauto.
  - case_bool_decide; [done|].
    destruct (h !! l) as [[ps|vs]|]; [| |done].
    + by intros (? & _ & [=])%res_map_Ok.
    + by intros (? & _ & [=])%res_map_Ok.
Qed.

Lemma ser_left_out n h st v : left_out v -> ser (S n) h st v = Ok None.
Proof. by intros [-> | [f ->]]. Qed.

Lemma ser_props_gap (f : val -> res (option json)) ps g :
  (forall v g, f v = Gap g -> g = OutOfFuel \/ g = Dangling) ->
  ser_props f ps = Gap g -> g = OutOfFuel \/ g = Dangling.
Proof.
  intros Hf. induction ps as [|[k v] ps IH]; simpl; [done|].
  destruct (f v) as [oj|e1|g1] eqn:E; [|done|intros [= <-]; eauto].
  destruct (ser_props f ps) as [js|e1|g1]; [done|done|].
  intros [= <-]. by apply IH.
Qed.

Lemma ser_elems_gap (f : val -> res (option json)) vs g :
  (forall v g, f v = Gap g -> g = OutOfFuel \/ g = Dangling) ->
  ser_elems f vs = Gap g -> g = OutOfFuel \/ g = Dangling.
Proof.
  intros Hf. induction vs as [|v vs IH]; simpl; [done|].
  destruct (f v) as [oj|e1|g1] eqn:E; [|done|intros [= <-]; eauto].
  destruct (ser_elems f vs) as [js|e1|g1]; [done|done|].
  intros [= <-]. by apply IH.
Qed.

Lemma ser_gap n h st v g :
  ser n h st v = Gap g -> g = OutOfFuel \/ g = Dangling.
Proof.
  revert st v g. induction n as [|n IH]; intros st v g.
  - intros [= <-]. by left.
  - destruct v; simpl; try done.
    case_bool_decide; [done|].
    destruct (h !! l) as [[ps|vs]|]; [| |intros [= <-]; by right].
    + intros Hg%res_map_Gap. eapply ser_props_gap; [|exact Hg].
      intros v' g'. apply IH.
    + intros Hg%res_map_Gap. eapply ser_elems_gap; [|exact Hg].
      intros v' g'. apply IH.
Qed.

(** A stringify that does not complete normally is the [TypeError] of a
    cycle, unless the heap has a dangling reference. *)
Lemma JSON_stringify_fails h v :
  (exists t, JSON_stringify h v = Ok t) \/
  JSON_stringify h v = Throw TypeError \/
  JSON_stringify h v = Gap Dangling.
Proof.
  pose proof (JSON_stringify_fuel h v) as Hfuel.
  destruct (JSON_stringify h v) as [t|e|g] eqn:E; [eauto| |].
  - apply JSON_stringify_throw in E as ->. auto.
  - apply ser_gap in E as [-> | ->]; [done|auto].
Qed.

(** The text of a primitive tells the primitive. *)
Lemma ser_text_primitive n h st v j :
  ser n h st v = Ok (Some j) ->
  match j with
  | JNull => v = VNull
  | JBool b => v = VBool b
  | JNum z => v = VNum z
  | JStr s => v = VStr s
  | JArr _ => exists l vs, v = VRef l /\ h !! l = Some (CArr vs)
  | JObj _ => exists l ps, v = VRef l /\ h !! l = Some (CObj ps)
  end.
Proof.
  destruct n as [|n]; [done|]. destruct v; simpl; try done;
    try (intros [= <-]; done).
  case_bool_decide; [done|].
  destruct (h !! l) as [[ps|vs]|] eqn:El; [| |done].
  - intros (? & _ & [= ->])%res_map_Ok. eauto.
  - intros (? & _ & [= ->])%res_map_Ok. eauto.
Qed.

(** With distinct keys, the text of an object has, under each key, the
    text of the value of that key, and nothing for a value that is left
    out. *)
Lemma ser_props_lookup (f : val -> res (option json)) ps js k :
  NoDup (map fst ps) ->
  ser_props f ps = Ok js ->
  json_get js k
  = match obj_get ps k with
    | Some v => match f v with Ok oj => oj | _ => None end
    | None => None
    end.
Proof.
  revert js. induction ps as [|[k0 v0] ps IH]; intros js Hnd; simpl.
  - by intros [= <-].
  - apply NoDup_cons in Hnd as [Hk0 Hnd]. simpl in Hk0.
    destruct (f v0) as [oj| |] eqn:E0; [|done..].
    destruct (ser_props f ps) as [js0| |] eqn:E1; [|done..].
    intros [= <-]. specialize (IH _ Hnd eq_refl).
    case_bool_decide as Hk.
    + subst k0. rewrite E0. rewrite (obj_get_absent _ _ Hk0) in IH.
      destruct oj; simpl; [by rewrite bool_decide_eq_true_2|done].
    + destruct oj; simpl; [by rewrite bool_decide_eq_false_2|done].
Qed.

Lemma aligned_lookup h qs ps k :
  aligned h qs ps ->
  match json_get ps k with
  | Some j => exists x, obj_get qs k = Some x /\
                        forall H, extends h H -> JSON_stringify H x = Ok (Some j)
  | None => obj_get qs k = None
  end.
Proof.
  intros Hal. destruct (json_get ps k) eqn:E.
  - by eapply aligned_get.
  - by eapply aligned_get_None.
Qed.

(** ** The copy depends on the new cells only *)

Lemma keeps_from_prefix n h new H :
  keeps_from n (h ++ new) H -> keeps_from n h H.
Proof. intros Hk l c Hl Hc. apply Hk; [done|]. by apply lookup_app_l_Some. Qed.

Lemma keeps_from_le n m h H : n <= m -> keeps_from n h H -> keeps_from m h H.
Proof. intros Hnm Hk l c Hl. apply Hk. lia. Qed.

Lemma all_parse_ok {A} (f : A -> json) (xs : list A) :
  Forall (fun x => parse_ok (f x)) xs.
Proof. apply Forall_forall. intros x _. apply JSON_parse_spec. Qed.

Lemma parse_props_fresh ps :
  Forall (fun p => parse_fresh (snd p)) ps ->
  forall h qs h',
    parse_props JSON_parse ps h = (qs, h') ->
    forall n H st,
      list_max (map (fun p => jdepth (snd p)) ps) < n ->
      keeps_from (length h) h' H ->
      (forall l, l ∈ st -> l < length h \/ length h' <= l) ->
      ser_props (ser n H st) qs = Ok ps.
Proof.
  induction 1 as [|[k j] ps Hj _ IH]; intros h qs h' Hp n H st Hn Hk Hst;
    simpl in *.
  - by injection Hp as <- <-.
  - destruct (JSON_parse j h) as [v h1] eqn:Ej.
    destruct (parse_props JSON_parse ps h1) as [qs' h2] eqn:Eps.
    injection Hp as <- <-.
    destruct (JSON_parse_spec j _ _ _ Ej) as ([new1 ->] & _ & _).
    destruct (parse_props_spec ps (all_parse_ok snd ps) _ _ _ Eps)
      as ([new2 ->] & _).
    simpl. rewrite (Hj _ _ _ Ej n H st).
    + rewrite (IH _ _ _ Eps n H st); [done|lia| |].
      * eapply keeps_from_le; [|exact Hk]. rewrite length_app. lia.
      * intros l Hl. destruct (Hst l Hl); rewrite ?length_app in *; lia.
    + lia.
    + by eapply keeps_from_prefix.
    + intros l Hl. destruct (Hst l Hl); rewrite ?length_app in *; lia.
Qed.

Lemma parse_elems_fresh js :
  Forall parse_fresh js ->
  forall h vs h',
    parse_elems JSON_parse js h = (vs, h') ->
    forall n H st,
      list_max (map jdepth js) < n ->
      keeps_from (length h) h' H ->
      (forall l, l ∈ st -> l < length h \/ length h' <= l) ->
      ser_elems (ser n H st) vs = Ok js.
Proof.
  induction 1 as [|j js Hj _ IH]; intros h vs h' Hp n H st Hn Hk Hst;
    simpl in *.
  - by injection Hp as <- <-.
  - destruct (JSON_parse j h) as [v h1] eqn:Ej.
    destruct (parse_elems JSON_parse js h1) as [vs' h2] eqn:Ejs.
    injection Hp as <- <-.
    destruct (JSON_parse_spec j _ _ _ Ej) as ([new1 ->] & _ & _).
    destruct (parse_elems_spec js (all_parse_ok id js) _ _ _ Ejs)
      as ([new2 ->] & _).
    simpl. rewrite (Hj _ _ _ Ej n H st).
    + rewrite (IH _ _ _ Ejs n H st); [done|lia| |].
      * eapply keeps_from_le; [|exact Hk]. rewrite length_app. lia.
      * intros l Hl. destruct (Hst l Hl); rewrite ?length_app in *; lia.
    + lia.
    + by eapply keeps_from_prefix.
    + intros l Hl. destruct (Hst l Hl); rewrite ?length_app in *; lia.
Qed.

Lemma JSON_parse_fresh (j : json) : parse_fresh j.
Proof.
  induction j as [| | | |js IH|ps IH] using json_tree_ind;
    intros h v h' Hp fuel H st Hn Hk Hst; simpl in Hp.
  1-4: injection Hp as <- <-; destruct fuel; [simpl in Hn; lia|done].
  - destruct (parse_elems JSON_parse js h) as [vs h1] eqn:E.
    injection Hp as <- <-.
    destruct (parse_elems_spec js (all_parse_ok id js) _ _ _ E)
      as ([new ->] & _).
    destruct fuel as [|fuel]; [lia|]. simpl in Hn |- *.
    rewrite bool_decide_eq_false_2.
    2:{ intros Hin. destruct (Hst _ Hin); rewrite ?length_app in *; simpl in *; lia. }
    assert (H !! length (h ++ new) = Some (CArr vs)) as ->.
    { apply Hk; [rewrite length_app; lia|].
      rewrite lookup_app_r by lia. by rewrite Nat.sub_diag. }
    rewrite (parse_elems_fresh js IH _ _ _ E fuel H); [done|lia| |].
    + by eapply keeps_from_prefix.
    + intros l [->|Hl]%elem_of_cons; [lia|].
      destruct (Hst l Hl); rewrite ?length_app in *; simpl in *; lia.
  - destruct (parse_props JSON_parse ps h) as [qs h1] eqn:E.
    injection Hp as <- <-.
    destruct (parse_props_spec ps (all_parse_ok snd ps) _ _ _ E)
      as ([new ->] & _).
    destruct fuel as [|fuel]; [lia|]. simpl in Hn |- *.
    rewrite bool_decide_eq_false_2.
    2:{ intros Hin. destruct (Hst _ Hin); rewrite ?length_app in *; simpl in *; lia. }
    assert (H !! length (h ++ new) = Some (CObj qs)) as ->.
    { apply Hk; [rewrite length_app; lia|].
      rewrite lookup_app_r by lia. by rewrite Nat.sub_diag. }
    rewrite (parse_props_fresh ps IH _ _ _ E fuel H); [done|lia| |].
    + by eapply keeps_from_prefix.
    + intros l [->|Hl]%elem_of_cons; [lia|].
      destruct (Hst l Hl); rewrite ?length_app in *; simpl in *; lia.
Qed.

(** ** Cycles *)

Lemma ser_props_in (f : val -> res (option json)) ps js k v :
  ser_props f ps = Ok js -> (k, v) ∈ ps -> exists oj, f v = Ok oj.
Proof.
  revert js. induction ps as [|[k0 v0] ps IH]; intros js; simpl.
  - by intros _ ?%elem_of_nil.
  - destruct (f v0) as [oj0| |] eqn:E0; [|done..].
    destruct (ser_props f ps) as [js0| |]; [|done..].
    intros _ [[= -> ->]|Hin]%elem_of_cons; eauto.
Qed.

Lemma ser_elems_in (f : val -> res (option json)) vs js v :
  ser_elems f vs = Ok js -> v ∈ vs -> exists oj, f v = Ok oj.
Proof.
  revert js. induction vs as [|v0 vs IH]; intros js; simpl.
  - by intros _ ?%elem_of_nil.
  - destruct (f v0) as [oj0| |] eqn:E0; [|done..].
    destruct (ser_elems f vs) as [js0| |]; [|done..].
    intros _ [->|Hin]%elem_of_cons; eauto.
Qed.

Lemma ser_child n h st l l' oj :
  ser (S n) h st (VRef l) = Ok oj -> child h l l' ->
  (l ∉ st) /\ exists oj', ser n h (l :: st) (VRef l') = Ok oj'.
Proof.
  unfold child. simpl. case_bool_decide as Hst; [done|].
  destruct (h !! l) as [[ps|vs]|]; [| |done].
  - intros (js & Hps & _)%res_map_Ok [k Hin]. split; [done|].
    by eapply ser_props_in.
  - intros (js & Hvs & _)%res_map_Ok Hin. split; [done|].
    by eapply ser_elems_in.
Qed.

(** Whatever a completed serialization went through is not on its stack. *)
Lemma ser_reach h l l' :
  rtc (child h) l l' ->
  forall n st oj,
    ser n h st (VRef l) = Ok oj ->
    (l' ∉ st) /\ exists n' st' oj', ser n' h st' (VRef l') = Ok oj'.
Proof.
  induction 1 as [l|l l1 l' Hc _ IH]; intros n st oj Hs.
  - split; [|eauto]. destruct n as [|n]; [done|]. simpl in Hs.
    by case_bool_decide.
  - destruct n as [|n]; [done|].
    destruct (ser_child _ _ _ _ _ _ Hs Hc) as (_ & oj' & Hs').
    destruct (IH _ _ _ Hs') as (Hni & Hex). split; [|done].
    intros Hin. apply Hni. by right.
Qed.

Lemma ser_acyclic n h st l oj :
  ser n h st (VRef l) = Ok oj -> ~ cyclic h l.
Proof.
  intros Hs (l' & Hr & Ht).
  destruct (ser_reach _ _ _ Hr _ _ _ Hs) as (_ & n' & st' & oj' & Hs').
  inversion Ht as [? ? Hc|? l1 ? Hc Ht']; subst.
  - destruct n' as [|n']; [done|].
    destruct (ser_child _ _ _ _ _ _ Hs' Hc) as (_ & oj2 & Hs2).
    destruct n' as [|n']; [done|]. simpl in Hs2.
    rewrite bool_decide_eq_true_2 in Hs2; [done|by left].
  - destruct n' as [|n']; [done|].
    destruct (ser_child _ _ _ _ _ _ Hs' Hc) as (_ & oj2 & Hs2).
    destruct (ser_reach _ _ _ (tc_rtc _ _ Ht') _ _ _ Hs2) as (Hni & _).
    apply Hni. by left.
Qed.

Lemma ser_props_closed (f : val -> res (option json)) h ps :
  Forall (fun p => bound h (snd p)) ps ->
  (forall v, bound h v -> f v <> Gap Dangling) ->
  ser_props f ps <> Gap Dangling.
Proof.
  intros Hps Hf. induction Hps as [|[k v] ps Hv _ IH]; simpl; [done|].
  specialize (Hf v Hv).
  destruct (f v) as [oj|e|g]; [|done|congruence].
  by destruct (ser_props f ps).
Qed.

Lemma ser_elems_closed (f : val -> res (option json)) h vs :
  Forall (bound h) vs ->
  (forall v, bound h v -> f v <> Gap Dangling) ->
  ser_elems f vs <> Gap Dangling.
Proof.
  intros Hvs Hf. induction Hvs as [|v vs Hv _ IH]; simpl; [done|].
  specialize (Hf v Hv).
  destruct (f v) as [oj|e|g]; [|done|congruence].
  by destruct (ser_elems f vs).
Qed.

Lemma ser_closed h : closed h ->
  forall n st v, bound h v -> ser n h st v <> Gap Dangling.
Proof.
  intros Hcl. induction n as [|n IH]; intros st v Hv; [done|].
  destruct v; simpl; try done.
  case_bool_decide; [done|]. simpl in Hv.
  destruct (lookup_lt_is_Some_2 h l Hv) as [c Hc]. rewrite Hc.
  specialize (Hcl _ _ Hc). destruct c as [ps|vs].
  - intros E%res_map_Gap. revert E. eapply ser_props_closed; [done|].
    intros v. apply IH.
  - intros E%res_map_Gap. revert E. eapply ser_elems_closed; [done|].
    intros v. apply IH.
Qed.

(** A parsed value keeps its text in every heap that kept the cells the
    parse added. *)
Lemma JSON_parse_stringify_fresh j h v h' H :
  JSON_parse j h = (v, h') ->
  keeps_from (length h) h' H ->
  JSON_stringify H v = Ok (Some j).
Proof.
  intros Hp Hk.
  apply (JSON_parse_fresh j _ _ _ Hp); [|done|by intros l ?%elem_of_nil].
  destruct (JSON_parse_spec j _ _ _ Hp) as ([new ->] & Hd & _).
  destruct new as [|c new _] using rev_ind.
  - rewrite app_nil_r in Hd. lia.
  - assert (H !! (length (h ++ new)) = Some c) as Hc%lookup_lt_Some.
    { apply Hk; [rewrite length_app; lia|].
      rewrite app_assoc, lookup_app_r by lia. by rewrite Nat.sub_diag. }
    rewrite !length_app in *. simpl in *. lia.
Qed.

(** ** [cloneObject] *)

(** X1. A copy made by [cloneObject] is equal to the original for
    [isEqual] and shares no cell with it: the call only adds cells, the
    copy keeps its text whatever is later written to the cells that
    were there before the call, and the original keeps its text whatever
    is written to the new ones. *)
Theorem X1_cloneObject_copy_is_independent h v v' h' :
  cloneObject h v = Ok (v', h') ->
  exists j,
    JSON_stringify h v = Ok (Some j) /\
    extends h h' /\
    isEqual h' v' v = Ok true /\
    (forall H, keeps_from (length h) h' H -> JSON_stringify H v' = Ok (Some j)) /\
    (forall H, extends h H -> JSON_stringify H v = Ok (Some j)).
Proof.
  unfold cloneObject.
  destruct (JSON_stringify h v) as [[j|]| |] eqn:E; [|done..].
  intros [= Hp]. exists j.
  pose proof (JSON_parse_extends _ _ _ _ Hp) as He.
  split; [done|]. split; [done|]. split; [|split].
  - unfold isEqual.
    rewrite (JSON_parse_stringify _ _ _ _ _ Hp (extends_refl _)).
    rewrite (JSON_stringify_extends _ _ _ _ E He).
    by rewrite text_eqb_refl.
  - intros H Hk. by eapply JSON_parse_stringify_fresh.
  - intros H. by apply JSON_stringify_extends.
Qed.

(** X2. The failures of [cloneObject] on a value built from [undefined],
    [null], booleans, integers, strings, functions, arrays and plain
    objects, none of which has a method [toJSON]: it throws a
    [SyntaxError] exactly on [undefined] and on functions, for which
    [JSON.stringify] gives no text to parse; any other exception is the
    [TypeError] of a cycle. *)
Theorem X2_cloneObject_failures h v :
  toJSON_free h = true ->
  (cloneObject h v = Throw SyntaxError <-> left_out v) /\
  (forall e, cloneObject h v = Throw e -> e = SyntaxError \/ e = TypeError) /\
  (forall g, cloneObject h v = Gap g -> g = Dangling).
Proof.
  intros _. unfold cloneObject.
  destruct (JSON_stringify_fails h v) as [[[j|] E]|[E|E]]; rewrite E.
  - split; [split; [done|]|split; [done|done]].
    intros Hl. apply (ser_left_out (length h) h []) in Hl.
    unfold JSON_stringify in E. congruence.
  - split; [split; [intros _|done]|split; [|done]].
    + by eapply ser_None.
    + intros e [= <-]. by left.
  - split; [split; [done|]|split; [|done]].
    + intros Hl. apply (ser_left_out (length h) h []) in Hl.
      unfold JSON_stringify in E. congruence.
    + intros e [= <-]. by right.
  - split; [split; [done|]|split; [done|]].
    + intros Hl. apply (ser_left_out (length h) h []) in Hl.
      unfold JSON_stringify in E. congruence.
    + by intros g [= <-].
Qed.

Lemma cloneObject_cyclic h l :
  closed h -> cyclic h l ->
  cloneObject h (VRef l) = Throw TypeError.
Proof.
  intros Hcl Hcy. unfold cloneObject.
  assert (bound h (VRef l)) as Hb.
  { destruct Hcy as (l' & Hr & Ht). simpl.
    assert (exists l1, child h l l1) as [l1 Hc].
    { destruct Hr as [|? l1 ? Hc _]; [|eauto].
      inversion Ht; subst; eauto. }
    unfold child in Hc. apply lookup_lt_is_Some.
    by destruct (h !! l). }
  destruct (JSON_stringify_fails h (VRef l)) as [[t E]|[E|E]].
  - by destruct (ser_acyclic _ _ _ _ _ E).
  - by rewrite E.
  - by destruct (ser_closed h Hcl _ _ _ Hb E).
Qed.

(** X3. No cyclic structure of arrays and plain objects without a method
    [toJSON] is ever copied: in a heap without dangling references,
    [cloneObject] of an object from which a cycle can be reached throws a
    [TypeError]. *)
Theorem X3_cloneObject_rejects_cycles h l :
  toJSON_free h = true ->
  closed h -> cyclic h l ->
  cloneObject h (VRef l) = Throw TypeError.
Proof. intros _. apply cloneObject_cyclic. Qed.

(** X4. What a copy of a plain object keeps, where no object has a method
    [toJSON] and the values are [undefined], [null], booleans, integers,
    strings, functions, arrays and plain objects: a property whose value
    is [undefined] or a function is dropped, every other property is
    there with a value equal to the original's for [isEqual], and no
    property is added. *)
Theorem X4_cloneObject_drops_what_JSON_leaves_out h l ps v' h' :
  toJSON_free h = true ->
  h !! l = Some (CObj ps) ->
  NoDup (map fst ps) ->
  cloneObject h (VRef l) = Ok (v', h') ->
  exists l' qs,
    v' = VRef l' /\ length h <= l' /\ h' !! l' = Some (CObj qs) /\
    forall k,
      match obj_get ps k with
      | None => obj_get qs k = None
      | Some x =>
          (left_out x -> obj_get qs k = None) /\
          (~ left_out x ->
           exists y, obj_get qs k = Some y /\ isEqual h' y x = Ok true)
      end.
Proof.
  intros _ Hl Hnd. unfold cloneObject.
  destruct (JSON_stringify h (VRef l)) as [[j|]| |] eqn:E; [|done..].
  intros [= Hp].
  pose proof (JSON_parse_extends _ _ _ _ Hp) as He.
  apply (JSON_stringify_obj _ _ _ _ Hl) in E as (js & [= ->] & Hjs).
  destruct (JSON_parse_obj _ _ _ _ Hp) as (l' & qs & -> & Hfresh & Hl' & Hal).
  exists l', qs. repeat split; try done.
  intros k. pose proof (ser_props_lookup _ _ _ k Hnd Hjs) as Hk.
  pose proof (aligned_lookup _ _ _ k Hal) as Hq.
  destruct (obj_get ps k) as [x|] eqn:Ex.
  - destruct (ser_props_value _ _ _ _ _ Hjs Ex) as [oj Hx].
    rewrite Hx in Hk. rewrite Hk in Hq. split.
    + intros Hlo. apply lookup_lt_Some in Hl.
      destruct (length h) as [|n] eqn:En; [lia|].
      rewrite (ser_left_out n h [l] x Hlo) in Hx. injection Hx as <-.
      exact Hq.
    + intros Hlo. destruct oj as [jx|].
      2:{ destruct Hlo. by eapply ser_None. }
      destruct Hq as (y & Hy & Hty). exists y. split; [done|].
      unfold isEqual. rewrite (Hty h' (extends_refl _)).
      assert (JSON_stringify h' x = Ok (Some jx)) as ->.
      { eapply ser_stable; [exact Hx| | |].
        - pose proof (extends_length _ _ He). lia.
        - by intros ? ?%elem_of_nil.
        - intros l0 c _. apply He. }
      by rewrite text_eqb_refl.
  - by rewrite Hk in Hq.
Qed.

End CloneFacts.

(** * More about notification *)

Module PubSubMore.
Import JS Helpers Runtime Obs JSFacts RuntimeFacts PubSubFacts.
Local Open Scope js_scope.

Section WithHost.

Variable host : Host.
Variable select : fn -> list cell -> val -> val.

(** X5. [publish] stops at the first subscription whose selected values
    cannot be compared: the exception of [isEqual] (a [TypeError], from a
    cyclic value) leaves [publish]. Where the selectors up to there return
    without writing and the callbacks called return without writing, the
    subscriptions before it have been notified, in order, where their
    value changed; the subscriptions after it are not notified at all. *)
Theorem X5_publish_stops_at_the_first_failure
  (this : PubSub) (current next : val) (w : world) before item after e :
  isObject (heap w) current = true ->
  isObject (heap w) next = true ->
  _callbackList this = before ++ item :: after ->
  Forall (quiet_on select host (heap w) current next) before ->
  config_body host (config item) (heap w) current
  = (Ok (select (config item) (heap w) current), heap w) ->
  config_body host (config item) (heap w) next
  = (Ok (select (config item) (heap w) next), heap w) ->
  isEqual (heap w) (select (config item) (heap w) current)
                   (select (config item) (heap w) next) = Throw e ->
  e = TypeError /\
  PubSub.publish host this current next w
  = (Throw e,
     set_calls (calls w ++ notified select (heap w) current next before) w).
Proof.
  intros Hc Hn Hl Hs Hcur Hnext He. split.
  - unfold isEqual in He.
    destruct (JSON_stringify (heap w) (select (config item) (heap w) current))
      as [x| |] eqn:E1; [|injection He as <-; by eapply JSON_stringify_throw|done].
    destruct (JSON_stringify (heap w) (select (config item) (heap w) next))
      as [y| |] eqn:E2; [done|injection He as <-; by eapply JSON_stringify_throw|done].
  - unfold PubSub.publish. unfold bind at 1. unfold get at 1.
    rewrite Hc, Hn, Hl. cbn [negb].
    eapply PubSubFacts.forEach_stops; [by apply (forEach_publish host select)|].
    rewrite notify_eq. cbn zeta. cbn [heap set_calls].
    rewrite Hcur. cbn [fst snd]. rewrite Hnext. cbn [fst snd]. rewrite He.
    by rewrite set_heap_set_calls.
Qed.

Lemma notified_filter h current next (P : CallbackListItem -> Prop)
  `{!forall item, Decision (P item)} (Q : fn * val -> Prop)
  `{!forall c, Decision (Q c)} items :
  (forall item, P item <-> Q (callback item, select (config item) h next)) ->
  notified select h current next (filter P items)
  = filter Q (notified select h current next items).
Proof.
  intros HPQ. unfold notified.
  induction items as [|item items IH]; [done|].
  destruct (decide (P item)) as [HP|HP].
  - rewrite (filter_cons_True P) by done.
    destruct (decide (changed select h current next item = true)).
    + rewrite !filter_cons_True by done. simpl.
      rewrite filter_cons_True by (by apply HPQ). by rewrite IH.
    + rewrite !filter_cons_False by done. exact IH.
  - rewrite (filter_cons_False P) by done.
    destruct (decide (changed select h current next item = true)).
    + rewrite filter_cons_True by done. simpl.
      rewrite filter_cons_False by (by rewrite <- HPQ). exact IH.
    + rewrite filter_cons_False by done. exact IH.
Qed.

(** X6. Where selectors and callbacks return without writing,
    unsubscribing a callback costs the other subscribers nothing: after
    it, [publish] makes the calls it made before, in the same order and
    with the same arguments, but for those to that callback. *)
Theorem X6_unsubscribe_keeps_the_other_notifications
  (this : PubSub) (cb : fn) (current next : val) (w : world) :
  isObject (heap w) current = true ->
  isObject (heap w) next = true ->
  Forall (quiet_on select host (heap w) current next) (_callbackList this) ->
  exists new,
    PubSub.publish host this current next w
    = (Ok tt, set_calls (calls w ++ new) w) /\
    PubSub.publish host (PubSub.unsubscribe cb this) current next w
    = (Ok tt, set_calls (calls w ++ filter (fun c => fst c <> cb) new) w).
Proof.
  intros Hc Hn Hs.
  exists (notified select (heap w) current next (_callbackList this)). split.
  - unfold PubSub.publish. unfold bind at 1. unfold get at 1.
    rewrite Hc, Hn. cbn [negb]. by apply forEach_publish.
  - unfold PubSub.publish. unfold bind at 1. unfold get at 1.
    rewrite Hc, Hn. cbn [negb]. rewrite (forEach_publish host select).
    + simpl. do 3 f_equal. by apply notified_filter.
    + apply Forall_forall. intros item [_ Hin]%list_elem_of_filter.
      by eapply Forall_forall in Hs.
Qed.

End WithHost.

(** X7. Subscribing a callback that was not subscribed and then calling
    the function [subscribe] returned gives back the list of subscriptions
    as it was; calling that function again changes nothing, and the order
    in which two callbacks are unsubscribed does not matter. *)
Theorem X7_subscribe_then_unsubscribe_restores_the_list
  (this : PubSub) (callback config : val) this1 unsubscribe :
  PubSub.subscribe this callback config = Ok (this1, unsubscribe) ->
  (forall later, unsubscribe (unsubscribe later) = unsubscribe later) /\
  (forall other later,
      PubSub.unsubscribe other (unsubscribe later)
      = unsubscribe (PubSub.unsubscribe other later)) /\
  ((forall item, item ∈ _callbackList this ->
                 VFun (Runtime.callback item) <> callback) ->
   unsubscribe this1 = this).
Proof.
  unfold PubSub.subscribe.
  destruct callback as [| | | | |cb|]; simpl; try done.
  destruct config as [| | | | |cf|]; simpl; try done.
  intros [= <- <-]. unfold PubSub.unsubscribe. simpl. repeat split.
  - intros later. f_equal. apply list_filter_filter_l. tauto.
  - intros other later. f_equal. rewrite !list_filter_filter.
    apply list_filter_iff. tauto.
  - intros Hfresh. destruct this as [items]. simpl in *. f_equal.
    rewrite filter_app. rewrite filter_cons_False by (intros H; by apply H).
    rewrite filter_nil, app_nil_r.
    induction items as [|item items IH]; [done|].
    rewrite filter_cons_True.
    + f_equal. apply IH. intros item' Hin. apply Hfresh. by right.
    + intros Heq. apply (Hfresh item); [by left|by rewrite Heq].
Qed.

End PubSubMore.

(** * More about the store *)

Module StoreMore.
Import JS Helpers Runtime Obs JSFacts RuntimeFacts StoreFacts.
Local Open Scope js_scope.

#[global] Instance unchanged_preorder {A} (field : world -> A) :
  PreOrder (unchanged field).
Proof.
  split; [by intros w|]. intros w1 w2 w3 H1 H2. unfold unchanged in *. congruence.
Qed.

#[global] Instance same_identity_preorder : PreOrder same_identity.
Proof.
  split; [by intros w|].
  intros w1 w2 w3 (? & ? & ?) (? & ? & ?). repeat split; congruence.
Qed.

#[export] Hint Resolve unchanged_preorder same_identity_preorder : frames.

(** ** Notification touches nothing but the record of calls *)

Section Publish.

Context {R : world -> world -> Prop} `{!PreOrder R}.
Variable host : Host.
Hypothesis Hcalls : forall w c, R w (set_calls c w).
Hypothesis Hconfig :
  forall f state w, R w (set_heap (config_body host f (heap w) state).2 w).
Hypothesis Hcallback :
  forall cb arg w, R w (set_heap (callback_body host cb (heap w) arg).2 w).

Lemma frame_call_config f state : frame R (PubSub.call_config host f state).
Proof. intros w. apply Hconfig. Qed.

Lemma frame_invoke cb arg : frame R (PubSub.invoke host cb arg).
Proof.
  unfold PubSub.invoke. apply frame_bind; [|intros _ w; apply Hcallback].
  apply frame_modify. intros w. apply Hcalls.
Qed.

#[local] Hint Resolve frame_call_config frame_invoke : frames.

Lemma frame_forEach items body :
  (forall item, frame R (body item)) -> frame R (PubSub.forEach items body).
Proof.
  intros Hb. induction items as [|item items IH]; simpl; repeat frame_step.
Qed.

Lemma frame_publish this current next :
  frame R (PubSub.publish host this current next).
Proof.
  unfold PubSub.publish. frame_step; [frame_step|].
  destruct (negb _); [frame_step|]. destruct (negb _); [frame_step|].
  apply frame_forEach. intros item. unfold PubSub.notify. repeat frame_step.
  destruct (negb _); frame_step.
Qed.

End Publish.

(** ** What may change the identity of an instance *)

Section Identity.

Lemma identity_clone v : frame same_identity (Store.clone v).
Proof. by apply frame_clone. Qed.

Lemma identity_state this : frame same_identity (Store.state this).
Proof. by apply frame_state. Qed.

Lemma identity_save this : frame same_identity (Store.saveStateToLocalStorage this).
Proof. by apply frame_save. Qed.

Lemma identity_on_heap {A} (f : list cell -> res (A * list cell)) :
  frame same_identity (on_heap f).
Proof. by apply frame_on_heap_any. Qed.

Lemma identity_alloc c : frame same_identity (alloc c).
Proof. by apply frame_alloc. Qed.

Lemma identity_console_log msg : frame same_identity (console_log msg).
Proof. by apply frame_console_log. Qed.

Lemma identity_setTimeout this : frame same_identity (Store.setTimeout this).
Proof. by apply frame_setTimeout. Qed.

Lemma identity_publish host this current next :
  frame same_identity (PubSub.publish host this current next).
Proof. by apply frame_publish. Qed.

Lemma map_insert_same {A B} (f : A -> B) (xs : list A) i x y :
  xs !! i = Some x -> f y = f x -> map f (<[i := y]> xs) = map f xs.
Proof.
  intros Hx Hf. rewrite list_fmap_insert.
  fold (fmap f xs). apply list_insert_id.
  by rewrite list_lookup_fmap, Hx, Hf.
Qed.

Lemma identity_set_internalState this v :
  frame same_identity (set_internalState this v).
Proof.
  intros w. unfold set_internalState.
  destruct (stores w !! this) as [s|] eqn:Es; simpl; [|reflexivity].
  unfold same_identity, names. simpl.
  by rewrite !(map_insert_same _ _ _ _ _ Es).
Qed.

#[local] Hint Resolve identity_clone identity_state identity_save
  identity_on_heap identity_alloc identity_console_log identity_setTimeout
  identity_publish identity_set_internalState : frames.

Lemma identity_load this :
  frame same_identity (Store.loadStateFromLocalStorage this).
Proof.
  unfold Store.loadStateFromLocalStorage. frame_step; [frame_step|].
  destruct (window a) as [ls|]; repeat frame_step.
  destruct (Store.text_truthy _); [|frame_step].
  destruct (items ls !! _) as [[j| |]|]; repeat frame_step.
Qed.

Lemma identity_mutation this props : frame same_identity (mutation this props).
Proof.
  unfold mutation.
  destruct (Store.truthy _); simpl; [repeat frame_step|].
  destruct (bool_decide _); repeat frame_step.
Qed.

Lemma identity_after_mutation this : frame same_identity (after_mutation this).
Proof. unfold after_mutation. repeat frame_step. Qed.

Lemma identity_setState this props :
  frame same_identity (Store.setState this props).
Proof.
  rewrite setState_eq. frame_step; [frame_step|].
  destruct (_ && _); [frame_step|].
  frame_step; [apply identity_mutation|intros; apply identity_after_mutation].
Qed.

Lemma identity_createSlice host this slice :
  frame same_identity (Store.createSlice host this slice).
Proof.
  unfold Store.createSlice. destruct (negb _); [frame_step|].
  destruct (CreateSliceProps.name slice); try solve [frame_step].
  frame_step; [frame_step|].
  frame_step; [destruct (CreateSliceProps.initialState slice); frame_step|].
  repeat frame_step.
Qed.

Lemma identity_timer_callback host this :
  frame same_identity (Store.timer_callback host this).
Proof. unfold Store.timer_callback. repeat frame_step. Qed.

Lemma identity_run_timer host : frame same_identity (Store.run_timer host).
Proof.
  unfold Store.run_timer. frame_step; [frame_step|].
  destruct (timers a); [frame_step|].
  frame_step; [by apply frame_modify|].
  apply frame_detach, identity_timer_callback.
Qed.

End Identity.

Lemma same_identity_lookup w w' this s :
  same_identity w w' -> stores w !! this = Some s ->
  exists s', stores w' !! this = Some s' /\
             _storeName s' = _storeName s /\ _pubSub s' = _pubSub s.
Proof.
  intros (Hn & Hp & _) Hs. unfold names in Hn.
  assert (map _storeName (stores w') !! this = Some (_storeName s)) as Hn'.
  { rewrite Hn. fold (fmap _storeName (stores w)).
    by rewrite list_lookup_fmap, Hs. }
  fold (fmap _storeName (stores w')) in Hn'.
  rewrite list_lookup_fmap in Hn'.
  destruct (stores w' !! this) as [s'|] eqn:Es'; [|done].
  exists s'. split; [done|]. split; [by injection Hn'|].
  assert (map _pubSub (stores w') !! this = Some (_pubSub s)) as Hp'.
  { rewrite Hp. fold (fmap _pubSub (stores w)).
    by rewrite list_lookup_fmap, Hs. }
  fold (fmap _pubSub (stores w')) in Hp'.
  rewrite list_lookup_fmap, Es' in Hp'. by injection Hp'.
Qed.

(** ** Persistence *)

Lemma save_no_window this w :
  window w = None -> Store.saveStateToLocalStorage this w = (Ok tt, w).
Proof. intros Hw. unfold Store.saveStateToLocalStorage, bind, get. by rewrite Hw. Qed.

Lemma save_window this w ls s j :
  window w = Some ls ->
  stores w !! this = Some s ->
  JSON_stringify (heap w) (_internalState s) = Ok (Some j) ->
  Store.saveStateToLocalStorage this w
  = if quota_exceeded ls
    then (Throw (Error (StringOf QuotaExceededError)),
          set_console (console w ++ [ "Saving state to local storage...";
                                      "Error saving state to local storage:" ])
            (set_heap (snd (JSON_parse j (heap w))) w))
    else (Ok tt,
          set_window (Some {| items := <[_storeName s := TJson j]> (items ls);
                              quota_exceeded := false |})
            (set_console (console w ++ [ "Saving state to local storage..." ])
               (set_heap (snd (JSON_parse j (heap w))) w))).
Proof.
  intros Hw Hs Hj.
  unfold Store.saveStateToLocalStorage. unfold bind at 1. unfold get at 1.
  rewrite Hw. unfold try_catch.
  rewrite (bind_Ok _ _ _ _ _ (state_Ok _ _ _ _ Hs Hj)).
  destruct (JSON_parse j (heap w)) as [snapshot h1] eqn:Ep. cbn [fst snd].
  erewrite bind_Ok.
  2:{ apply read_heap_Ok. cbn [heap set_heap].
      eapply JSON_parse_stringify; [exact Ep|apply extends_refl]. }
  unfold bind, console_log, modify, get_store, Store.localStorage_setItem, throw.
  simpl. rewrite Hs. simpl. rewrite Hw.
  destruct (quota_exceeded ls) eqn:Eq.
  - cbn. by rewrite <- app_assoc.
  - done.
Qed.

Lemma save_inv_Ok this w w' ls s :
  Store.saveStateToLocalStorage this w = (Ok tt, w') ->
  window w = Some ls ->
  stores w !! this = Some s ->
  exists j,
    JSON_stringify (heap w) (_internalState s) = Ok (Some j) /\
    quota_exceeded ls = false /\
    w' = set_window (Some {| items := <[_storeName s := TJson j]> (items ls);
                             quota_exceeded := false |})
           (set_console (console w ++ [ "Saving state to local storage..." ])
              (set_heap (snd (JSON_parse j (heap w))) w)).
Proof.
  intros Hsave Hw Hs.
  destruct (JSON_stringify (heap w) (_internalState s)) as [[j|]| |] eqn:E.
  - rewrite (save_window _ _ _ _ _ Hw Hs E) in Hsave.
    destruct (quota_exceeded ls); [done|]. injection Hsave as <-. by exists j.
  - revert Hsave. unfold Store.saveStateToLocalStorage. unfold bind at 1. unfold get at 1.
    rewrite Hw. unfold try_catch, Store.state, bind, get_store. rewrite Hs.
    unfold Store.clone, on_heap, cloneObject. by rewrite E.
  - revert Hsave. unfold Store.saveStateToLocalStorage. unfold bind at 1. unfold get at 1.
    rewrite Hw. unfold try_catch, Store.state, bind, get_store. rewrite Hs.
    unfold Store.clone, on_heap, cloneObject. by rewrite E.
  - revert Hsave. unfold Store.saveStateToLocalStorage. unfold bind at 1. unfold get at 1.
    rewrite Hw. unfold try_catch, Store.state, bind, get_store. rewrite Hs.
    unfold Store.clone, on_heap, cloneObject. by rewrite E.
Qed.

Lemma setState_inv this props w r w' :
  Store.setState this props w = (Ok r, w') ->
  (negb (Store.truthy (SetStateProps.slice props))
   && negb (isObject (heap w) (SetStateProps.value props)) = false) /\
  exists w1, mutation this props w = (Ok tt, w1) /\
             after_mutation this w1 = (Ok r, w').
Proof.
  rewrite setState_eq. unfold bind at 1. unfold get at 1.
  destruct (_ && _); [done|]. intros Hb. split; [done|].
  apply bind_inv_Ok in Hb as ([] & w1 & Hm & Ha). eauto.
Qed.

Lemma after_mutation_inv this w1 r w' :
  after_mutation this w1 = (Ok r, w') ->
  exists w3,
    Store.saveStateToLocalStorage this
      (set_timers (timers w1 ++ [this]) w1) = (Ok tt, w3) /\
    Store.state this w3 = (Ok r, w').
Proof.
  unfold after_mutation. unfold bind at 1. unfold Store.setTimeout at 1.
  unfold modify at 1.
  intros ([] & w3 & Hsv & Hst)%bind_inv_Ok. eauto.
Qed.

Lemma setState_Ok_leaves this props w r w' s :
  Store.setState this props w = (Ok r, w') ->
  stores w !! this = Some s ->
  exists j,
    JSON_stringify (heap w') r = Ok (Some j) /\
    state_text this w' = Ok (Some j) /\
    timers w' = timers w ++ [this] /\
    match window w with
    | None => window w' = None
    | Some ls =>
        window w' = Some {| items := <[_storeName s := TJson j]> (items ls);
                            quota_exceeded := false |}
    end.
Proof.
  intros (_ & w1 & Hm & Ha)%setState_inv Hs.
  pose proof (identity_mutation this props w) as Hid. rewrite Hm in Hid.
  simpl in Hid.
  destruct (same_identity_lookup _ _ _ _ Hid Hs) as (s1 & Hs1 & Hn1 & _).
  pose proof (frame_mutation (R := unchanged window)
                ltac:(done) ltac:(done) this props w) as Hw1.
  pose proof (frame_mutation (R := unchanged timers)
                ltac:(done) ltac:(done) this props w) as Ht1.
  rewrite Hm in Hw1, Ht1. unfold unchanged in Hw1, Ht1. simpl in Hw1, Ht1.
  apply after_mutation_inv in Ha as (w3 & Hsv & Hst).
  apply state_inv in Hst as (s3 & j & h' & Hs3 & Hj3 & Hp & ->).
  exists j. cbn [heap set_heap timers window].
  assert (JSON_stringify h' r = Ok (Some j)) as Hr.
  { eapply JSON_parse_stringify; [exact Hp|apply extends_refl]. }
  split; [done|]. split.
  { eapply state_text_of; [exact Hs3|]. cbn [heap set_heap].
    eapply JSON_stringify_extends; [exact Hj3|]. by eapply JSON_parse_extends. }
  destruct (window w) as [ls|] eqn:Ew.
  - eapply save_inv_Ok in Hsv as (j2 & Hj2 & Hq & Hw3); [|exact Hw1|exact Hs1].
    subst w3.
    cbn [heap set_heap stores set_window set_console set_timers timers window] in *.
    rewrite Hs1 in Hs3. injection Hs3 as <-.
    assert (j2 = j) as ->.
    { destruct (JSON_parse j2 (heap w1)) as [v2 h2] eqn:E2.
      eapply JSON_stringify_extends in Hj2; [|by eapply JSON_parse_extends].
      simpl in *. congruence. }
    by rewrite Ht1, Hn1.
  - rewrite save_no_window in Hsv by done. injection Hsv as <-.
    cbn [timers set_timers window]. by rewrite Ht1.
Qed.

(** X8. What a completed [setState] leaves behind: the value it resolves
    with is a copy of the new state; where there is a [localStorage], the
    item under the name of the store holds the text of that state and
    every other item is as it was; and one notification has been
    scheduled. *)
Theorem X8_setState_persists_what_it_returns this props w r w' s :
  Store.setState this props w = (Ok r, w') ->
  stores w !! this = Some s ->
  exists j,
    JSON_stringify (heap w') r = Ok (Some j) /\
    state_text this w' = Ok (Some j) /\
    timers w' = timers w ++ [this] /\
    match window w with
    | None => window w' = None
    | Some ls =>
        window w' = Some {| items := <[_storeName s := TJson j]> (items ls);
                            quota_exceeded := false |}
    end.
Proof. apply setState_Ok_leaves. Qed.

(** X9. When [localStorage] refuses the write, no [setState] completes:
    the promise is rejected. The update is not undone, though: after
    [setState({ value: v, replace: true })] is rejected with the [Error]
    made of the storage's exception, [new Error(e)], whose message is
    [String(e)], the state of the store is [v], the notification is
    scheduled, and the storage is as it was. *)
Theorem X9_setState_keeps_the_update_when_saving_fails
  this (v : val) w s ls j :
  stores w !! this = Some s ->
  window w = Some ls ->
  quota_exceeded ls = true ->
  isObject (heap w) v = true ->
  JSON_stringify (heap w) v = Ok (Some j) ->
  (forall props r w', Store.setState this props w = (r, w') -> forall x, r <> Ok x) /\
  exists w',
    Store.setState this
      {| SetStateProps.slice := None;
         SetStateProps.value := v;
         SetStateProps.replace := Some true |} w
    = (Throw (Error (StringOf QuotaExceededError)), w') /\
    state_text this w' = Ok (Some j) /\
    timers w' = timers w ++ [this] /\
    window w' = window w.
Proof.
  intros Hs Hw Hq Hv Hj. split.
  - intros props r w' Hset x ->.
    apply setState_inv in Hset as (_ & w1 & Hm & Ha).
    pose proof (identity_mutation this props w) as Hid. rewrite Hm in Hid.
    simpl in Hid.
    destruct (same_identity_lookup _ _ _ _ Hid Hs) as (s1 & Hs1 & _).
    pose proof (frame_mutation (R := unchanged window)
                  ltac:(done) ltac:(done) this props w) as Hw1.
    rewrite Hm in Hw1. unfold unchanged in Hw1. simpl in Hw1.
    apply after_mutation_inv in Ha as (w3 & Hsv & _).
    eapply save_inv_Ok in Hsv as (j2 & _ & Hq2 & _);
      [|simpl; by rewrite Hw1|exact Hs1].
    congruence.
  - set (props := {| SetStateProps.slice := None;
                     SetStateProps.value := v;
                     SetStateProps.replace := Some true |}).
    pose proof (mutation_replace this props w s eq_refl eq_refl Hs) as Hm.
    set (s1 := {| _storeName := _storeName s;
                  _internalState := v;
                  _pubSub := _pubSub s |}) in Hm.
    set (w1 := set_stores (<[this := s1]> (stores w)) w) in Hm.
    assert (stores w1 !! this = Some s1) as Hs1.
    { simpl. apply list_lookup_insert_eq. by eapply lookup_lt_Some. }
    destruct (setState_after this props w w1) as [Hset _]; [|exact Hm|].
    { simpl. by rewrite Hv. }
    rewrite Hset. unfold after_mutation.
    unfold bind at 1. unfold Store.setTimeout at 1. unfold modify at 1.
    erewrite bind_Throw.
    2:{ rewrite (save_window this _ ls s1 j); [by rewrite Hq|done|done|done]. }
    eexists. split; [done|]. split; [|done].
    eapply state_text_of; [exact Hs1|]. cbn [heap set_console set_heap].
    eapply JSON_stringify_extends; [exact Hj|].
    change (heap (set_timers (timers w1 ++ [this]) w1)) with (heap w).
    destruct (JSON_parse j (heap w)) as [v2 h2] eqn:E2.
    by eapply JSON_parse_extends.
Qed.

(** ** Construction *)

Lemma constructor_eq (p : StoreProps.t) (w : world) :
  let name := default "appState" (StoreProps.storeName p) in
  Store.constructor (Some p) w
  = if negb (isObject (heap w) (StoreProps.initialState p))
    then (Throw (Error "initial state must be an object"), w)
    else
      match Store.clone (StoreProps.initialState p) w with
      | (Ok v0, w0) =>
          match storeRegistry w !! name with
          | Some existing =>
              (detach (Store.setState existing
                         {| SetStateProps.slice := None;
                            SetStateProps.value := StoreProps.initialState p;
                            SetStateProps.replace := StoreProps.replace p |}) ;;
               ret existing) w0
          | None =>
              if bool_decide (name = "__proto__")
                 || bool_decide (name ∈ Object_prototype_methods)
              then (Throw TypeError, w0)
              else
                (this <- Store.register {| _storeName := name;
                                           _internalState := v0;
                                           _pubSub := PubSub.new |} ;;
                 Store.loadStateFromLocalStorage this ;;
                 ret this) w0
          end
      | (Throw e, w0) => (Throw e, w0)
      | (Gap g, w0) => (Gap g, w0)
      end.
Proof.
  intros name. unfold Store.constructor.
  unfold bind at 1. unfold ret at 1. unfold bind at 1. unfold get at 1.
  destruct (negb _); [done|].
  unfold bind at 1. unfold Store.storeRegistry_get. fold name.
  destruct (storeRegistry w !! name) as [existing|].
  - unfold bind at 1. by destruct (Store.clone _ w) as [[v0| |] w0].
  - destruct (_ || _).
    + unfold bind at 1. by destruct (Store.clone _ w) as [[v0| |] w0].
    + unfold bind at 1. by destruct (Store.clone _ w) as [[v0| |] w0].
Qed.

Lemma load_eq this w s :
  stores w !! this = Some s ->
  Store.loadStateFromLocalStorage this w
  = match window w with
    | None => (Ok tt, w)
    | Some _ =>
        let w1 := set_console (console w ++ [ "Loading state from local storage..." ]) w in
        match stored (_storeName s) w with
        | Some (TJson j) =>
            (Ok tt,
             set_stores (<[this := {| _storeName := _storeName s;
                                      _internalState := fst (JSON_parse j (heap w));
                                      _pubSub := _pubSub s |}]> (stores w))
               (set_heap (snd (JSON_parse j (heap w))) w1))
        | Some TInvalid =>
              (Ok tt,
               set_console (console w ++
                              [ "Loading state from local storage...";
                                "Error loading state from local storage:";
                                "Setting state to default value...";
                                "Default value set: {}" ])
                 (set_stores (<[this := {| _storeName := _storeName s;
                                          _internalState := VRef (length (heap w));
                                          _pubSub := _pubSub s |}]> (stores w))
                    (set_heap (heap w ++ [CObj []]) w)))
        | Some TEmpty | None => (Ok tt, w1)
        end
    end.
Proof.
  intros Hs. unfold Store.loadStateFromLocalStorage, stored.
  unfold bind at 1. unfold get at 1.
  destruct (window w) as [ls|] eqn:Ew; [|done].
  unfold try_catch. unfold bind at 1. rewrite (get_store_Ok _ _ _ Hs).
  unfold bind at 1. unfold console_log at 1. unfold modify at 1.
  destruct (items ls !! _storeName s) as [[j| |]|] eqn:Ei; simpl.
  - unfold bind, on_heap, set_internalState. simpl.
    destruct (JSON_parse j (heap w)) as [v h']. simpl. by rewrite Hs.
  - done.
  - unfold bind, throw, console_log, modify, alloc, set_internalState. simpl.
    rewrite Hs. simpl. by rewrite <- !app_assoc.
  - done.
Qed.

Lemma constructor_fresh (p : StoreProps.t) (w : world) j0 :
  let name := default "appState" (StoreProps.storeName p) in
  let this := length (stores w) in
  isObject (heap w) (StoreProps.initialState p) = true ->
  JSON_stringify (heap w) (StoreProps.initialState p) = Ok (Some j0) ->
  storeRegistry w !! name = None ->
  name <> "__proto__" ->
  name ∉ Object_prototype_methods ->
  exists w',
    Store.constructor (Some p) w = (Ok this, w') /\
    storeRegistry w' = <[name := this]> (storeRegistry w) /\
    names w' = names w ++ [name] /\
    window w' = window w /\
    extends (heap w) (heap w') /\
    forall H,
      keeps_from (length (heap w)) (heap w') H ->
      state_text this (set_heap H w')
      = Ok (Some match stored name w with
                 | Some (TJson j) => j
                 | Some TInvalid => JObj []
                 | Some TEmpty | None => j0
                 end).
Proof.
  intros name this Hobj Hj0 Hreg Hproto Hmeth.
  rewrite constructor_eq. fold name. rewrite Hobj. simpl.
  rewrite (clone_Ok _ _ _ Hj0), Hreg.
  rewrite bool_decide_eq_false_2, bool_decide_eq_false_2 by done. simpl.
  destruct (JSON_parse j0 (heap w)) as [v0 h0] eqn:E0. cbn [fst snd].
  pose proof (JSON_parse_extends _ _ _ _ E0) as He0.
  pose proof (extends_length _ _ He0) as Hlen0.
  unfold bind at 1. unfold Store.register at 1. cbn [stores set_heap].
  fold this.
  set (s0 := {| _storeName := name; _internalState := v0; _pubSub := PubSub.new |}).
  set (w0 := set_storeRegistry _ _).
  assert (stores w0 !! this = Some s0) as Hs0.
  { simpl. rewrite lookup_app_r by done. by rewrite Nat.sub_diag. }
  assert (forall s1, names (set_stores (<[this := s1]> (stores w0)) w0)
                     = names w ++ [_storeName s1]) as Hnames.
  { intros s1. unfold names. simpl.
    rewrite insert_app_r_alt by done. fold this. rewrite Nat.sub_diag. simpl.
    by rewrite map_app. }
  unfold bind. rewrite (load_eq _ _ _ Hs0).
  change (window w0) with (window w). change (stored (_storeName s0) w0) with (stored name w).
  assert (names w0 = names w ++ [name]) as Hnames0.
  { unfold names. simpl. by rewrite map_app. }
  assert (forall c H', keeps_from (length (heap w)) h0 H' ->
                       state_text this (set_heap H' (set_console c w0)) = Ok (Some j0))
    as Hst0.
  { intros c H' Hk. eapply state_text_of; [exact Hs0|]. simpl.
    by eapply CloneFacts.JSON_parse_stringify_fresh. }
  unfold stored. destruct (window w) as [ls|] eqn:Ew.
  2:{ exists w0. repeat split; try done. intros H' Hk.
      rewrite <- (Hst0 (console w0) H' Hk). by destruct w0. }
  destruct (items ls !! name) as [[j| |]|] eqn:Ei.
  - destruct (JSON_parse j (heap w0)) as [v1 h1] eqn:E1.
    eexists. split; [done|]. cbn [fst snd].
    split; [done|]. split; [|split; [done|split]].
    + apply (Hnames {| _storeName := name; _internalState := v1; _pubSub := PubSub.new |}).
    + simpl. eapply extends_trans; [exact He0|]. by eapply JSON_parse_extends.
    + intros H' Hk. eapply state_text_of.
      * simpl. rewrite list_lookup_insert_eq; [done|]. rewrite length_app. simpl. lia.
      * simpl. eapply CloneFacts.JSON_parse_stringify_fresh; [exact E1|].
        eapply CloneFacts.keeps_from_le; [|exact Hk]. exact Hlen0.
  - eexists. split; [done|]. repeat split; try done. apply Hst0.
  - eexists. split; [done|].
    split; [done|]. split; [|split; [done|split]].
    + apply (Hnames {| _storeName := name;
                       _internalState := VRef (length (heap w0));
                       _pubSub := PubSub.new |}).
    + simpl. eapply extends_trans; [exact He0|]. apply extends_app.
    + intros H' Hk. eapply state_text_of.
      * simpl. rewrite list_lookup_insert_eq; [done|]. rewrite length_app. simpl. lia.
      * simpl.
        apply (CloneFacts.JSON_parse_stringify_fresh (JObj []) h0 _ (h0 ++ [CObj []]));
          [done|].
        eapply CloneFacts.keeps_from_le; [|exact Hk]. exact Hlen0.
  - eexists. split; [done|]. repeat split; try done. apply Hst0.
Qed.

Lemma keeps_from_refl n h : keeps_from n h h.
Proof. by intros l c _. Qed.

(** X10. The first state of a store with a new name. Without a usable
    item under that name in [localStorage] (no storage, no item, or the
    empty text) it is a copy of [initialState]; a stored JSON text takes
    precedence over [initialState], and the state reads as that text
    where the text repeats no key, has no key written with digits only
    and no integer beyond 2^53; a stored text that is not JSON makes the
    state the empty object. In each case the constructor completes and
    the new instance is registered under the name. *)
Theorem X10_constructor_prefers_the_stored_state (p : StoreProps.t) (w : world) j0 :
  let name := default "appState" (StoreProps.storeName p) in
  let this := length (stores w) in
  isObject (heap w) (StoreProps.initialState p) = true ->
  JSON_stringify (heap w) (StoreProps.initialState p) = Ok (Some j0) ->
  storeRegistry w !! name = None ->
  name <> "__proto__" ->
  name ∉ Object_prototype_methods ->
  (forall j, stored name w = Some (TJson j) -> plain_text j = true) ->
  exists w',
    Store.constructor (Some p) w = (Ok this, w') /\
    storeRegistry w' = <[name := this]> (storeRegistry w) /\
    names w' = names w ++ [name] /\
    window w' = window w /\
    state_text this w'
    = Ok (Some match stored name w with
               | Some (TJson j) => j
               | Some TInvalid => JObj []
               | Some TEmpty | None => j0
               end).
Proof.
  intros name this Hobj Hj0 Hreg Hproto Hmeth _.
  destruct (constructor_fresh p w j0 Hobj Hj0 Hreg Hproto Hmeth)
    as (w' & Hc & Hr & Hn & Hw & _ & Hst).
  exists w'. repeat split; try done.
  rewrite <- (set_heap_id w'). apply Hst, keeps_from_refl.
Qed.

(** X20. The state of a new store shares nothing with the caller's
    [initialState] (nor with anything else that existed before): whatever
    is written afterwards to the objects that were there when the
    constructor was called, the store reads as it did when the constructor
    returned. *)
Theorem X20_constructor_copies_initialState (p : StoreProps.t) (w : world) j0 :
  let name := default "appState" (StoreProps.storeName p) in
  let this := length (stores w) in
  isObject (heap w) (StoreProps.initialState p) = true ->
  JSON_stringify (heap w) (StoreProps.initialState p) = Ok (Some j0) ->
  storeRegistry w !! name = None ->
  name <> "__proto__" ->
  name ∉ Object_prototype_methods ->
  exists w',
    Store.constructor (Some p) w = (Ok this, w') /\
    extends (heap w) (heap w') /\
    forall H,
      keeps_from (length (heap w)) (heap w') H ->
      state_text this (set_heap H w') = state_text this w'.
Proof.
  intros name this Hobj Hj0 Hreg Hproto Hmeth.
  destruct (constructor_fresh p w j0 Hobj Hj0 Hreg Hproto Hmeth)
    as (w' & Hc & Hr & Hn & Hw & He & Hst).
  exists w'. split; [done|]. split; [done|].
  intros H Hk. etrans; [by apply Hst|]. symmetry.
  rewrite <- (set_heap_id w') at 1. apply Hst, keeps_from_refl.
Qed.

(** X21. What [setState] saved is what the next session starts from:
    after a completed [setState] with a [localStorage], a store
    constructed under the same name in a world that has that storage and
    no store of that name yet (the page was reloaded) starts in the state
    the first store was left in, whatever [initialState] it is given. *)
Theorem X21_saved_state_is_restored
  this props w r w' s ls (p : StoreProps.t) (w0 : world) j0 :
  Store.setState this props w = (Ok r, w') ->
  stores w !! this = Some s ->
  window w = Some ls ->
  window w0 = window w' ->
  default "appState" (StoreProps.storeName p) = _storeName s ->
  isObject (heap w0) (StoreProps.initialState p) = true ->
  JSON_stringify (heap w0) (StoreProps.initialState p) = Ok (Some j0) ->
  storeRegistry w0 !! _storeName s = None ->
  _storeName s <> "__proto__" ->
  _storeName s ∉ Object_prototype_methods ->
  exists w1,
    Store.constructor (Some p) w0 = (Ok (length (stores w0)), w1) /\
    state_text (length (stores w0)) w1 = state_text this w'.
Proof.
  intros Hset Hs Hw Hw0 Hname Hobj Hj0 Hreg Hproto Hmeth.
  destruct (setState_Ok_leaves _ _ _ _ _ _ Hset Hs) as (j & _ & Hst & _ & Hw').
  rewrite Hw in Hw'. rewrite <- Hname in Hreg, Hproto, Hmeth.
  destruct (constructor_fresh p w0 j0 Hobj Hj0 Hreg Hproto Hmeth)
    as (w1 & Hc & _ & _ & _ & _ & Hst1).
  exists w1. split; [done|]. rewrite Hst.
  rewrite <- (set_heap_id w1). rewrite (Hst1 _ (keeps_from_refl _ _)).
  unfold stored. rewrite Hw0, Hw', Hname. simpl. by rewrite lookup_insert_eq.
Qed.

(** ** The registry *)

Lemma registry_wf_identity w w' :
  same_identity w w' -> registry_wf w -> registry_wf w'.
Proof.
  intros (Hn & _ & Hr) Hwf name this. rewrite Hr, Hn. apply Hwf.
Qed.

Lemma registry_wf_register w s :
  registry_wf w -> registry_wf (snd (Store.register s w)).
Proof.
  intros Hwf name this. unfold Store.register, names. simpl.
  rewrite map_app. simpl.
  destruct (decide (_storeName s = name)) as [<-|Hne].
  - rewrite lookup_insert_eq. intros [= <-].
    rewrite lookup_app_r by (by rewrite length_map).
    by rewrite length_map, Nat.sub_diag.
  - rewrite lookup_insert_ne by done. intros Hl%Hwf.
    by apply lookup_app_l_Some.
Qed.

(** X11. Using a store never changes which stores there are: [setState]
    (also with [replace: true]), [createSlice] and the scheduled
    notification leave the name of every instance, its list of
    subscriptions and the registry as they were. *)
Theorem X11_updates_keep_names_and_subscriptions host this props slice w :
  same_identity w (snd (Store.setState this props w)) /\
  same_identity w (snd (Store.createSlice host this slice w)) /\
  same_identity w (snd (Store.run_timer host w)).
Proof.
  split; [apply identity_setState|].
  split; [apply identity_createSlice|apply identity_run_timer].
Qed.

(** X12. The registry stays consistent under construction: if every name
    in it leads to an instance of that name, so it is after [new
    Store(props)], however the constructor ends; and the instance the
    constructor returns is registered under the requested name (or
    ["appState"]) and carries it. *)
Theorem X12_constructor_keeps_the_registry_consistent (p : StoreProps.t) (w : world) :
  let name := default "appState" (StoreProps.storeName p) in
  registry_wf w ->
  registry_wf (snd (Store.constructor (Some p) w)) /\
  forall this,
    fst (Store.constructor (Some p) w) = Ok this ->
    storeRegistry (snd (Store.constructor (Some p) w)) !! name = Some this /\
    names (snd (Store.constructor (Some p) w)) !! this = Some name.
Proof.
  intros name Hwf.
  cut (registry_wf (snd (Store.constructor (Some p) w)) /\
       forall this,
         fst (Store.constructor (Some p) w) = Ok this ->
         storeRegistry (snd (Store.constructor (Some p) w)) !! name = Some this).
  { intros [Hwf' Hreg]. split; [done|]. intros this Hok.
    split; [by apply Hreg|]. by apply Hwf', Hreg. }
  destruct (Store.constructor (Some p) w) as [r w'] eqn:Hc. cbn [fst snd].
  rewrite constructor_eq in Hc. fold name in Hc.
  destruct (negb _); [by injection Hc as <- <-|].
  pose proof (identity_clone (StoreProps.initialState p) w) as Hid0.
  destruct (Store.clone _ w) as [[v0| |] w0]; simpl in Hid0;
    [|injection Hc as <- <-; split; [by eapply registry_wf_identity|done]..].
  pose proof (registry_wf_identity _ _ Hid0 Hwf) as Hwf0.
  destruct Hid0 as (_ & _ & Hr0).
  destruct (storeRegistry w !! name) as [existing|] eqn:Er.
  - set (q := {| SetStateProps.slice := None;
                 SetStateProps.value := StoreProps.initialState p;
                 SetStateProps.replace := StoreProps.replace p |}) in Hc.
    pose proof (identity_setState existing q w0) as Hid1.
    unfold bind, detach, ret in Hc.
    destruct (Store.setState existing q w0) as [[r1| |] w1]; simpl in Hid1;
      injection Hc as <- <-;
      (split; [by eapply registry_wf_identity|]); try done.
    + intros this [= <-]. destruct Hid1 as (_ & _ & ->). by rewrite Hr0.
    + intros this [= <-]. destruct Hid1 as (_ & _ & ->). by rewrite Hr0.
  - destruct (_ || _); [by injection Hc as <- <-|].
    set (s0 := {| _storeName := name; _internalState := v0; _pubSub := PubSub.new |}) in Hc.
    pose proof (registry_wf_register w0 s0 Hwf0) as Hwf1.
    unfold bind, ret, Store.register in Hc.
    match type of Hc with
    | context [Store.loadStateFromLocalStorage ?i ?ww] =>
        pose proof (identity_load i ww) as Hid2;
        destruct (Store.loadStateFromLocalStorage i ww) as [[[]| |] w2]
    end; simpl in Hid2; injection Hc as <- <-;
      (split; [eapply registry_wf_identity; [exact Hid2|exact Hwf1]|]); try done.
    intros this [= <-]. destruct Hid2 as (_ & _ & ->).
    simpl. apply lookup_insert_eq.
Qed.

#[global] Instance keeps_instances_preorder : PreOrder keeps_instances.
Proof.
  split.
  - intros w i s Hs. eauto.
  - intros w1 w2 w3 H12 H23 i s Hs.
    destruct (H12 _ _ Hs) as (s2 & Hs2 & Hn2 & Hp2).
    destruct (H23 _ _ Hs2) as (s3 & Hs3 & Hn3 & Hp3).
    exists s3. split; [done|]. split; congruence.
Qed.

Lemma keeps_instances_identity w w' : same_identity w w' -> keeps_instances w w'.
Proof. intros Hid i s Hs. by eapply same_identity_lookup. Qed.

(** X22. Constructing a store never costs an existing store its name or
    its subscribers, whatever the name asked for and however the
    constructor ends: every instance there was is still there, under the
    same name and with the same list of subscriptions. In particular, for
    a name already registered, the notifier the constructor creates is
    dropped and the registered instance keeps its own. *)
Theorem X22_constructor_keeps_the_subscriptions (p : StoreProps.t) (w : world) :
  keeps_instances w (snd (Store.constructor (Some p) w)).
Proof.
  destruct (Store.constructor (Some p) w) as [r w'] eqn:Hc. cbn [snd].
  rewrite constructor_eq in Hc.
  destruct (negb _); [injection Hc as <- <-; reflexivity|].
  pose proof (identity_clone (StoreProps.initialState p) w) as Hid0.
  apply keeps_instances_identity in Hid0.
  destruct (Store.clone _ w) as [[v0| |] w0]; simpl in Hid0;
    [|by injection Hc as <- <-..].
  destruct (storeRegistry w !! _) as [existing|] eqn:Er.
  - set (q := {| SetStateProps.slice := None;
                 SetStateProps.value := StoreProps.initialState p;
                 SetStateProps.replace := StoreProps.replace p |}) in Hc.
    pose proof (identity_setState existing q w0) as Hid1.
    apply keeps_instances_identity in Hid1.
    unfold bind, detach, ret in Hc.
    destruct (Store.setState existing q w0) as [[r1| |] w1]; simpl in Hid1;
      injection Hc as <- <-; by etrans.
  - destruct (_ || _); [by injection Hc as <- <-|].
    unfold bind, ret, Store.register in Hc.
    match type of Hc with
    | context [Store.loadStateFromLocalStorage ?i ?ww] =>
        pose proof (identity_load i ww) as Hid2;
        apply keeps_instances_identity in Hid2;
        assert (keeps_instances w0 ww) as Hreg;
        [|destruct (Store.loadStateFromLocalStorage i ww) as [[[]| |] w2]]
    end.
    { intros i s Hs. exists s. split; [|done]. simpl. by apply lookup_app_l_Some. }
    all: simpl in Hid2; injection Hc as <- <-;
      etrans; [exact Hid0|]; etrans; [exact Hreg|exact Hid2].
Qed.

(** X23. No store can be named after something every object inherits
    ("toString", "constructor", "__proto__", ...): the registry is an
    ordinary object, so under such a name it finds a value that is not a
    store, and the constructor throws a [TypeError] when it calls
    [setState] on it. Nothing is registered and no instance is made. For
    every other unregistered name the constructor completes. *)
Theorem X23_constructor_refuses_inherited_names (p : StoreProps.t) (w : world) j0 :
  let name := default "appState" (StoreProps.storeName p) in
  isObject (heap w) (StoreProps.initialState p) = true ->
  JSON_stringify (heap w) (StoreProps.initialState p) = Ok (Some j0) ->
  storeRegistry w !! name = None ->
  (inherited name ->
   fst (Store.constructor (Some p) w) = Throw TypeError /\
   stores (snd (Store.constructor (Some p) w)) = stores w /\
   storeRegistry (snd (Store.constructor (Some p) w)) = storeRegistry w) /\
  (~ inherited name ->
   fst (Store.constructor (Some p) w) = Ok (length (stores w))).
Proof.
  intros name Hobj Hj0 Hreg. split.
  - intros Hin. rewrite constructor_eq. fold name. rewrite Hobj. simpl.
    rewrite (clone_Ok _ _ _ Hj0), Hreg.
    assert (bool_decide (name = "__proto__")
            || bool_decide (name ∈ Object_prototype_methods) = true) as ->; [|done].
    destruct Hin as [Hp|Hm].
    + by rewrite (bool_decide_eq_true_2 _ Hp).
    + rewrite (bool_decide_eq_true_2 _ Hm). apply orb_true_r.
  - intros Hnot.
    destruct (constructor_fresh p w j0 Hobj Hj0 Hreg) as (w' & Hc & _).
    + intros Hp. apply Hnot. by left.
    + intros Hm. apply Hnot. by right.
    + by rewrite Hc.
Qed.

(** ** Slices *)

Lemma state_text_inv this w t :
  state_text this w = Ok t ->
  exists s j, stores w !! this = Some s /\
              JSON_stringify (heap w) (_internalState s) = Ok (Some j) /\
              t = Some j.
Proof.
  unfold state_text.
  destruct (Store.state this w) as [[snapshot| |] w1] eqn:E; [|done..].
  apply state_inv in E as (s & j & h' & Hs & Hj & Hp & ->). simpl.
  rewrite (JSON_parse_stringify _ _ _ _ _ Hp (extends_refl _)).
  intros [= <-]. eauto.
Qed.

Lemma parse_elems_length js : forall h vs h',
  parse_elems JSON_parse js h = (vs, h') -> length vs = length js.
Proof.
  induction js as [|j js IH]; intros h vs h'; simpl.
  - by intros [= <- _].
  - destruct (JSON_parse j h) as [v h1].
    destruct (parse_elems JSON_parse js h1) as [vs' h2] eqn:E.
    intros [= <- _]. simpl. f_equal. by eapply IH.
Qed.

Lemma parse_props_length ps : forall h qs h',
  parse_props JSON_parse ps h = (qs, h') -> length qs = length ps.
Proof.
  induction ps as [|[k j] ps IH]; intros h qs h'; simpl.
  - by intros [= <- _].
  - destruct (JSON_parse j h) as [v h1].
    destruct (parse_props JSON_parse ps h1) as [qs' h2] eqn:E.
    intros [= <- _]. simpl. f_equal. by eapply IH.
Qed.

(** The value [JSON.parse] returns, by the shape of the text. *)
Lemma JSON_parse_shape j h v h' :
  JSON_parse j h = (v, h') ->
  match j with
  | JNull => v = VNull /\ h' = h
  | JBool b => v = VBool b /\ h' = h
  | JNum n => v = VNum n /\ h' = h
  | JStr t => v = VStr t /\ h' = h
  | JArr js =>
      exists l vs, v = VRef l /\ length h <= l /\
                   h' !! l = Some (CArr vs) /\ length vs = length js
  | JObj ps =>
      exists l qs, v = VRef l /\ length h <= l /\
                   h' !! l = Some (CObj qs) /\ length qs = length ps
  end.
Proof.
  destruct j as [| | | |js|ps]; simpl; try by intros [= <- <-].
  - destruct (parse_elems JSON_parse js h) as [vs h1] eqn:E. intros [= <- <-].
    destruct (parse_elems_spec js (CloneFacts.all_parse_ok id js) _ _ _ E)
      as ([new ->] & _).
    exists (length (h ++ new)), vs. split; [done|].
    split; [rewrite length_app; lia|]. split.
    + rewrite lookup_app_r by lia. by rewrite Nat.sub_diag.
    + by eapply parse_elems_length.
  - destruct (parse_props JSON_parse ps h) as [qs h1] eqn:E. intros [= <- <-].
    destruct (parse_props_spec ps (CloneFacts.all_parse_ok snd ps) _ _ _ E)
      as ([new ->] & _).
    exists (length (h ++ new)), qs. split; [done|].
    split; [rewrite length_app; lia|]. split.
    + rewrite lookup_app_r by lia. by rewrite Nat.sub_diag.
    + by eapply parse_props_length.
Qed.

Lemma length_nil_inv {A B} (xs : list A) (ys : list B) :
  length xs = length ys ->
  match ys with [] => xs = [] | _ :: _ => exists x xs', xs = x :: xs' end.
Proof. destruct xs, ys; simpl; intros; try done; eauto. Qed.

(** [Object.assign] on two copies does what [Object_assign_text] says,
    and writes to the first copy only. *)
Lemma Object_assign_copies jx jv h1 target h2 source h3 :
  JSON_parse jx h1 = (target, h2) ->
  JSON_parse jv h2 = (source, h3) ->
  match Object_assign_text jx jv with
  | Ok _ =>
      exists h4, Object_assign h3 target source = Ok (target, h4) /\
                 length h4 = length h3 /\
                 forall l, l < length h1 -> h4 !! l = h3 !! l
  | Throw e => Object_assign h3 target source = Throw e
  | Gap g => Object_assign h3 target source = Gap g
  end.
Proof.
  intros Hx Hv.
  pose proof (JSON_parse_extends _ _ _ _ Hv) as He.
  apply JSON_parse_shape in Hx. apply JSON_parse_shape in Hv.
  assert (forall lt c, length h1 <= lt ->
            exists h4, Ok (target, <[lt := c]> h3) = Ok (target, h4) /\
                       length h4 = length h3 /\
                       forall l, l < length h1 -> h4 !! l = h3 !! l) as Hins.
  { intros lt c Hlt. eexists. split; [done|]. split; [by rewrite length_insert|].
    intros l Hl. apply list_lookup_insert_ne. lia. }
  destruct jx as [| | |t|es|ps]; simpl.
  - by destruct Hx as [-> _].
  - destruct Hx as [-> _]. simpl. eauto.
  - destruct Hx as [-> _]. simpl. eauto.
  - destruct Hx as [-> ->].
    destruct jv as [| | |u|js|qs]; simpl.
    + destruct Hv as [-> _]. simpl. eauto.
    + destruct Hv as [-> _]. simpl. eauto.
    + destruct Hv as [-> _]. simpl. eauto.
    + destruct Hv as [-> _]. simpl. destruct (_ || _); eauto.
    + destruct Hv as (l & vs & -> & _ & Hl & Hlen). simpl. rewrite Hl.
      apply length_nil_inv in Hlen. destruct js as [|j js].
      * subst vs. eauto.
      * destruct Hlen as (x & vs' & ->). case_bool_decide; eauto.
    + destruct Hv as (l & qs' & -> & _ & Hl & Hlen). simpl. rewrite Hl.
      apply length_nil_inv in Hlen. destruct qs as [|q qs].
      * subst qs'. eauto.
      * by destruct Hlen as (x & qs'' & ->).
  - destruct Hx as (lt & es' & -> & Hlt & Hcell & _). simpl.
    rewrite (He _ _ Hcell).
    destruct jv as [| | |u|js|qs]; simpl.
    + destruct Hv as [-> _]. eauto.
    + destruct Hv as [-> _]. eauto.
    + destruct Hv as [-> _]. eauto.
    + destruct Hv as [-> _]. case_bool_decide; eauto.
    + destruct Hv as (l & vs & -> & _ & Hl & _). rewrite Hl. by apply Hins.
    + destruct Hv as (l & qs' & -> & _ & Hl & Hlen). rewrite Hl.
      apply length_nil_inv in Hlen. destruct qs as [|q qs].
      * subst qs'. eauto.
      * by destruct Hlen as (x & qs'' & ->).
  - destruct Hx as (lt & tq & -> & Hlt & Hcell & _). simpl.
    rewrite (He _ _ Hcell).
    destruct jv as [| | |u|js|qs]; simpl.
    + destruct Hv as [-> _]. by apply Hins.
    + destruct Hv as [-> _]. by apply Hins.
    + destruct Hv as [-> _]. by apply Hins.
    + destruct Hv as [-> _]. simpl. case_bool_decide; [by apply Hins|done].
    + destruct Hv as (l & vs & -> & _ & Hl & Hlen). simpl. rewrite Hl.
      apply length_nil_inv in Hlen. destruct js as [|j js].
      * subst vs. by apply Hins.
      * by destruct Hlen as (x & vs' & ->).
    + destruct Hv as (l & qs' & -> & _ & Hl & _). simpl. rewrite Hl.
      by apply Hins.
Qed.

(** The first statements of the slice branch: a copy of the state is
    made and the slice is read from it. *)
Lemma slice_current this props w s js key :
  SetStateProps.slice props = Some key ->
  key <> "" ->
  stores w !! this = Some s ->
  JSON_stringify (heap w) (_internalState s) = Ok (Some (JObj js)) ->
  (json_get js key = None -> key <> "__proto__") ->
  exists copy h1 cx,
    JSON_parse (JObj js) (heap w) = (copy, h1) /\
    match json_get js key with
    | Some jx => forall H, extends h1 H -> JSON_stringify H cx = Ok (Some jx)
    | None => left_out cx
    end /\
    mutation this props w
    = (target <- Store.clone cx ;;
       source <- Store.clone (SetStateProps.value props) ;;
       nextState <- on_heap (fun h => Object_assign h target source) ;;
       s <- get_store this ;;
       fresh <- Store.clone (SetStateProps.value props) ;;
       on_heap (fun h => res_map (fun h' => (tt, h'))
                                 (js_set h (_internalState s) key fresh)))
        (set_heap h1 w).
Proof.
  intros Hslice Hkey Hs Hj Hproto.
  destruct (JSON_parse (JObj js) (heap w)) as [copy h1] eqn:E1.
  destruct (JSON_parse_obj _ _ _ _ E1) as (lc & qs & -> & Hlc & Hcell1 & Hal1).
  pose proof (CloneFacts.aligned_lookup _ _ _ key Hal1) as Hq.
  assert (exists cx, js_get h1 (VRef lc) key = Ok cx /\
            match json_get js key with
            | Some jx => forall H, extends h1 H -> JSON_stringify H cx = Ok (Some jx)
            | None => left_out cx
            end) as (cx & Hget & Hcx).
  { unfold js_get. rewrite Hcell1.
    destruct (json_get js key) as [jx|].
    - destruct Hq as (x & -> & Hx). eauto.
    - rewrite Hq. rewrite bool_decide_eq_false_2 by auto.
      case_bool_decide; eexists; (split; [done|]); [right|left]; eauto. }
  exists (VRef lc), h1, cx. split; [done|]. split; [done|].
  unfold mutation. rewrite Hslice. simpl.
  rewrite (bool_decide_eq_false_2 _ Hkey). simpl.
  rewrite (bind_Ok _ _ _ _ _ (get_store_Ok _ _ _ Hs)).
  rewrite (bind_Ok _ _ _ _ _ (clone_Ok _ _ _ Hj)), E1. cbn [fst snd].
  by erewrite bind_Ok; [|apply read_heap_Ok; cbn [heap set_heap]; exact Hget].
Qed.

Lemma clone_left_out v w :
  left_out v -> Store.clone v w = (Throw SyntaxError, w).
Proof.
  intros Hv. unfold Store.clone, on_heap, cloneObject, JSON_stringify.
  by rewrite (CloneFacts.ser_left_out _ _ _ _ Hv).
Qed.

Lemma setState_slice_Throw this key v replace w e w' :
  key <> "" ->
  mutation this {| SetStateProps.slice := Some key;
                   SetStateProps.value := v;
                   SetStateProps.replace := replace |} w = (Throw e, w') ->
  Store.setState this {| SetStateProps.slice := Some key;
                         SetStateProps.value := v;
                         SetStateProps.replace := replace |} w = (Throw e, w').
Proof.
  intros Hkey Hm. rewrite setState_eq. unfold bind at 1. unfold get at 1.
  simpl. rewrite (bool_decide_eq_false_2 _ Hkey). simpl.
  by rewrite (bind_Throw _ _ _ _ _ Hm).
Qed.


(** The slice branch up to [Object.assign]. *)
Lemma slice_assign this props w s js key jx jv :
  SetStateProps.slice props = Some key ->
  key <> "" ->
  stores w !! this = Some s ->
  JSON_stringify (heap w) (_internalState s) = Ok (Some (JObj js)) ->
  json_get js key = Some jx ->
  JSON_stringify (heap w) (SetStateProps.value props) = Ok (Some jv) ->
  exists h3,
    extends (heap w) h3 /\
    match Object_assign_text jx jv with
    | Ok _ =>
        exists h4,
          extends (heap w) h4 /\
          mutation this props w
          = (s <- get_store this ;;
             fresh <- Store.clone (SetStateProps.value props) ;;
             on_heap (fun h => res_map (fun h' => (tt, h'))
                                       (js_set h (_internalState s) key fresh)))
              (set_heap h4 w)
    | Throw e => mutation this props w = (Throw e, set_heap h3 w)
    | Gap g => mutation this props w = (Gap g, set_heap h3 w)
    end.
Proof.
  intros Hslice Hkey Hs Hj Hjx Hjv.
  destruct (slice_current this props w s js key)
    as (copy & h1 & cx & E1 & Hcx & Hm); try done.
  { by rewrite Hjx. }
  rewrite Hjx in Hcx.
  pose proof (JSON_parse_extends _ _ _ _ E1) as He1.
  destruct (JSON_parse jx h1) as [target h2] eqn:E2.
  pose proof (JSON_parse_extends _ _ _ _ E2) as He2.
  destruct (JSON_parse jv h2) as [source h3] eqn:E3.
  pose proof (JSON_parse_extends _ _ _ _ E3) as He3.
  assert (extends (heap w) h3) as He.
  { eapply extends_trans; [exact He1|]. by eapply extends_trans. }
  exists h3. split; [done|].
  erewrite bind_Ok in Hm;
    [|rewrite clone_Ok with (j := jx);
      [cbn [heap set_heap]; by rewrite E2
      |cbn [heap set_heap]; apply Hcx, extends_refl]].
  cbn [fst snd] in Hm.
  erewrite bind_Ok in Hm;
    [|rewrite clone_Ok with (j := jv);
      [cbn [heap set_heap]; by rewrite E3
      |cbn [heap set_heap]; eapply JSON_stringify_extends;
       [exact Hjv|exact (extends_trans _ _ _ He1 He2)]]].
  cbn [fst snd] in Hm.
  pose proof (Object_assign_copies _ _ _ _ _ _ _ E2 E3) as Ha.
  destruct (Object_assign_text jx jv) as [[]|e|g].
  - destruct Ha as (h4 & Ha & Hlen & Hold). exists h4. split.
    + intros l c Hl. rewrite Hold; [by apply He|].
      apply lookup_lt_Some in Hl. apply extends_length in He1. lia.
    + rewrite Hm. by erewrite bind_Ok; [|apply on_heap_Ok; cbn [heap set_heap]; exact Ha].
  - rewrite Hm. unfold bind at 1, on_heap at 1. cbn [heap set_heap]. by rewrite Ha.
  - rewrite Hm. unfold bind at 1, on_heap at 1. cbn [heap set_heap]. by rewrite Ha.
Qed.

(** X14. The slice branch of [setState] computes [Object.assign] of a
    copy of the slice and a copy of the value and discards the result, but
    not its exception: where that [Object.assign] throws (the slice is
    [null]; the slice is a non-empty string and the value a non-empty
    string or array) [setState] rejects with a [TypeError] and the state
    is as it was. *)
Theorem X14_setState_rejects_where_the_unused_merge_throws
  this key (v : val) replace w js jx jv e :
  key <> "" ->
  state_text this w = Ok (Some (JObj js)) ->
  json_get js key = Some jx ->
  JSON_stringify (heap w) v = Ok (Some jv) ->
  Object_assign_text jx jv = Throw e ->
  e = TypeError /\
  exists w',
    Store.setState this {| SetStateProps.slice := Some key;
                           SetStateProps.value := v;
                           SetStateProps.replace := replace |} w
    = (Throw TypeError, w') /\
    state_text this w' = Ok (Some (JObj js)) /\
    stores w' = stores w /\
    timers w' = timers w /\
    window w' = window w.
Proof.
  intros Hkey (s & j & Hs & Hj & [= <-])%state_text_inv Hjx Hjv Ht.
  assert (e = TypeError) as ->.
  { revert Ht. destruct jx as [| | |t| |]; simpl; try done; try congruence.
    - destruct jv as [| | |u|[|? ?]|[|? ?]]; simpl; try done;
        try destruct (_ || _); try case_bool_decide; congruence.
    - destruct jv as [| | |u|[|? ?]|[|? ?]]; simpl; try done;
        case_bool_decide; congruence.
    - destruct jv as [| | |u|[|? ?]|[|? ?]]; simpl; try done;
        case_bool_decide; congruence. }
  split; [done|].
  set (props := {| SetStateProps.slice := Some key;
                   SetStateProps.value := v;
                   SetStateProps.replace := replace |}).
  destruct (slice_assign this props w s js key jx jv)
    as (h3 & He & Hm); try done.
  rewrite Ht in Hm.
  exists (set_heap h3 w). split; [by apply setState_slice_Throw|].
  split; [|done].
  eapply state_text_of; [exact Hs|]. simpl.
  by eapply JSON_stringify_extends.
Qed.

(** The text of an object one property of which was given a fresh copy
    of the text [jv]. *)
Lemma write_slice_text h l m js key jv h4 fresh h5 H :
  h !! l = Some (CObj m) ->
  ser_props (ser (length h) h [l]) m = Ok js ->
  extends h h4 ->
  JSON_parse jv h4 = (fresh, h5) ->
  extends (<[l := CObj (obj_set m key fresh)]> h5) H ->
  exists js',
    JSON_stringify H (VRef l) = Ok (Some (JObj js')) /\
    json_get js' key = Some jv /\
    forall k', k' <> key -> json_get js' k' = json_get js k'.
Proof.
  intros Hl Hjs He4 E5 He.
  pose proof (JSON_parse_extends _ _ _ _ E5) as He5.
  destruct (JSON_parse_spec jv _ _ _ E5) as (_ & Hd5 & Hser5).
  assert (Hlt : l < length h) by by eapply lookup_lt_Some.
  pose proof (extends_length _ _ He4) as Hlen4.
  pose proof (extends_length _ _ He5) as Hlen5.
  pose proof (extends_length _ _ He) as Hlen.
  rewrite length_insert in Hlen.
  assert (Hcell : H !! l = Some (CObj (obj_set m key fresh))).
  { apply He. apply list_lookup_insert_eq. lia. }
  assert (Hoff : forall h0, extends h0 h5 ->
                 forall l' c, l' ∉ [l] -> h0 !! l' = Some c -> H !! l' = Some c).
  { intros h0 He0 l' c Hn Hc. apply He.
    rewrite list_lookup_insert_ne; [by apply He0|].
    intros ->. apply Hn. by left. }
  destruct (ser_props_obj_set (ser (length H) H [l]) m js key fresh jv)
    as (js' & Hjs' & Hget & Hothers).
  { eapply ser_props_impl; [|exact Hjs]. intros x oj Hxs.
    eapply ser_stable; [exact Hxs|lia|done|].
    apply Hoff. by eapply extends_trans. }
  { eapply ser_stable with (n := length H) (h := h5) (st := [l]);
      [|lia|done|by apply Hoff, extends_refl].
    apply Hser5; [lia|apply extends_refl|].
    intros l' ->%list_elem_of_singleton. lia. }
  exists js'. split; [|done].
  apply (JSON_stringify_obj _ _ _ _ Hcell). eauto.
Qed.

(** X15. [setState] on a slice replaces the slice, whatever the old and
    the new value look like, on these pairs, where the unused
    [Object.assign] returns: an old number or boolean with any new value;
    an old mapping with any new value but a non-empty string or a
    non-empty array; an old array with any new value but a non-empty
    string or a non-empty mapping; an old string with [null], a boolean, a
    number, an empty mapping or an empty array, with a string where one of
    the two is empty, and the empty old string with an array. Afterwards
    the slice reads as the value, and every other slice reads as before.
    Unless [localStorage] refuses the write, the promise resolves. The
    other pairs on which [Object.assign] returns are not covered. *)
Theorem X15_setState_replaces_a_slice_where_the_merge_returns
  this key (v : val) replace w js jx jv :
  key <> "" ->
  state_text this w = Ok (Some (JObj js)) ->
  json_get js key = Some jx ->
  JSON_stringify (heap w) v = Ok (Some jv) ->
  Object_assign_text jx jv = Ok tt ->
  let result :=
    Store.setState this {| SetStateProps.slice := Some key;
                           SetStateProps.value := v;
                           SetStateProps.replace := replace |} w in
  (exists js',
      state_text this (snd result) = Ok (Some (JObj js')) /\
      json_get js' key = Some jv /\
      forall k', k' <> key -> json_get js' k' = json_get js k') /\
  ((forall ls, window w = Some ls -> quota_exceeded ls = false) ->
   exists r, fst result = Ok r).
Proof.
  intros Hkey (s & j & Hs & Hj & [= <-])%state_text_inv Hjx Hjv Ha.
  set (props := {| SetStateProps.slice := Some key;
                   SetStateProps.value := v;
                   SetStateProps.replace := replace |}).
  destruct (CloneFacts.ser_text_primitive _ _ _ _ _ Hj) as (l & m & Hi & Hl).
  destruct (slice_assign this props w s js key jx jv)
    as (h3 & _ & Hm); try done.
  rewrite Ha in Hm. destruct Hm as (h4 & He4 & Hm).
  pose proof Hj as Hj0. rewrite Hi in Hj0.
  apply (JSON_stringify_obj _ _ _ _ Hl) in Hj0 as (js0 & [= <-] & Hjs).
  destruct (obj_get m key) as [xv|] eqn:Hx.
  2:{ rewrite (ser_props_get_None _ _ _ _ Hjs Hx) in Hjx. done. }
  destruct (JSON_parse jv h4) as [fresh h5] eqn:E5.
  pose proof (JSON_parse_extends _ _ _ _ E5) as He5.
  assert (mutation this props w
          = (Ok tt, set_heap (<[l := CObj (obj_set m key fresh)]> h5) w)) as Hmut.
  { rewrite Hm.
    erewrite bind_Ok; [|by apply get_store_Ok].
    erewrite bind_Ok;
      [|rewrite clone_Ok with (j := jv);
        [cbn [heap set_heap]; by rewrite E5
        |cbn [heap set_heap]; by eapply JSON_stringify_extends]].
    cbn [fst snd].
    erewrite on_heap_Ok; [done|]. cbn [heap set_heap]. unfold js_set.
    rewrite Hi. by rewrite (He5 _ _ (He4 _ _ Hl)), Hx. }
  edestruct (setState_after this props w) as [Hafter [He Hst]]; [|exact Hmut|].
  { simpl. by rewrite (bool_decide_eq_false_2 _ Hkey). }
  fold props. intros result. fold result in He, Hst, Hafter.
  cbn [heap stores set_heap] in He, Hst.
  destruct (write_slice_text _ _ _ _ key _ _ _ _ _ Hl Hjs He4 E5 He)
    as (js' & Htext & Hget & Hothers).
  split.
  - exists js'. split; [|done].
    eapply state_text_of; [by rewrite Hst|]. by rewrite Hi.
  - intros Hquota. rewrite Hafter.
    set (w1 := set_heap (<[l := CObj (obj_set m key fresh)]> h5) w).
    destruct (write_slice_text _ _ _ _ key _ _ _ _ _ Hl Hjs He4 E5 (extends_refl _))
      as (js1 & Htext1 & _).
    rewrite <- Hi in Htext1.
    unfold after_mutation. unfold bind at 1. unfold Store.setTimeout at 1.
    unfold modify at 1.
    set (w2 := set_timers _ w1).
    destruct (window w) as [ls|] eqn:Ew.
    + erewrite bind_Ok.
      2:{ rewrite (save_window this w2 ls s (JObj js1)); try done.
          by rewrite (Hquota ls). }
      erewrite state_Ok; [by eexists|done|]. cbn [heap set_window set_console set_heap].
      eapply JSON_stringify_extends; [exact Htext1|].
      destruct (JSON_parse (JObj js1) (heap w2)) as [v2 h2] eqn:E2.
      by eapply JSON_parse_extends.
    + rewrite (bind_Ok _ _ _ _ _ (save_no_window this w2 Ew)).
      erewrite state_Ok; [by eexists|done|done].
Qed.

(** ** [createSlice] *)

Lemma ser_props_agree (f g : val -> res (option json)) ps js1 js2 :
  (forall x o1 o2, f x = Ok o1 -> g x = Ok o2 -> o1 = o2) ->
  ser_props f ps = Ok js1 -> ser_props g ps = Ok js2 -> js1 = js2.
Proof.
  intros Hfg. revert js1 js2.
  induction ps as [|[k v] ps IH]; intros js1 js2; simpl; [congruence|].
  destruct (f v) as [o1| |] eqn:E1; [|done..].
  destruct (g v) as [o2| |] eqn:E2; [|done..].
  destruct (ser_props f ps) as [js1'| |]; [|done..].
  destruct (ser_props g ps) as [js2'| |]; [|done..].
  intros [= <-] [= <-]. rewrite (Hfg _ _ _ E1 E2), (IH _ _ eq_refl eq_refl). done.
Qed.

Lemma ser_elems_agree (f g : val -> res (option json)) vs js1 js2 :
  (forall x o1 o2, f x = Ok o1 -> g x = Ok o2 -> o1 = o2) ->
  ser_elems f vs = Ok js1 -> ser_elems g vs = Ok js2 -> js1 = js2.
Proof.
  intros Hfg. revert js1 js2.
  induction vs as [|v vs IH]; intros js1 js2; simpl; [congruence|].
  destruct (f v) as [o1| |] eqn:E1; [|done..].
  destruct (g v) as [o2| |] eqn:E2; [|done..].
  destruct (ser_elems f vs) as [js1'| |]; [|done..].
  destruct (ser_elems g vs) as [js2'| |]; [|done..].
  intros [= <-] [= <-]. rewrite (Hfg _ _ _ E1 E2), (IH _ _ eq_refl eq_refl). done.
Qed.

(** Two serializations of one value that both complete agree, if the
    second heap has the cells of the first outside the second stack. *)
Lemma ser_agree n1 : forall n2 h1 h2 st1 st2 v o1 o2,
  ser n1 h1 st1 v = Ok o1 ->
  ser n2 h2 st2 v = Ok o2 ->
  (forall l c, l ∉ st2 -> h1 !! l = Some c -> h2 !! l = Some c) ->
  o1 = o2.
Proof.
  induction n1 as [|n1 IH]; intros n2 h1 h2 st1 st2 v o1 o2; [done|].
  destruct n2 as [|n2]; [done|].
  destruct v; simpl; try congruence.
  case_bool_decide as H1; [done|]. case_bool_decide as H2; [done|].
  intros Hs1 Hs2 Hag.
  destruct (h1 !! l) as [c|] eqn:E1; [|done].
  rewrite (Hag _ _ H2 E1) in Hs2.
  assert (forall x o1 o2,
            ser n1 h1 (l :: st1) x = Ok o1 -> ser n2 h2 (l :: st2) x = Ok o2 ->
            o1 = o2) as Hch.
  { intros x p1 p2 Hx1 Hx2. eapply IH; [exact Hx1|exact Hx2|].
    intros l' c' Hn. apply Hag. intros Hin. apply Hn. by right. }
  destruct c as [ps|vs].
  - apply res_map_Ok in Hs1 as (js1 & Hp1 & ->).
    apply res_map_Ok in Hs2 as (js2 & Hp2 & ->).
    by rewrite (ser_props_agree _ _ _ _ _ Hch Hp1 Hp2).
  - apply res_map_Ok in Hs1 as (js1 & Hp1 & ->).
    apply res_map_Ok in Hs2 as (js2 & Hp2 & ->).
    by rewrite (ser_elems_agree _ _ _ _ _ Hch Hp1 Hp2).
Qed.

Lemma ser_props_obj_set_others (f : val -> res (option json)) ps js k x js' :
  ser_props f ps = Ok js ->
  ser_props f (obj_set ps k x) = Ok js' ->
  forall k', k' <> k -> json_get js' k' = json_get js k'.
Proof.
  revert js js'. induction ps as [|[k0 v0] ps IH]; intros js js'; simpl.
  - intros [= <-]. destruct (f x) as [[j|]| |]; intros [= <-]; [|done].
    intros k' Hk. simpl. by rewrite bool_decide_eq_false_2.
  - destruct (f v0) as [oj| |] eqn:E0; [|done..].
    destruct (ser_props f ps) as [js0| |] eqn:E1; [|done..].
    intros [= <-]. case_bool_decide as Hk; simpl.
    + subst k0. rewrite E1. destruct (f x) as [ox| |]; [|done..].
      intros [= <-] k' Hk'.
      destruct oj, ox; simpl; rewrite ?bool_decide_eq_false_2 by done; done.
    + rewrite E0. destruct (ser_props f (obj_set ps k x)) as [js1| |] eqn:E2; [|done..].
      intros [= <-] k' Hk'. specialize (IH _ _ eq_refl eq_refl k' Hk').
      destruct oj; simpl; [|done]. by rewrite IH.
Qed.

#[global] Instance quiet_preorder : PreOrder quiet.
Proof.
  split.
  - intros w. split; [reflexivity|done].
  - intros w1 w2 w3 [H1 H2] [H3 H4]. split; [by etrans|congruence].
Qed.

#[export] Hint Resolve quiet_preorder : frames.

Lemma bind_inv_frame {A B} (R : world -> world -> Prop) (c : M A) (k : A -> M B)
  w b w' :
  frame R c ->
  bind c k w = (Ok b, w') ->
  exists a w1, R w w1 /\ c w = (Ok a, w1) /\ k a w1 = (Ok b, w').
Proof.
  intros Hf (a & w1 & Hc & Hk)%bind_inv_Ok. exists a, w1.
  split; [|done]. specialize (Hf w). by rewrite Hc in Hf.
Qed.

Lemma isEqual_throw h a b e : isEqual h a b = Throw e -> e = TypeError.
Proof.
  unfold isEqual.
  destruct (JSON_stringify h a) as [x| |] eqn:E1;
    [|intros [= <-]; by apply JSON_stringify_throw in E1|done].
  destruct (JSON_stringify h b) as [y| |] eqn:E2;
    [done|intros [= <-]; by apply JSON_stringify_throw in E2|done].
Qed.

Section CreateSlice.

Variable host : Host.

Lemma quiet_state this : frame quiet (Store.state this).
Proof.
  intros w. split; [apply only_allocates_state|].
  by apply (frame_state (R := unchanged timers)).
Qed.

Lemma quiet_save this : frame quiet (Store.saveStateToLocalStorage this).
Proof.
  intros w. split; [apply only_allocates_save|].
  by apply (frame_save (R := unchanged timers)).
Qed.

Lemma quiet_publish this current next :
  allocates_only host ->
  frame quiet (PubSub.publish host this current next).
Proof.
  intros [Hsel Hcb] w. split.
  - apply (frame_publish (R := only_allocates)).
    + intros w0 c. split; [apply extends_refl|done].
    + intros f state w0. split; [apply Hsel|done].
    + intros cb arg w0. split; [apply Hcb|done].
  - by apply (frame_publish (R := unchanged timers)).
Qed.

#[local] Hint Resolve quiet_state quiet_save : frames.

(** What [createSlice] stores under the name. *)
Lemma createSlice_inv this key v w r w' :
  allocates_only host ->
  Store.createSlice host this
    {| CreateSliceProps.name := VStr key;
       CreateSliceProps.initialState := v |} w = (Ok r, w') ->
  exists s v' h0 H w5,
    stores w !! this = Some s /\
    match v with
    | VUndefined | VNull => v' = VRef (length (heap w)) /\ h0 = heap w ++ [CObj []]
    | _ => v' = v /\ h0 = heap w
    end /\
    js_set h0 (_internalState s) key v' = Ok H /\
    quiet (set_heap H w) w5 /\
    Store.state this w5 = (Ok r, w').
Proof.
  intros Hhost. unfold Store.createSlice. simpl.
  intros (s & w0 & Hs & Hk)%bind_inv_Ok.
  unfold get_store in Hs. destruct (stores w !! this) as [s0|] eqn:Es; [|done].
  injection Hs as <- <-.
  apply bind_inv_Ok in Hk as (v' & w1 & Hv & Hk).
  apply bind_inv_Ok in Hk as ([] & w2 & Hset & Hk).
  unfold on_heap in Hset.
  destruct (js_set (heap w1) (_internalState s0) key v') as [H| |] eqn:Ejs;
    [|done..].
  simpl in Hset. injection Hset as <-.
  apply (bind_inv_frame quiet) in Hk as (s1 & w3 & Hq3 & _ & Hk);
    [|intros ?; apply frame_get_store].
  apply (bind_inv_frame quiet) in Hk as (cur & w4 & Hq4 & _ & Hk);
    [|apply quiet_state].
  apply (bind_inv_frame quiet) in Hk as (nxt & w5 & Hq5 & _ & Hk);
    [|apply quiet_state].
  apply (bind_inv_frame quiet) in Hk as ([] & w6 & Hq6 & _ & Hk);
    [|by apply quiet_publish].
  apply (bind_inv_frame quiet) in Hk as ([] & w7 & Hq7 & _ & Hk);
    [|apply quiet_save].
  exists s0, v', (heap w1), H, w7.
  assert (quiet (set_heap H w1) w7) as Hq.
  { etrans; [exact Hq3|]. etrans; [exact Hq4|]. etrans; [exact Hq5|].
    etrans; [exact Hq6|exact Hq7]. }
  split; [done|].
  destruct v; simpl in Hv; unfold alloc, ret in Hv; injection Hv as <- <-; done.
Qed.


Section CreateSliceThrows.

Context {P : exn -> Prop}.
Hypothesis PType : P TypeError.
Hypothesis PSyntax : P SyntaxError.
Hypothesis PCurrent : P (Error "currentState should be and object").
Hypothesis PNext : P (Error "nextState should be and object").
Hypothesis PSave : forall e, P (Error (StringOf e)).
Hypothesis PHost : host_throws_only P host.

Lemma throws_only_call_host {A} (f : list cell -> res A * list cell) :
  (forall h e, (f h).1 = Throw e -> P e) -> throws_only P (call_host f).
Proof. intros Hf w e w'. unfold call_host. intros [= He _]. by eapply Hf. Qed.

Lemma throws_only_forEach items body :
  (forall item, throws_only P (body item)) ->
  throws_only P (PubSub.forEach items body).
Proof.
  intros Hb. induction items as [|item items IH]; simpl; repeat throws_step.
Qed.

Lemma throws_only_publish this current next :
  throws_only P (PubSub.publish host this current next).
Proof.
  destruct PHost as [Hsel Hcb].
  unfold PubSub.publish. throws_step; [throws_step|].
  destruct (negb _); [throws_step|]. destruct (negb _); [throws_step|].
  apply throws_only_forEach. intros item. unfold PubSub.notify.
  throws_step; [apply throws_only_call_host; intros h e; apply Hsel|].
  throws_step; [apply throws_only_call_host; intros h e; apply Hsel|].
  throws_step.
  - apply throws_only_read_heap. by intros h e ->%isEqual_throw.
  - destruct (negb _); [|throws_step]. unfold PubSub.invoke.
    throws_step; [throws_step|].
    apply throws_only_call_host; intros h e; apply Hcb.
Qed.

Lemma throws_only_createSlice_accepted this key v :
  throws_only P
    (Store.createSlice host this
       {| CreateSliceProps.name := VStr key;
          CreateSliceProps.initialState := v |}).
Proof.
  unfold Store.createSlice. simpl.
  throws_step; [throws_step|].
  throws_step; [destruct v; throws_step|].
  throws_step.
  { apply throws_only_on_heap. intros h x.
    destruct (js_set _ _ _ _) eqn:E; simpl; try done.
    intros [= <-]. by apply js_set_throw in E as ->. }
  throws_step; [throws_step|].
  throws_step; [by apply throws_only_state|].
  throws_step; [by apply throws_only_state|].
  throws_step; [apply throws_only_publish|].
  throws_step; [by apply throws_only_save|by apply throws_only_state].
Qed.

End CreateSliceThrows.

(** X17. [createSlice] refuses a name that is not a string before it
    changes anything: it throws [Error("name must be a string")] and the
    world is as it was; and nothing else in [createSlice] throws this
    error, unless a function of a subscriber does. *)
Theorem X17_createSlice_refusal_is_atomic this (slice : CreateSliceProps.t) w :
  (isString (CreateSliceProps.name slice) = false ->
   Store.createSlice host this slice w
   = (Throw (Error "name must be a string"), w)) /\
  (host_throws_only (fun e => e <> Error "name must be a string") host ->
   forall w',
      Store.createSlice host this slice w
      = (Throw (Error "name must be a string"), w') ->
      w' = w /\ isString (CreateSliceProps.name slice) = false).
Proof.
  split.
  - intros Hn. unfold Store.createSlice. by rewrite Hn.
  - intros Hhost w' Hc. destruct slice as [name v].
    destruct (isString name) eqn:En.
    + exfalso. destruct name; try done.
      eapply (throws_only_createSlice_accepted
                (P := fun e => e <> Error "name must be a string"));
        [done|done|done|done| |exact Hhost|exact Hc|done].
      intros []; simpl; done.
    + revert Hc. unfold Store.createSlice. simpl. rewrite En. simpl.
      by intros [= <-].
Qed.

End CreateSlice.

(** ** Reading *)

(** X18. Reading [store.state] changes nothing but the heap, to which it
    adds a copy of the state. The copy and the state are independent:
    whatever is written to the copy, the store reads as before, and
    whatever the store later does to its state, the copy reads as when it
    was taken. *)
Theorem X18_state_getter_gives_an_independent_snapshot this w snapshot w1 :
  Store.state this w = (Ok snapshot, w1) ->
  exists j,
    state_text this w = Ok (Some j) /\
    w1 = set_heap (heap w1) w /\
    extends (heap w) (heap w1) /\
    (forall H, extends (heap w) H ->
               state_text this (set_heap H w1) = Ok (Some j)) /\
    (forall H, keeps_from (length (heap w)) (heap w1) H ->
               JSON_stringify H snapshot = Ok (Some j)).
Proof.
  intros (s & j & h1 & Hs & Hj & Hp & ->)%state_inv. exists j.
  split; [by eapply state_text_of|]. split; [done|].
  split; [by eapply JSON_parse_extends|]. split.
  - intros H He. eapply state_text_of; [exact Hs|]. simpl.
    by eapply JSON_stringify_extends.
  - intros H Hk. simpl in Hk. by eapply CloneFacts.JSON_parse_stringify_fresh.
Qed.

(** ** Values that cannot be copied *)

(** X19. [setState] does not check that the new state can be copied
    before it commits it: [setState({ value: v, replace: true })] with a
    cyclic [v] (of arrays and plain objects without a method [toJSON]) is
    rejected, with the [TypeError] of the copy or, where the state is
    saved, with the [Error] made of it, [new Error(e)], whose message is
    [String(e)]; but [v] is the state from then on, the notification is
    scheduled, and every later read of [store.state] throws that
    [TypeError]. *)
Theorem X19_setState_commits_a_state_it_cannot_copy this l w s :
  toJSON_free (heap w) = true ->
  stores w !! this = Some s ->
  closed (heap w) ->
  cyclic (heap w) l ->
  isObject (heap w) (VRef l) = true ->
  let result :=
    Store.setState this {| SetStateProps.slice := None;
                           SetStateProps.value := VRef l;
                           SetStateProps.replace := Some true |} w in
  fst result = Throw (match window w with
                      | None => TypeError
                      | Some _ => Error (StringOf TypeError)
                      end) /\
  (exists s', stores (snd result) !! this = Some s' /\ _internalState s' = VRef l) /\
  timers (snd result) = timers w ++ [this] /\
  fst (Store.state this (snd result)) = Throw TypeError.
Proof.
  intros _ Hs Hcl Hcy Hobj.
  set (props := {| SetStateProps.slice := None;
                   SetStateProps.value := VRef l;
                   SetStateProps.replace := Some true |}).
  pose proof (mutation_replace this props w s eq_refl eq_refl Hs) as Hm.
  set (s1 := {| _storeName := _storeName s;
                _internalState := VRef l;
                _pubSub := _pubSub s |}) in Hm.
  set (w1 := set_stores (<[this := s1]> (stores w)) w) in Hm.
  assert (stores w1 !! this = Some s1) as Hs1.
  { simpl. apply list_lookup_insert_eq. by eapply lookup_lt_Some. }
  destruct (setState_after this props w w1) as [Hset _]; [|exact Hm|].
  { simpl. by rewrite Hobj. }
  intros result. unfold result. rewrite Hset. clear result Hset.
  assert (forall w0, stores w0 !! this = Some s1 -> heap w0 = heap w ->
                     Store.state this w0 = (Throw TypeError, w0)) as Hstate.
  { intros w0 Hs0 Hh0. unfold Store.state, bind. rewrite (get_store_Ok _ _ _ Hs0).
    unfold Store.clone, on_heap. simpl. rewrite Hh0.
    by rewrite (CloneFacts.cloneObject_cyclic _ _ Hcl Hcy). }
  set (w2 := set_timers (timers w1 ++ [this]) w1).
  assert (after_mutation this w1
          = match window w with
            | Some _ =>
                (Throw (Error (StringOf TypeError)),
                 set_console (console w2 ++ [ "Error saving state to local storage:" ]) w2)
            | None => (Throw TypeError, w2)
            end) as ->.
  { unfold after_mutation.
    rewrite (bind_Ok _ _ w1 tt w2) by done.
    destruct (window w) as [ls|] eqn:Ew.
    - erewrite bind_Throw; [done|].
      unfold Store.saveStateToLocalStorage. unfold bind at 1. unfold get at 1.
      change (window w2) with (window w). rewrite Ew.
      unfold try_catch. by rewrite (bind_Throw _ _ _ _ _ (Hstate w2 Hs1 eq_refl)).
    - rewrite (bind_Ok _ _ w2 tt w2) by by apply save_no_window.
      by apply Hstate. }
  destruct (window w) as [ls|]; simpl.
  - split; [done|]. split; [by exists s1|]. split; [done|]. by rewrite Hstate.
  - split; [done|]. split; [by exists s1|]. split; [done|]. by rewrite Hstate.
Qed.

End StoreMore.

(** * The further properties at concrete inputs *)

Module MoreWitnesses.
Import JS Helpers Runtime Obs.

Lemma closed_world_cycle : closed (heap Demo.world_cycle).
Proof.
  intros l c Hl. destruct l as [|[|l]]; simpl in Hl; [| |done];
    injection Hl as <-; repeat constructor; simpl; lia.
Defined.

Lemma cyclic_world_cycle : cyclic (heap Demo.world_cycle) 1.
Proof.
  exists 1. split; [apply rtc_refl|]. apply tc_once.
  unfold child. simpl. exists "self". apply list_elem_of_here.
Defined.

Lemma X1_witness :
  isEqual
    (heap Demo.world_x ++ [ CObj [("a", VNum 1)]; CObj [("x", VRef 3)] ])
    (VRef 4) (VRef 1)
  = Ok true.
Proof.
  destruct (CloneFacts.X1_cloneObject_copy_is_independent
              (heap Demo.world_x) (VRef 1) (VRef 4)
              (heap Demo.world_x ++ [ CObj [("a", VNum 1)]; CObj [("x", VRef 3)] ]))
    as (j & _ & _ & He & _); [vm_compute; reflexivity|exact He].
Defined.

Lemma X2_witness : cloneObject [] VUndefined = Throw SyntaxError.
Proof.
  destruct (CloneFacts.X2_cloneObject_failures [] VUndefined eq_refl)
    as [[_ H] _].
  apply H. by left.
Defined.

Lemma X3_witness : cloneObject (heap Demo.world_cycle) (VRef 1) = Throw TypeError.
Proof.
  apply CloneFacts.X3_cloneObject_rejects_cycles;
    [reflexivity|exact closed_world_cycle|exact cyclic_world_cycle].
Defined.

Lemma X4_witness :
  exists l' qs,
    [ CObj [("a", VNum 1); ("f", VFun (Closure 0)); ("u", VUndefined)];
      CObj [("a", VNum 1)] ] !! l' = Some (CObj qs) /\
    obj_get qs "f" = None.
Proof.
  destruct (CloneFacts.X4_cloneObject_drops_what_JSON_leaves_out
              [ CObj [("a", VNum 1); ("f", VFun (Closure 0)); ("u", VUndefined)] ]
              0 [("a", VNum 1); ("f", VFun (Closure 0)); ("u", VUndefined)]
              (VRef 1)
              [ CObj [("a", VNum 1); ("f", VFun (Closure 0)); ("u", VUndefined)];
                CObj [("a", VNum 1)] ])
    as (l' & qs & _ & _ & Hc & Hk).
  - reflexivity.
  - reflexivity.
  - apply (bool_decide_unpack _). vm_compute. exact I.
  - vm_compute. reflexivity.
  - exists l', qs. split; [exact Hc|].
    specialize (Hk "f").
    change (obj_get [("a", VNum 1); ("f", VFun (Closure 0)); ("u", VUndefined)] "f")
      with (Some (VFun (Closure 0))) in Hk.
    destruct Hk as [Hk _]. apply Hk. right. by eexists.
Defined.

Lemma X5_witness :
  PubSub.publish (PubSub.inert Demo.select) {| _callbackList := Demo.watchers_of_a |}
    (VRef 0) (VRef 1) Demo.world_self
  = (Throw TypeError, set_calls [(Closure 11, VNum 2)] Demo.world_self).
Proof.
  unshelve epose proof
    (PubSubMore.X5_publish_stops_at_the_first_failure
       (PubSub.inert Demo.select) Demo.select
       {| _callbackList := Demo.watchers_of_a |}
       (VRef 0) (VRef 1) Demo.world_self
       [ {| callback := Closure 11; config := Closure 1 |} ]
       {| callback := Closure 10; config := Closure 0 |}
       [ {| callback := Closure 12; config := Closure 1 |} ]
       TypeError _ _ _ _ _ _ _) as [_ Hp].
  1-3, 5-7: vm_compute; reflexivity.
  - repeat constructor; try (eexists; vm_compute; reflexivity).
  - exact Hp.
Defined.

Lemma X6_witness :
  PubSub.publish (PubSub.inert Demo.select)
    (PubSub.unsubscribe (Closure 10) {| _callbackList := Demo.two_watchers |})
    (VRef 0) (VRef 1) Demo.world_snapshots
  = (Ok tt, set_calls [(Closure 11, VRef 1)] Demo.world_snapshots).
Proof.
  unshelve epose proof
    (PubSubMore.X6_unsubscribe_keeps_the_other_notifications
       (PubSub.inert Demo.select) Demo.select
       {| _callbackList := Demo.two_watchers |} (Closure 10)
       (VRef 0) (VRef 1) Demo.world_snapshots _ _ _) as (new & Hp & Hu).
  1-2: vm_compute; reflexivity.
  - repeat constructor; try (eexists; vm_compute; reflexivity).
  - etrans; [exact Hu|]. vm_compute in Hp. injection Hp as Hp.
    apply app_inv_head with (l := []) in Hp. subst new. reflexivity.
Defined.

Lemma X7_witness :
  PubSub.unsubscribe (Closure 12)
    {| _callbackList :=
         Demo.subscribers ++ [ {| callback := Closure 12; config := Closure 0 |} ] |}
  = {| _callbackList := Demo.subscribers |}.
Proof.
  destruct (PubSubMore.X7_subscribe_then_unsubscribe_restores_the_list
              {| _callbackList := Demo.subscribers |}
              (VFun (Closure 12)) (VFun (Closure 0))
              {| _callbackList :=
                   Demo.subscribers
                   ++ [ {| callback := Closure 12; config := Closure 0 |} ] |}
              (PubSub.unsubscribe (Closure 12)) eq_refl) as (_ & _ & H).
  apply H. intros item Hin. simpl in Hin.
  apply elem_of_cons in Hin as [->|Hin]; [discriminate|].
  apply elem_of_cons in Hin as [->|Hin]; [discriminate|].
  by apply elem_of_nil in Hin.
Defined.

Lemma X8_witness :
  exists j,
    state_text 0
      (snd (Store.setState 0 (Demo.merge_with (VRef 1)) (Demo.world_storage false)))
    = Ok (Some j) /\
    window
      (snd (Store.setState 0 (Demo.merge_with (VRef 1)) (Demo.world_storage false)))
    = Some {| items := <["appState" := TJson j]> ∅; quota_exceeded := false |}.
Proof.
  unshelve epose proof
    (StoreMore.X8_setState_persists_what_it_returns
       0 (Demo.merge_with (VRef 1)) (Demo.world_storage false) (VRef 4)
       (snd (Store.setState 0 (Demo.merge_with (VRef 1)) (Demo.world_storage false)))
       (Demo.store0 (VRef 0) Demo.subscribers) _ _)
    as (j & _ & Hst & _ & Hw).
  - vm_compute. reflexivity.
  - reflexivity.
  - exists j. split; [exact Hst|exact Hw].
Defined.

Lemma X9_witness :
  fst (Store.setState 0 (Demo.replace_with (VRef 1)) (Demo.world_storage true))
  = Throw (Error (StringOf QuotaExceededError)) /\
  state_text 0
    (snd (Store.setState 0 (Demo.replace_with (VRef 1)) (Demo.world_storage true)))
  = Ok (Some (JObj [("a", JNum 1)])).
Proof.
  unshelve epose proof
    (StoreMore.X9_setState_keeps_the_update_when_saving_fails
       0 (VRef 1) (Demo.world_storage true)
       (Demo.store0 (VRef 0) Demo.subscribers)
       {| items := ∅; quota_exceeded := true |}
       (JObj [("a", JNum 1)]) _ _ _ _ _)
    as (_ & w' & Hset & Hst & _).
  1-5: reflexivity || (vm_compute; reflexivity).
  unfold Demo.replace_with. rewrite Hset. split; [reflexivity|exact Hst].
Defined.

Lemma X10_witness :
  exists w',
    Store.constructor
      (Some {| StoreProps.storeName := None;
               StoreProps.replace := None;
               StoreProps.initialState := VRef 0 |})
      (Demo.world_reload
         (Some {| items := {[ "appState" := TJson (JObj [("n", JNum 7)]) ]};
                  quota_exceeded := false |}))
    = (Ok 0, w') /\
    state_text 0 w' = Ok (Some (JObj [("n", JNum 7)])).
Proof.
  unshelve epose proof
    (StoreMore.X10_constructor_prefers_the_stored_state
       {| StoreProps.storeName := None;
          StoreProps.replace := None;
          StoreProps.initialState := VRef 0 |}
       (Demo.world_reload
          (Some {| items := {[ "appState" := TJson (JObj [("n", JNum 7)]) ]};
                   quota_exceeded := false |}))
       (JObj [("a", JNum 1)]) _ _ _ _ _ _)
    as (w' & Hc & _ & _ & _ & Hst).
  1-3: vm_compute; reflexivity.
  - discriminate.
  - apply (bool_decide_unpack _). vm_compute. exact I.
  - intros j Hj. vm_compute in Hj. injection Hj as <-. vm_compute. reflexivity.
  - exists w'. split; [exact Hc|]. etrans; [exact Hst|]. vm_compute. reflexivity.
Defined.

Lemma X20_witness :
  exists w',
    Store.constructor
      (Some {| StoreProps.storeName := None;
               StoreProps.replace := None;
               StoreProps.initialState := VRef 0 |})
      (Demo.world_reload None)
    = (Ok 0, w') /\
    state_text 0 (set_heap (<[0 := CObj [("a", VNum 99)]]> (heap w')) w')
    = state_text 0 w'.
Proof.
  unshelve epose proof
    (StoreMore.X20_constructor_copies_initialState
       {| StoreProps.storeName := None;
          StoreProps.replace := None;
          StoreProps.initialState := VRef 0 |}
       (Demo.world_reload None)
       (JObj [("a", JNum 1)]) _ _ _ _ _)
    as (w' & Hc & _ & Hst).
  1-3: vm_compute; reflexivity.
  - discriminate.
  - apply (bool_decide_unpack _). vm_compute. exact I.
  - exists w'. split; [exact Hc|]. apply Hst.
    intros l c Hl Hlc. rewrite list_lookup_insert_ne; [exact Hlc|].
    simpl in Hl. lia.
Defined.

Lemma X21_witness :
  exists w1,
    Store.constructor
      (Some {| StoreProps.storeName := None;
               StoreProps.replace := None;
               StoreProps.initialState := VRef 0 |})
      (Demo.world_reload
         (window (snd (Store.setState 0 (Demo.merge_with (VRef 1))
                         (Demo.world_storage false)))))
    = (Ok 0, w1) /\
    state_text 0 w1 = Ok (Some (JObj [("b", JNum 2); ("a", JNum 1)])).
Proof.
  unshelve epose proof
    (StoreMore.X21_saved_state_is_restored
       0 (Demo.merge_with (VRef 1)) (Demo.world_storage false) (VRef 4)
       (snd (Store.setState 0 (Demo.merge_with (VRef 1)) (Demo.world_storage false)))
       (Demo.store0 (VRef 0) Demo.subscribers)
       {| items := ∅; quota_exceeded := false |}
       {| StoreProps.storeName := None;
          StoreProps.replace := None;
          StoreProps.initialState := VRef 0 |}
       (Demo.world_reload
          (window (snd (Store.setState 0 (Demo.merge_with (VRef 1))
                          (Demo.world_storage false)))))
       (JObj [("a", JNum 1)]) _ _ _ _ _ _ _ _ _ _)
    as (w1 & Hc & Hst).
  1-8: reflexivity || (vm_compute; reflexivity).
  - discriminate.
  - apply (bool_decide_unpack _). vm_compute. exact I.
  - exists w1. split; [exact Hc|]. etrans; [exact Hst|]. vm_compute. reflexivity.
Defined.

Lemma registry_wf_world_b : registry_wf Demo.world_b.
Proof.
  intros name this H. simpl in H.
  apply lookup_singleton_Some in H as [<- <-]. reflexivity.
Defined.

Lemma X12_witness :
  registry_wf
    (snd (Store.constructor
            (Some {| StoreProps.storeName := None;
                     StoreProps.replace := None;
                     StoreProps.initialState := VRef 1 |}) Demo.world_b)).
Proof.
  destruct (StoreMore.X12_constructor_keeps_the_registry_consistent
              {| StoreProps.storeName := None;
                 StoreProps.replace := None;
                 StoreProps.initialState := VRef 1 |}
              Demo.world_b registry_wf_world_b) as [H _].
  exact H.
Defined.


Lemma X14_witness :
  fst (Store.setState 0 (Demo.set_slice "gone" (VRef 2)) Demo.world_count)
  = Throw TypeError.
Proof.
  unshelve epose proof
    (StoreMore.X14_setState_rejects_where_the_unused_merge_throws
       0 "gone" (VRef 2) None Demo.world_count
       [("count", JNum 0); ("gone", JNull); ("todos", JArr [JStr "x"])]
       JNull (JObj [("a", JNum 1)]) TypeError _ _ _ _ _)
    as (_ & w' & Hset & _).
  - discriminate.
  - vm_compute; reflexivity.
  - vm_compute; reflexivity.
  - vm_compute; reflexivity.
  - reflexivity.
  - unfold Demo.set_slice. by rewrite Hset.
Defined.

Lemma X15_witness :
  exists js',
    state_text 0
      (snd (Store.setState 0 (Demo.set_slice "count" (VNum 1)) Demo.world_count))
    = Ok (Some (JObj js')) /\
    json_get js' "count" = Some (JNum 1) /\
    json_get js' "todos" = Some (JArr [JStr "x"]).
Proof.
  unshelve epose proof
    (StoreMore.X15_setState_replaces_a_slice_where_the_merge_returns
       0 "count" (VNum 1) None Demo.world_count
       [("count", JNum 0); ("gone", JNull); ("todos", JArr [JStr "x"])]
       (JNum 0) (JNum 1) _ _ _ _ _)
    as [(js' & Hst & Hk & Ho) _].
  - discriminate.
  - vm_compute; reflexivity.
  - vm_compute; reflexivity.
  - vm_compute; reflexivity.
  - reflexivity.
  - exists js'. split; [exact Hst|]. split; [exact Hk|].
    rewrite (Ho "todos") by discriminate. vm_compute. reflexivity.
Defined.

Lemma throwing_writes_nothing f h arg :
  (callback_body Demo.throwing f h arg).2 = h.
Proof.
  destruct f as [name|n]; [reflexivity|].
  do 11 (destruct n as [|n]; [reflexivity|]). reflexivity.
Defined.

Lemma throwing_allocates_only : allocates_only Demo.throwing.
Proof.
  split; intros f h x l c Hl; [exact Hl|].
  rewrite throwing_writes_nothing. exact Hl.
Defined.

Lemma throwing_throws_boom :
  host_throws_only (fun e => e <> Error "name must be a string") Demo.throwing.
Proof.
  split; intros f h x e; [discriminate|].
  destruct f as [name|n]; [discriminate|].
  do 10 (destruct n as [|n]; [discriminate|]).
  destruct n as [|n]; [|discriminate].
  intros [= <-]. discriminate.
Defined.


Lemma X17_witness :
  Store.createSlice Demo.throwing 0
    {| CreateSliceProps.name := VNum 3;
       CreateSliceProps.initialState := VUndefined |} Demo.world_b
  = (Throw (Error "name must be a string"), Demo.world_b) /\
  forall w',
    Store.createSlice Demo.throwing 0
      {| CreateSliceProps.name := VStr "cart";
         CreateSliceProps.initialState := VUndefined |} Demo.world_b
    <> (Throw (Error "name must be a string"), w').
Proof.
  split.
  - destruct (StoreMore.X17_createSlice_refusal_is_atomic
                Demo.throwing 0
                {| CreateSliceProps.name := VNum 3;
                   CreateSliceProps.initialState := VUndefined |} Demo.world_b)
      as [H _].
    apply H. reflexivity.
  - intros w' Hc.
    destruct (StoreMore.X17_createSlice_refusal_is_atomic
                Demo.throwing 0
                {| CreateSliceProps.name := VStr "cart";
                   CreateSliceProps.initialState := VUndefined |} Demo.world_b)
      as [_ H].
    destruct (H throwing_throws_boom w' Hc) as [_ Hn]. discriminate.
Defined.

Lemma X18_witness :
  JSON_stringify
    (<[0 := CObj [("b", VNum 99)]]> (heap (snd (Store.state 0 Demo.world_b))))
    (VRef 2)
  = Ok (Some (JObj [("b", JNum 2)])).
Proof.
  unshelve epose proof
    (StoreMore.X18_state_getter_gives_an_independent_snapshot
       0 Demo.world_b (VRef 2) (snd (Store.state 0 Demo.world_b)) _)
    as (j & Hj & _ & _ & _ & Hk).
  - vm_compute; reflexivity.
  - vm_compute in Hj. injection Hj as <-. apply Hk.
    intros l c Hl Hlc. rewrite list_lookup_insert_ne; [exact Hlc|].
    simpl in Hl. lia.
Defined.

Lemma X19_witness :
  fst (Store.state 0
         (snd (Store.setState 0 (Demo.replace_with (VRef 1)) Demo.world_cycle)))
  = Throw TypeError.
Proof.
  unshelve epose proof
    (StoreMore.X19_setState_commits_a_state_it_cannot_copy
       0 1 Demo.world_cycle (Demo.store0 (VRef 0) Demo.subscribers)
       _ _ closed_world_cycle cyclic_world_cycle _)
    as (_ & _ & _ & H).
  1-3: reflexivity.
  exact H.
Defined.

Lemma X23_witness :
  fst (Store.constructor
         (Some {| StoreProps.storeName := Some "toString";
                  StoreProps.replace := None;
                  StoreProps.initialState := VRef 1 |}) Demo.world_b)
  = Throw TypeError.
Proof.
  unshelve epose proof
    (StoreMore.X23_constructor_refuses_inherited_names
       {| StoreProps.storeName := Some "toString";
          StoreProps.replace := None;
          StoreProps.initialState := VRef 1 |}
       Demo.world_b (JObj [("a", JNum 1)]) _ _ _) as [H _].
  1-3: vm_compute; reflexivity.
  apply H. right. apply (bool_decide_unpack _). vm_compute. exact I.
Defined.

End MoreWitnesses.
